(** * StreamDeck URL Switcher: request broker and URL resolver

    A shallow embedding of
    - [chrome-extension/background.js]  (module [Background]),
    - [streamdeck-plugin/.../plugin.js] (modules [ExtensionServer] and
      [URLSwitcherPlugin], after its two classes),
    - [native-host/native-host.js]      (module [NativeHost]),
    followed by the properties of the specification that concern them. *)

From Stdlib Require Import ZArith NArith String Ascii DecimalString.
From stdpp Require Import gmap list.

Local Open Scope N_scope.

(* ===================================================================== *)
(** * JavaScript values                                                    *)
(* ===================================================================== *)

Module JS.

(** A JavaScript string is a sequence of UTF-16 code units. *)
Abbreviation jsstring := (list N).

(** Literals: an ASCII Rocq string, one code unit per character. *)
Definition js (s : string) : jsstring :=
  (λ a, N_of_ascii a) <$> list_ascii_of_string s.
Arguments js s%_string : simpl never.

(** The values a parsed JSON document can put in a field that the program
    reads.  [JNum z] is an integral number (in the range where doubles are
    exact); [JOther r] is any other value (an object, an array, a number with
    a fraction) together with the string [r] that [String(v)] gives for it. *)
Inductive jsval :=
| JUndefined
| JNull
| JBool (b : bool)
| JNum (z : Z)
| JStr (s : jsstring)
| JOther (repr : jsstring).

#[global] Instance jsval_eq_dec : EqDecision jsval.
Proof. solve_decision. Defined.

(** ToBoolean. *)
Definition truthy (v : jsval) : bool :=
  match v with
  | JUndefined | JNull => false
  | JBool b => b
  | JNum z => negb (z =? 0)%Z
  | JStr s => negb (bool_decide (s = []))
  | JOther _ => true
  end.

(** ToString, as used by [+] with a string operand. *)
Definition to_string (v : jsval) : jsstring :=
  match v with
  | JUndefined => js "undefined"
  | JNull => js "null"
  | JBool true => js "true"
  | JBool false => js "false"
  | JNum z => js (NilZero.string_of_int (Z.to_int z))
  | JStr s => s
  | JOther r => r
  end.

(** [a === 'literal'] *)
Definition strict_eq_str (v : jsval) (lit : jsstring) : bool :=
  bool_decide (v = JStr lit).

(** [s.startsWith(p)] *)
Definition startsWith (s p : jsstring) : bool := bool_decide (p `prefix_of` s).

(** [s.replace(/^p/, '')] for a literal [p]. *)
Definition replace_prefix (p s : jsstring) : jsstring :=
  if startsWith s p then drop (length p) s else s.

(** [s.replace(/^https?:\/\//, '')], the expression both [normalizeURL] and
    [getURLSnippet] start with. *)
Definition replace_protocol (s : jsstring) : jsstring :=
  if startsWith s (js "https://") then drop 8 s
  else if startsWith s (js "http://") then drop 7 s
  else s.

(** [s.replace(/^www\./, '')] *)
Definition replace_www (s : jsstring) : jsstring := replace_prefix (js "www.") s.

(** [++n] on a JavaScript number holding a natural number: exact below
    2^53, and [2^53 + 1] rounds back to [2^53]. *)
Definition max_exact : N := 2 ^ 53.
Definition pre_incr (n : N) : N := if n <? max_exact then n + 1 else n.

(** [WebSocket.readyState] *)
Inductive ReadyState := CONNECTING | OPEN | CLOSING | CLOSED.

#[global] Instance ReadyState_eq_dec : EqDecision ReadyState.
Proof. solve_decision. Defined.

End JS.

Import JS.

(* ===================================================================== *)
(** * chrome-extension/background.js                                       *)
(* ===================================================================== *)

Module Background.

(** ** Tab management *)

(** A tab as [chrome.tabs.query] returns it; [url], [title] and
    [favIconUrl] are strings and may be missing. *)
Record chrome_tab := ChromeTab {
  ct_id : jsval;
  ct_windowId : jsval;
  ct_url : option jsstring;
  ct_title : option jsstring;
  ct_active : jsval;
  ct_favIconUrl : option jsstring
}.

(** The tab descriptor built by [getAllTabs]. *)
Record tab := Tab {
  id : jsval;
  windowId : jsval;
  url : jsstring;
  title : jsstring;
  active : jsval;
  favIconUrl : jsstring
}.

#[global] Instance tab_eq_dec : EqDecision tab.
Proof. solve_decision. Defined.

(** The browser API the agent calls.  A rejected promise is [inr message]. *)
Record Chrome := {
  tabs_query : list chrome_tab + jsstring;
  tabs_update : jsval → unit + jsstring;
  windows_update : jsval → unit + jsstring;
  tabs_create : jsval → jsval + jsstring
}.

(** [v || ''] for a string that may be missing. *)
Definition or_empty (v : option jsstring) : jsstring := default [] v.

Definition describe (t : chrome_tab) : tab :=
  {| id := ct_id t;
     windowId := ct_windowId t;
     url := or_empty (ct_url t);
     title := or_empty (ct_title t);
     active := ct_active t;
     favIconUrl := or_empty (ct_favIconUrl t) |}.

Definition getAllTabs (c : Chrome) : list tab + jsstring :=
  match tabs_query c with
  | inl tabs => inl (describe <$> tabs)
  | inr e => inr e
  end.

(** [String.prototype.toLowerCase], code unit by code unit: the ASCII
    letters and the Latin-1 capitals (U+00C0..U+00DE without U+00D7) move up
    by 32.  Code units above U+00FF are left as they are: the Unicode case
    tables beyond Latin-1 are not part of this model. *)
Definition lower_unit (c : N) : N :=
  if ((65 <=? c) && (c <=? 90)) || ((192 <=? c) && (c <=? 222) && negb (c =? 215))
  then c + 32 else c.

Definition toLowerCase (s : jsstring) : jsstring := lower_unit <$> s.

(** What [.] does not match in a regular expression without the [s] flag. *)
Definition line_terminator (c : N) : bool :=
  (c =? 10) || (c =? 13) || (c =? 8232) || (c =? 8233).

(** [s.replace(/\/$/, '')]: the leftmost [/] that the end of input follows. *)
Fixpoint replace_trailing_slash (s : jsstring) : jsstring :=
  match s with
  | [] => []
  | c :: r =>
      if (c =? 47) && bool_decide (r = []) then []
      else c :: replace_trailing_slash r
  end.

(** [s.replace(/#.*$/, '')]: the leftmost [#] from which [.*] reaches the
    end of input, that is, with no line terminator after it. *)
Fixpoint replace_fragment (s : jsstring) : jsstring :=
  match s with
  | [] => []
  | c :: r =>
      if (c =? 35) && forallb (λ d, negb (line_terminator d)) r then []
      else c :: replace_fragment r
  end.

(** [normalizeURL] on a string argument. *)
Definition normalizeURL (url : jsstring) : jsstring :=
  if bool_decide (url = []) then []
  else
    let normalized := toLowerCase url in
    let normalized := replace_protocol normalized in
    let normalized := replace_www normalized in
    let normalized := replace_trailing_slash normalized in
    let normalized := replace_fragment normalized in
    normalized.

(** [normalizeURL] on whatever a message or a tab carries: a falsy value
    gives [''], a string is normalized, and any other value has no
    [toLowerCase] method, so the call throws ([None]). *)
Definition normalizeURL_dyn (url : jsval) : option jsstring :=
  if negb (truthy url) then Some []
  else match url with
       | JStr s => Some (normalizeURL s)
       | _ => None
       end.

(** The loop of [findTabByURL] over the tabs; [None] is [null]. *)
Fixpoint findTab_loop (tabs : list tab) (normalizedTarget : jsstring)
  : option tab :=
  match tabs with
  | [] => None
  | t :: rest =>
      let normalizedTab := normalizeURL (url t) in
      if bool_decide (normalizedTab = normalizedTarget) then Some t
      else if startsWith normalizedTab normalizedTarget
              || startsWith normalizedTarget normalizedTab
      then Some t
      else findTab_loop rest normalizedTarget
  end.

(** [findTabByURL(targetURL)]: the outer [None] is a thrown exception. *)
Definition findTabByURL (c : Chrome) (targetURL : jsval) : option (option tab) :=
  match getAllTabs c with
  | inr _ => None
  | inl tabs =>
      match normalizeURL_dyn targetURL with
      | None => None
      | Some normalizedTarget => Some (findTab_loop tabs normalizedTarget)
      end
  end.

(** The object that [activateTab], [openURL] and [switchToURL] return. *)
Record result_obj := {
  r_success : bool;
  r_error : option jsstring;
  r_tabId : option jsval;
  r_action : option jsstring;
  r_tab : option tab
}.

Definition activateTab (c : Chrome) (tabId windowId : jsval) : result_obj :=
  match tabs_update c tabId with
  | inr e => {| r_success := false; r_error := Some e; r_tabId := None;
                r_action := None; r_tab := None |}
  | inl _ =>
      match windows_update c windowId with
      | inr e => {| r_success := false; r_error := Some e; r_tabId := None;
                    r_action := None; r_tab := None |}
      | inl _ => {| r_success := true; r_error := None; r_tabId := None;
                    r_action := None; r_tab := None |}
      end
  end.

Definition openURL (c : Chrome) (u : jsval) : result_obj :=
  match tabs_create c u with
  | inl newId => {| r_success := true; r_error := None; r_tabId := Some newId;
                    r_action := None; r_tab := None |}
  | inr e => {| r_success := false; r_error := Some e; r_tabId := None;
                r_action := None; r_tab := None |}
  end.

Definition switchToURL (c : Chrome) (u : jsval) : option result_obj :=
  match findTabByURL c u with
  | None => None
  | Some (Some existingTab) =>
      let result := activateTab c (id existingTab) (windowId existingTab) in
      Some {| r_success := r_success result; r_error := r_error result;
              r_tabId := r_tabId result;
              r_action := Some (js "activated"); r_tab := Some existingTab |}
  | Some None =>
      let result := openURL c u in
      Some {| r_success := r_success result; r_error := r_error result;
              r_tabId := r_tabId result;
              r_action := Some (js "opened"); r_tab := r_tab result |}
  end.

(** ** Connection to the plugin *)

(** A request envelope as the plugin sends it. *)
Record message := {
  m_id : jsval;
  m_action : jsval;
  m_url : jsval;
  m_tabId : jsval;
  m_windowId : jsval
}.

Inductive result_val :=
| RString (s : jsstring)
| RObject (o : result_obj).

(** A response envelope: each field is present ([Some]) or not. *)
Record response := {
  resp_id : jsval;
  resp_tabs : option (list tab);
  resp_result : option result_val;
  resp_error : option jsstring
}.

(** What goes over the socket: a response, or the keep-alive ping. *)
Inductive outgoing :=
| OutResponse (r : response)
| OutPing.

(** The module-level variables: [websocket] with the [readyState] of the
    socket it refers to, and what has been written to that socket. *)
Record state := {
  websocket : option ReadyState;
  sent : list outgoing
}.

Definition sendToPlugin (st : state) (m : outgoing) : state :=
  match websocket st with
  | Some OPEN => {| websocket := websocket st; sent := sent st ++ [m] |}
  | _ => st
  end.



End Background.

(* ===================================================================== *)
(** * plugin.js, class ExtensionServer                                    *)
(* ===================================================================== *)

Module ExtensionServer.

(** Objects are known by their identity: a socket accepted by the server,
    and the promise a call of [sendToExtension] returns. *)
Abbreviation sock := nat.
Abbreviation promise := nat.

(** An envelope received from the extension, after [JSON.parse]: the fields
    the server reads, and the rest of the response. *)
Record message := {
  m_action : jsval;
  m_id : jsval;
  m_error : jsval;
  m_result : jsval;
  m_tabs : jsval
}.

(** The [data] argument of [sendToExtension]. *)
Record payload := {
  p_url : jsval;
  p_tabId : jsval;
  p_windowId : jsval
}.

(** What the server writes to a socket: [{ id, action, ...data }] ([data]
    has no [id] or [action] of its own to put in their place), or the
    untracked [{ action: 'pong' }]. *)
Inductive wire :=
| WRequest (id : N) (action : jsstring) (data : payload)
| WPong.

(** A call of one of the two functions of a promise: [resolve(message)], or
    [reject(new Error(text))]. *)
Inductive settlement :=
| Resolve (m : message)
| Reject (text : jsstring).

(** An entry of [pendingRequests]: [{ resolve, reject, timestamp }], where
    [resolve] and [reject] belong to the promise [cont]. *)
Record pending := {
  cont : promise;
  timestamp : Z
}.

(** The closure given to [setTimeout(..., 10000)]: it holds [id] and
    [reject]. *)
Record timer := {
  t_id : N;
  t_reject : promise;
  t_delay : Z
}.

Inductive log_entry :=
| LogAlreadyStarted
| LogListening
| LogConnected
| LogClosingPrevious
| LogDisconnected (code : Z)
| LogPing
| LogFromExtension (m : message)
| LogRequestFailed (text : jsstring)
| LogRequestCompleted (duration : Z)
| LogToExtension (w : wire).

(** The fields of the [ExtensionServer] object ([wss] is [null] or the
    server created by [start], numbered in order of creation; [servers]
    counts the [WebSocket.Server] objects created so far), followed by what
    lives outside it: the sockets with their [readyState], what was written
    to them, the armed timers, the calls made to the continuations, the
    invocations of the [onConnectionChange] callback and the log. *)
Record state := {
  wss : option nat;
  servers : nat;
  extensionSocket : option sock;
  pendingRequests : gmap N pending;
  requestId : N;
  started : bool;
  onConnectionChange : bool;
  readyState : gmap sock ReadyState;
  written : list (sock * wire);
  timers : list timer;
  calls : list (promise * settlement);
  nextPromise : promise;
  notified : list bool;
  logged : list log_entry
}.

(** [new ExtensionServer()] in a fresh process. *)
Definition init : state := {|
  wss := None;
  servers := 0%nat;
  extensionSocket := None;
  pendingRequests := ∅;
  requestId := 0;
  started := false;
  onConnectionChange := false;
  readyState := ∅;
  written := [];
  timers := [];
  calls := [];
  nextPromise := 0%nat;
  notified := [];
  logged := []
|}.

Definition log (e : log_entry) (st : state) : state :=
  {| wss := wss st; servers := servers st; extensionSocket := extensionSocket st;
     pendingRequests := pendingRequests st; requestId := requestId st;
     started := started st; onConnectionChange := onConnectionChange st;
     readyState := readyState st; written := written st; timers := timers st;
     calls := calls st; nextPromise := nextPromise st; notified := notified st;
     logged := logged st ++ [e] |}.

(** [this.wss = new WebSocket.Server({ port: WS_PORT }); this.started = true] *)
Definition listen (st : state) : state :=
  {| wss := Some (servers st); servers := S (servers st);
     extensionSocket := extensionSocket st;
     pendingRequests := pendingRequests st; requestId := requestId st;
     started := true; onConnectionChange := onConnectionChange st;
     readyState := readyState st; written := written st; timers := timers st;
     calls := calls st; nextPromise := nextPromise st; notified := notified st;
     logged := logged st |}.

Definition set_extensionSocket (ws : option sock) (st : state) : state :=
  {| wss := wss st; servers := servers st; extensionSocket := ws;
     pendingRequests := pendingRequests st; requestId := requestId st;
     started := started st; onConnectionChange := onConnectionChange st;
     readyState := readyState st; written := written st; timers := timers st;
     calls := calls st; nextPromise := nextPromise st; notified := notified st;
     logged := logged st |}.

Definition set_pendingRequests (m : gmap N pending) (st : state) : state :=
  {| wss := wss st; servers := servers st; extensionSocket := extensionSocket st;
     pendingRequests := m; requestId := requestId st;
     started := started st; onConnectionChange := onConnectionChange st;
     readyState := readyState st; written := written st; timers := timers st;
     calls := calls st; nextPromise := nextPromise st; notified := notified st;
     logged := logged st |}.

Definition set_requestId (n : N) (st : state) : state :=
  {| wss := wss st; servers := servers st; extensionSocket := extensionSocket st;
     pendingRequests := pendingRequests st; requestId := n;
     started := started st; onConnectionChange := onConnectionChange st;
     readyState := readyState st; written := written st; timers := timers st;
     calls := calls st; nextPromise := nextPromise st; notified := notified st;
     logged := logged st |}.

Definition set_onConnectionChange (b : bool) (st : state) : state :=
  {| wss := wss st; servers := servers st; extensionSocket := extensionSocket st;
     pendingRequests := pendingRequests st; requestId := requestId st;
     started := started st; onConnectionChange := b;
     readyState := readyState st; written := written st; timers := timers st;
     calls := calls st; nextPromise := nextPromise st; notified := notified st;
     logged := logged st |}.

Definition set_readyState (ws : sock) (rs : ReadyState) (st : state) : state :=
  {| wss := wss st; servers := servers st; extensionSocket := extensionSocket st;
     pendingRequests := pendingRequests st; requestId := requestId st;
     started := started st; onConnectionChange := onConnectionChange st;
     readyState := <[ws := rs]> (readyState st); written := written st;
     timers := timers st; calls := calls st; nextPromise := nextPromise st;
     notified := notified st; logged := logged st |}.

Definition write (ws : sock) (w : wire) (st : state) : state :=
  {| wss := wss st; servers := servers st; extensionSocket := extensionSocket st;
     pendingRequests := pendingRequests st; requestId := requestId st;
     started := started st; onConnectionChange := onConnectionChange st;
     readyState := readyState st; written := written st ++ [(ws, w)];
     timers := timers st; calls := calls st; nextPromise := nextPromise st;
     notified := notified st; logged := logged st |}.

Definition set_timers (ts : list timer) (st : state) : state :=
  {| wss := wss st; servers := servers st; extensionSocket := extensionSocket st;
     pendingRequests := pendingRequests st; requestId := requestId st;
     started := started st; onConnectionChange := onConnectionChange st;
     readyState := readyState st; written := written st; timers := ts;
     calls := calls st; nextPromise := nextPromise st; notified := notified st;
     logged := logged st |}.

Definition call (p : promise) (s : settlement) (st : state) : state :=
  {| wss := wss st; servers := servers st; extensionSocket := extensionSocket st;
     pendingRequests := pendingRequests st; requestId := requestId st;
     started := started st; onConnectionChange := onConnectionChange st;
     readyState := readyState st; written := written st; timers := timers st;
     calls := calls st ++ [(p, s)]; nextPromise := nextPromise st;
     notified := notified st; logged := logged st |}.

Definition new_promise (st : state) : state :=
  {| wss := wss st; servers := servers st; extensionSocket := extensionSocket st;
     pendingRequests := pendingRequests st; requestId := requestId st;
     started := started st; onConnectionChange := onConnectionChange st;
     readyState := readyState st; written := written st; timers := timers st;
     calls := calls st; nextPromise := S (nextPromise st);
     notified := notified st; logged := logged st |}.

(** [if (this.onConnectionChange) this.onConnectionChange(connected)] *)
Definition notify (connected : bool) (st : state) : state :=
  if onConnectionChange st then
    {| wss := wss st; servers := servers st; extensionSocket := extensionSocket st;
       pendingRequests := pendingRequests st; requestId := requestId st;
       started := started st; onConnectionChange := onConnectionChange st;
       readyState := readyState st; written := written st; timers := timers st;
       calls := calls st; nextPromise := nextPromise st;
       notified := notified st ++ [connected]; logged := logged st |}
  else st.

(** [start()].  [new WebSocket.Server] reports a failed bind through the
    server's [error] event, not by throwing, so the [try] body runs to its
    end. *)
Definition start (st : state) : state :=
  if started st then log LogAlreadyStarted st
  else log LogListening (listen st).

Definition isConnected (st : state) : bool :=
  match extensionSocket st with
  | None => false
  | Some ws => bool_decide (readyState st !! ws = Some OPEN)
  end.

(** The handler of the server's [connection] event, for the new socket
    [ws] (open when the event is delivered). *)
Definition on_connection (ws : sock) (st : state) : state :=
  let st := set_readyState ws OPEN st in
  let st := log LogConnected st in
  let st :=
    match extensionSocket st with
    | Some old =>
        if bool_decide (readyState st !! old = Some OPEN)
        then set_readyState old CLOSING (log LogClosingPrevious st)
        else st
    | None => st
    end in
  let st := set_extensionSocket (Some ws) st in
  notify true st.

(** The handler of a socket's [close] event. *)
Definition on_close (ws : sock) (code : Z) (st : state) : state :=
  let st := set_readyState ws CLOSED st in
  let st := log (LogDisconnected code) st in
  if bool_decide (extensionSocket st = Some ws)
  then notify false (set_extensionSocket None st)
  else st.

Definition sendRawToExtension (w : wire) (st : state) : state :=
  match extensionSocket st with
  | Some ws => if isConnected st then write ws w st else st
  | None => st
  end.

(** [this.pendingRequests.get(key)] for a key read from a message: the keys
    of the table are numbers. *)
Definition get_pending (key : jsval) (st : state) : option (N * pending) :=
  match key with
  | JNum z =>
      if (0 <=? z)%Z
      then (λ p, (Z.to_N z, p)) <$> pendingRequests st !! Z.to_N z
      else None
  | _ => None
  end.

Definition handleExtensionMessage (now : Z) (m : message) (st : state) : state :=
  if strict_eq_str (m_action m) (js "ping") then
    sendRawToExtension WPong (log LogPing st)
  else
    let st := log (LogFromExtension m) st in
    match get_pending (m_id m) st with
    | Some (id, pending) =>
        let duration := (now - timestamp pending)%Z in
        let st := set_pendingRequests (delete id (pendingRequests st)) st in
        if truthy (m_error m) then
          call (cont pending) (Reject (to_string (m_error m)))
               (log (LogRequestFailed (to_string (m_error m))) st)
        else
          call (cont pending) (Resolve m) (log (LogRequestCompleted duration) st)
    | None => st
    end.

(** [sendToExtension(action, data)]: the state after the call, and the
    promise returned.  [send] on a socket whose [readyState] is [OPEN] does
    not throw, so the executor runs to its end. *)
Definition sendToExtension (now : Z) (action : jsstring) (data : payload)
    (st : state) : state * promise :=
  let p := nextPromise st in
  let st := new_promise st in
  match extensionSocket st with
  | Some ws =>
      if isConnected st then
        let id := pre_incr (requestId st) in
        let st := set_requestId id st in
        let st := set_pendingRequests
                    (<[id := {| cont := p; timestamp := now |}]> (pendingRequests st)) st in
        let message := WRequest id action data in
        let st := log (LogToExtension message) st in
        let st := write ws message st in
        let st := set_timers
                    (timers st ++ [{| t_id := id; t_reject := p; t_delay := 10000 |}]) st in
        (st, p)
      else (call p (Reject (js "Chrome extension not connected")) st, p)
  | None => (call p (Reject (js "Chrome extension not connected")) st, p)
  end.

(** The body of the timer armed by [sendToExtension]. *)
Definition timeout (t : timer) (st : state) : state :=
  if bool_decide (is_Some (pendingRequests st !! t_id t)) then
    call (t_reject t) (Reject (js "Request timeout"))
         (set_pendingRequests (delete (t_id t) (pendingRequests st)) st)
  else st.

(** What can happen to the server: calls from the plugin, events of the
    socket library, and timers coming due, in any order.  [Message] is a
    [message] event whose data parsed to an object; when parsing or the
    handler throws, the [catch] only logs. *)
Inductive event :=
| Start
| SetCallback
| Connection (ws : sock)
| Message (now : Z) (m : message)
| Close (ws : sock) (code : Z)
| ReadyStateChange (ws : sock) (rs : ReadyState)
| Send (now : Z) (action : jsstring) (data : payload)
| TimerFires (k : nat).

Definition step (st : state) (e : event) : state :=
  match e with
  | Start => start st
  | SetCallback => set_onConnectionChange true st
  | Connection ws => on_connection ws st
  | Message now m => handleExtensionMessage now m st
  | Close ws code => on_close ws code st
  | ReadyStateChange ws rs => set_readyState ws rs st
  | Send now action data => (sendToExtension now action data st).1
  | TimerFires k =>
      match timers st !! k with
      | Some t => timeout t (set_timers (delete k (timers st)) st)
      | None => st
      end
  end.

Definition run (tr : list event) : state := foldl step init tr.

(** How often a continuation of promise [p] has been called. *)
Definition settled (p : promise) (st : state) : nat :=
  length (filter (λ c, c.1 = p) (calls st)).

End ExtensionServer.

(* ===================================================================== *)
(** * plugin.js, class URLSwitcherPlugin                                  *)
(* ===================================================================== *)

Module URLSwitcherPlugin.

(** The settings of a button; [{}] has neither field. *)
Record settings := {
  url : jsval;
  title : jsval
}.

Definition empty_settings : settings := {| url := JUndefined; title := JUndefined |}.

(** The payloads [setTitle] and [setState] send to the Stream Deck. *)
Inductive sd_event :=
| SetTitle (context : jsstring) (title : jsval)
| SetState (context : jsstring) (n : Z).

Record state := {
  websocket : option ReadyState;
  actionSettings : gmap jsstring settings;
  sent : list sd_event
}.

Definition send (payload : sd_event) (st : state) : state :=
  match websocket st with
  | Some OPEN => {| websocket := websocket st;
                    actionSettings := actionSettings st;
                    sent := sent st ++ [payload] |}
  | _ => st
  end.

Definition setTitle (context : jsstring) (title : jsval) (st : state) : state :=
  send (SetTitle context title) st.

Definition setState (context : jsstring) (n : Z) (st : state) : state :=
  send (SetState context n) st.

(** [s.split(sep)] for a separator of one code unit. *)
Fixpoint split (sep : N) (s : jsstring) : list jsstring :=
  match s with
  | [] => [[]]
  | c :: r =>
      if c =? sep then [] :: split sep r
      else match split sep r with
           | piece :: pieces => (c :: piece) :: pieces
           | [] => [[c]]
           end
  end.

(** U+2026, the character appended to a shortened snippet. *)
Definition ellipsis : jsstring := [8230].

(** [getURLSnippet(url)].  A truthy value that is not a string has no
    [replace] method: the [catch] returns ['']. *)
Definition getURLSnippet (url : jsval) : jsstring :=
  if negb (truthy url) then []
  else match url with
       | JStr s =>
           let display := replace_protocol s in
           let display := replace_www display in
           let display := hd [] (split 47 display) in
           if 12 <? N.of_nat (length display)
           then take 10 display ++ ellipsis
           else display
       | _ => []
       end.

(** U+26A0 U+FE0F, a line feed, and [No Browser]. *)
Definition disconnected_indicator : jsstring := [9888; 65039; 10] ++ js "No Browser".

Definition updateButtonState (context : jsstring) (connected : bool)
    (st : state) : state :=
  let settings := default empty_settings (actionSettings st !! context) in
  if connected then
    let title := if truthy (title settings) then title settings
                 else JStr (getURLSnippet (url settings)) in
    setState context 0 (setTitle context title st)
  else
    setState context 0 (setTitle context (JStr disconnected_indicator) st).

End URLSwitcherPlugin.

(* ===================================================================== *)
(** * native-host.js, the length-prefixed messages of the browser          *)
(* ===================================================================== *)

Module Framing.

(** A [Buffer] is a sequence of bytes. *)
Abbreviation buffer := (list Byte.byte).

#[global] Instance byte_eq_dec : EqDecision Byte.byte.
Proof.
  intros x y. destruct (Byte.eqb x y) eqn:E.
  - left. by apply Byte.byte_dec_bl.
  - right. by apply Byte.eqb_false.
Defined.

(** The low eight bits of a number. *)
Definition low_byte (n : N) : Byte.byte :=
  default Byte.x00 (Byte.of_N (n mod 256)).

(** [buffer.readUInt32LE(0)], for a buffer of at least four bytes. *)
Definition readUInt32LE (b : buffer) : option N :=
  match b with
  | b0 :: b1 :: b2 :: b3 :: _ =>
      Some (Byte.to_N b0 + 2 ^ 8 * Byte.to_N b1 + 2 ^ 16 * Byte.to_N b2
            + 2 ^ 24 * Byte.to_N b3)
  | _ => None
  end.

(** The four bytes [buffer.writeUInt32LE(n, 0)] stores; a value that does
    not fit 32 bits makes it throw ([None]). *)
Definition writeUInt32LE (n : N) : option buffer :=
  if n <? 2 ^ 32
  then Some [low_byte n; low_byte (n / 2 ^ 8); low_byte (n / 2 ^ 16);
             low_byte (n / 2 ^ 24)]
  else None.

(** ** Writing *)

Definition high_surrogate (c : N) : bool := (55296 <=? c) && (c <? 56320).
Definition low_surrogate (c : N) : bool := (56320 <=? c) && (c <? 57344).

(** U+FFFD in UTF-8, written for a surrogate without its other half. *)
Definition replacement : buffer := [low_byte 239; low_byte 191; low_byte 189].

Definition utf8_3 (c : N) : buffer :=
  [low_byte (224 + c / 4096); low_byte (128 + (c / 64) mod 64);
   low_byte (128 + c mod 64)].

(** The UTF-8 bytes of a string, character by character. *)
Fixpoint utf8_chars (s : jsstring) : list buffer :=
  match s with
  | [] => []
  | c :: r =>
      if c <? 128 then [low_byte c] :: utf8_chars r
      else if c <? 2048 then
        [low_byte (192 + c / 64); low_byte (128 + c mod 64)] :: utf8_chars r
      else if high_surrogate c then
        match r with
        | d :: r' =>
            if low_surrogate d then
              let p := 65536 + (c - 55296) * 1024 + (d - 56320) in
              [low_byte (240 + p / 262144); low_byte (128 + (p / 4096) mod 64);
               low_byte (128 + (p / 64) mod 64); low_byte (128 + p mod 64)]
                :: utf8_chars r'
            else replacement :: utf8_chars r
        | [] => [replacement]
        end
      else if low_surrogate c then replacement :: utf8_chars r
      else utf8_3 c :: utf8_chars r
  end.

(** [Buffer.from(s, 'utf8')] *)
Definition utf8 (s : jsstring) : buffer := concat (utf8_chars s).

(** [buffer.write(json, 4)] into the [room] bytes after the header: the
    characters that fit, whole; the first that does not fit ends the
    writing. *)
Fixpoint write_chars (room : nat) (chars : list buffer) : buffer :=
  match chars with
  | [] => []
  | ch :: rest =>
      if bool_decide (length ch ≤ room)%nat
      then ch ++ write_chars (room - length ch) rest
      else []
  end.

(** The bytes [writeNativeMessage] passes to [process.stdout.write], from
    the text [json] that [JSON.stringify(message)] returned: a zero-filled
    buffer of [4 + json.length] bytes, [json.length] stored in the first
    four, the text written from the fifth on. *)
Definition writeNativeMessage (json : jsstring) : option buffer :=
  match writeUInt32LE (N.of_nat (length json)) with
  | None => None
  | Some header =>
      let written := write_chars (length json) (utf8_chars json) in
      Some (header ++ written ++ replicate (length json - length written) Byte.x00)
  end.

(** ** Reading *)

(** What a call of [readNativeMessage] ends with: [null], the exception of
    [JSON.parse], or [{ message, bytesRead }]. *)
Inductive read_result (A : Type) :=
| Incomplete
| Malformed
| Frame (message : A) (bytesRead : nat).
Arguments Incomplete {A}.
Arguments Malformed {A}.
Arguments Frame {A} message bytesRead.

Section Reading.
(** [parse] stands for [JSON.parse(bytes.toString('utf8'))]; [None] is its
    [SyntaxError]. *)
Context {A : Type} (parse : buffer → option A).

Definition readNativeMessage (b : buffer) : read_result A :=
  match readUInt32LE b with
  | None => Incomplete
  | Some len =>
      if bool_decide (N.of_nat (length b) < 4 + len) then Incomplete
      else match parse (take (N.to_nat len) (drop 4 b)) with
           | Some message => Frame message (4 + N.to_nat len)
           | None => Malformed
           end
  end.



End Reading.

End Framing.

(* ===================================================================== *)
(** * native-host/native-host.js                                           *)
(* ===================================================================== *)

Module NativeHost.
Import Framing.

Abbreviation sock := nat.

(** A request received from the Stream Deck side. *)
Record request := {
  q_id : jsval;
  q_action : jsval;
  q_url : jsval;
  q_tabId : jsval;
  q_windowId : jsval
}.

(** The object literal [handleStreamDeckMessage] gives to
    [writeNativeMessage]. *)
Record native_message := {
  n_id : N;
  n_action : jsval;
  n_url : jsval;
  n_tabId : jsval;
  n_windowId : jsval
}.

(** A message read from the browser; a missing field is [JUndefined]. *)
Record message := {
  m_id : jsval;
  m_result : jsval;
  m_error : jsval;
  m_tabs : jsval
}.

(** An entry of [pendingRequests]: [{ ws, originalId, timestamp }]. *)
Record pending := {
  ws : sock;
  originalId : jsval;
  timestamp : Z
}.

Inductive log_entry :=
| LogUnknownId (id : jsval)
| LogSocketClosed
| LogCleaned (cleaned : N).

(** The module-level variables, the [readyState] of the client sockets,
    and what has left the process: the buffers given to
    [process.stdout.write], the messages sent to the clients, the log. *)
Record state := {
  pendingRequests : gmap N pending;
  requestId : N;
  readyState : gmap sock ReadyState;
  stdout : list buffer;
  ws_sent : list (sock * message);
  logged : list log_entry
}.

(** [handleStreamDeckMessage(ws, message)] for a message that is not
    [null]; [stringify] stands for [JSON.stringify] on the object literal.
    The buffer of [writeNativeMessage] goes to [process.stdout]; should
    [writeUInt32LE] throw, nothing is written and the [catch] of the
    [message] handler only logs. *)
Definition handleStreamDeckMessage (stringify : native_message → jsstring)
    (client : sock) (now : Z) (q : request) (st : state) : state :=
  let id := pre_incr (requestId st) in
  let message := {| n_id := id; n_action := q_action q; n_url := q_url q;
                    n_tabId := q_tabId q; n_windowId := q_windowId q |} in
  {| pendingRequests :=
       <[id := {| ws := client; originalId := q_id q; timestamp := now |}]>
         (pendingRequests st);
     requestId := id;
     readyState := readyState st;
     stdout := stdout st ++ option_list (writeNativeMessage (stringify message));
     ws_sent := ws_sent st;
     logged := logged st |}.

Definition get_pending (key : jsval) (st : state) : option (N * pending) :=
  match key with
  | JNum z =>
      if (0 <=? z)%Z
      then (λ p, (Z.to_N z, p)) <$> pendingRequests st !! Z.to_N z
      else None
  | _ => None
  end.

(** [{ id: originalId, ...message }]: an [id] of the message itself comes
    later in the literal and wins. *)
Definition spread_response (originalId : jsval) (m : message) : message :=
  {| m_id := match m_id m with JUndefined => originalId | v => v end;
     m_result := m_result m; m_error := m_error m; m_tabs := m_tabs m |}.

Definition handleChromeMessage (m : message) (st : state) : state :=
  match get_pending (m_id m) st with
  | Some (id, pending) =>
      let table := delete id (pendingRequests st) in
      let response := spread_response (originalId pending) m in
      if bool_decide (readyState st !! ws pending = Some OPEN) then
        {| pendingRequests := table; requestId := requestId st;
           readyState := readyState st; stdout := stdout st;
           ws_sent := ws_sent st ++ [(ws pending, response)];
           logged := logged st |}
      else
        {| pendingRequests := table; requestId := requestId st;
           readyState := readyState st; stdout := stdout st;
           ws_sent := ws_sent st; logged := logged st ++ [LogSocketClosed] |}
  | None =>
      {| pendingRequests := pendingRequests st; requestId := requestId st;
         readyState := readyState st; stdout := stdout st;
         ws_sent := ws_sent st; logged := logged st ++ [LogUnknownId (m_id m)] |}
  end.

(** One turn of the loop in the 30-second interval callback, on the entry
    [(id, pending)]: the table and the counter [cleaned]. *)
Definition sweep_entry (now : Z) (id : N) (p : pending)
    (acc : gmap N pending * N) : gmap N pending * N :=
  if bool_decide (now - timestamp p > 30000)%Z
  then (delete id acc.1, acc.2 + 1)
  else acc.

(** The callback of [setInterval(..., 30000)]: every entry that was in the
    table is visited once. *)
Definition sweep (now : Z) (st : state) : state :=
  let '(table, cleaned) :=
    map_fold (sweep_entry now) (pendingRequests st, 0) (pendingRequests st) in
  {| pendingRequests := table; requestId := requestId st;
     readyState := readyState st; stdout := stdout st; ws_sent := ws_sent st;
     logged := if 0 <? cleaned then logged st ++ [LogCleaned cleaned]
               else logged st |}.

(** ** The text of [JSON.stringify] *)

Definition hex_digit (n : N) : N := if n <? 10 then 48 + n else 87 + n.

(** [\uXXXX] *)
Definition unicode_escape (c : N) : jsstring :=
  [92; 117; hex_digit (c / 4096); hex_digit ((c / 256) mod 16);
   hex_digit ((c / 16) mod 16); hex_digit (c mod 16)].

(** The characters of a string between the quotes of its JSON text: the
    quote, the backslash and the control characters are escaped, and so is
    a surrogate without its other half. *)
Fixpoint quote_units (s : jsstring) : jsstring :=
  match s with
  | [] => []
  | c :: r =>
      if c =? 34 then [92; 34] ++ quote_units r
      else if c =? 92 then [92; 92] ++ quote_units r
      else if c =? 8 then [92; 98] ++ quote_units r
      else if c =? 9 then [92; 116] ++ quote_units r
      else if c =? 10 then [92; 110] ++ quote_units r
      else if c =? 12 then [92; 102] ++ quote_units r
      else if c =? 13 then [92; 114] ++ quote_units r
      else if c <? 32 then unicode_escape c ++ quote_units r
      else if high_surrogate c then
        match r with
        | d :: r' =>
            if low_surrogate d then c :: d :: quote_units r'
            else unicode_escape c ++ quote_units r
        | [] => unicode_escape c
        end
      else if low_surrogate c then unicode_escape c ++ quote_units r
      else c :: quote_units r
  end.

Definition quote (s : jsstring) : jsstring := [34] ++ quote_units s ++ [34].

(** The JSON text of a value that is a string, an integer, a boolean or
    [null]; [undefined] has none, and its property is left out.  The text
    of any other value (an object, an array) is not known from [JOther],
    whose [repr] is put in its place. *)
Definition value_text (v : jsval) : option jsstring :=
  match v with
  | JUndefined => None
  | JStr s => Some (quote s)
  | JOther repr => Some repr
  | v => Some (to_string v)
  end.

Definition member (name : string) (v : jsval) : list jsstring :=
  match value_text v with
  | Some text => [quote (js name) ++ [58] ++ text]
  | None => []
  end.

Fixpoint join (sep : jsstring) (l : list jsstring) : jsstring :=
  match l with
  | [] => []
  | [x] => x
  | x :: r => x ++ sep ++ join sep r
  end.

(** [JSON.stringify] on the object literal of [handleStreamDeckMessage],
    whose properties are values of the kinds above. *)
Definition plain_json (m : native_message) : jsstring :=
  [123] ++ join [44] (member "id" (JNum (Z.of_N (n_id m)))
                      ++ member "action" (n_action m)
                      ++ member "url" (n_url m)
                      ++ member "tabId" (n_tabId m)
                      ++ member "windowId" (n_windowId m)) ++ [125].

End NativeHost.


(* ===================================================================== *)
(** * native-host.js, the events of the process                            *)
(* ===================================================================== *)

Module NativeHostEvents.
Import Framing NativeHost.

(** The module-level variables when the process starts. *)
Definition init : state :=
  {| pendingRequests := ∅; requestId := 0; readyState := ∅; stdout := [];
     ws_sent := []; logged := [] |}.

(** ** The [data] handler of [process.stdin] *)

Section Stdin.
(** [parse] stands for [JSON.parse(bytes.toString('utf8'))]: [None] is its
    [SyntaxError], [Some None] the value [null], and [Some (Some m)] any
    other value, whose properties [handleChromeMessage] reads (a property
    it does not have is [undefined]). *)
Context (parse : buffer → option (option message)).

(** The [while (true)] loop on [inputBuffer] and the state of the host.
    The exception of [JSON.parse] leaves the loop with the frame still in
    the buffer.  A frame that is whole is taken off the buffer and its
    message handed to [handleChromeMessage], which throws at [message.id]
    when the message is [null]: that, too, leaves the loop, with the frame
    gone and what follows it not looked at.  Every turn takes at least four
    bytes off the buffer, so [fuel] above its length is never used up. *)
Fixpoint data_loop (fuel : nat) (b : buffer) (st : state) : buffer * state :=
  match fuel with
  | O => (b, st)
  | S fuel' =>
      match readNativeMessage parse b with
      | Incomplete => (b, st)
      | Malformed => (b, st)
      | Frame None bytesRead => (drop bytesRead b, st)
      | Frame (Some m) bytesRead =>
          data_loop fuel' (drop bytesRead b) (handleChromeMessage m st)
      end
  end.

(** The handler for a chunk: [inputBuffer] and the state of the host
    before and after. *)
Definition on_data (chunk : buffer) (s : buffer * state) : buffer * state :=
  data_loop (S (length (s.1 ++ chunk))) (s.1 ++ chunk) s.2.

End Stdin.

(** ** The events *)

Section Events.
Context (stringify : native_message → jsstring).

(** A message of a Stream Deck client (one that is not [null]: for [null],
    and for data that does not parse, the handler throws at once and its
    [catch] only logs), a message of the browser that is not [null], a tick
    of the 30-second interval, or a socket changing its [readyState]. *)
Inductive event :=
| FromStreamDeck (client : sock) (now : Z) (q : request)
| FromChrome (m : message)
| Sweep (now : Z)
| ReadyStateChange (client : sock) (rs : ReadyState).

Definition step (st : state) (e : event) : state :=
  match e with
  | FromStreamDeck client now q => handleStreamDeckMessage stringify client now q st
  | FromChrome m => handleChromeMessage m st
  | Sweep now => sweep now st
  | ReadyStateChange client rs =>
      {| pendingRequests := pendingRequests st; requestId := requestId st;
         readyState := <[client := rs]> (readyState st); stdout := stdout st;
         ws_sent := ws_sent st; logged := logged st |}
  end.

Definition run (tr : list event) : state := foldl step init tr.

End Events.

End NativeHostEvents.

(* ===================================================================== *)
(** * background.js, the connection to the plugin                          *)
(* ===================================================================== *)

Module Dialer.
Import Background.

Abbreviation sock := nat.

(** The three module-level variables ([websocket] refers to a socket
    object; a timer identifier is a positive number), followed by what
    lives outside them: the [readyState] of the sockets created so far, the
    timers armed by [setTimeout] and by [setInterval] that have neither
    fired nor been cleared, the next identifiers, and what was written to
    the sockets. *)
Record state := {
  websocket : option sock;
  reconnectTimer : option positive;
  keepAliveTimer : option positive;
  readyState : gmap sock ReadyState;
  timeouts : list positive;
  intervals : list positive;
  next_timer : positive;
  next_socket : sock;
  written : list (sock * outgoing)
}.

(** The variables when the script starts. *)
Definition fresh : state :=
  {| websocket := None; reconnectTimer := None; keepAliveTimer := None;
     readyState := ∅; timeouts := []; intervals := []; next_timer := 1%positive;
     next_socket := 0%nat; written := [] |}.

(** [websocket && websocket.readyState === WebSocket.OPEN] *)
Definition is_open (st : state) : bool :=
  match websocket st with
  | Some s => bool_decide (readyState st !! s = Some OPEN)
  | None => false
  end.

Definition sendToPlugin (m : outgoing) (st : state) : state :=
  match websocket st with
  | Some s =>
      if is_open st then
        {| websocket := websocket st; reconnectTimer := reconnectTimer st;
           keepAliveTimer := keepAliveTimer st; readyState := readyState st;
           timeouts := timeouts st; intervals := intervals st;
           next_timer := next_timer st; next_socket := next_socket st;
           written := written st ++ [(s, m)] |}
      else st
  | None => st
  end.

Definition scheduleReconnect (st : state) : state :=
  match reconnectTimer st with
  | Some _ => st
  | None =>
      {| websocket := websocket st; reconnectTimer := Some (next_timer st);
         keepAliveTimer := keepAliveTimer st; readyState := readyState st;
         timeouts := timeouts st ++ [next_timer st]; intervals := intervals st;
         next_timer := Pos.succ (next_timer st); next_socket := next_socket st;
         written := written st |}
  end.

Definition clearReconnectTimer (st : state) : state :=
  match reconnectTimer st with
  | Some id =>
      {| websocket := websocket st; reconnectTimer := None;
         keepAliveTimer := keepAliveTimer st; readyState := readyState st;
         timeouts := filter (λ t, t ≠ id) (timeouts st);
         intervals := intervals st;
         next_timer := next_timer st; next_socket := next_socket st;
         written := written st |}
  | None => st
  end.

Definition stopKeepAlive (st : state) : state :=
  match keepAliveTimer st with
  | Some id =>
      {| websocket := websocket st; reconnectTimer := reconnectTimer st;
         keepAliveTimer := None; readyState := readyState st;
         timeouts := timeouts st;
         intervals := filter (λ t, t ≠ id) (intervals st);
         next_timer := next_timer st; next_socket := next_socket st;
         written := written st |}
  | None => st
  end.

Definition startKeepAlive (st : state) : state :=
  let st := stopKeepAlive st in
  {| websocket := websocket st; reconnectTimer := reconnectTimer st;
     keepAliveTimer := Some (next_timer st); readyState := readyState st;
     timeouts := timeouts st; intervals := intervals st ++ [next_timer st];
     next_timer := Pos.succ (next_timer st); next_socket := next_socket st;
     written := written st |}.

(** [connectWebSocket()]; [constructed] tells whether [new WebSocket(WS_URL)]
    returned a socket (in the state [CONNECTING]) or threw. *)
Definition connectWebSocket (constructed : bool) (st : state) : state :=
  if is_open st then st
  else if constructed then
    {| websocket := Some (next_socket st); reconnectTimer := reconnectTimer st;
       keepAliveTimer := keepAliveTimer st;
       readyState := <[next_socket st := CONNECTING]> (readyState st);
       timeouts := timeouts st; intervals := intervals st;
       next_timer := next_timer st; next_socket := S (next_socket st);
       written := written st |}
  else scheduleReconnect st.

Definition set_readyState (s : sock) (rs : ReadyState) (st : state) : state :=
  {| websocket := websocket st; reconnectTimer := reconnectTimer st;
     keepAliveTimer := keepAliveTimer st;
     readyState := <[s := rs]> (readyState st);
     timeouts := timeouts st; intervals := intervals st;
     next_timer := next_timer st; next_socket := next_socket st;
     written := written st |}.

(** [websocket.onopen] *)
Definition onopen (st : state) : state := startKeepAlive (clearReconnectTimer st).

(** [websocket.onclose] *)
Definition onclose (st : state) : state :=
  let st :=
    {| websocket := None; reconnectTimer := reconnectTimer st;
       keepAliveTimer := keepAliveTimer st; readyState := readyState st;
       timeouts := timeouts st; intervals := intervals st;
       next_timer := next_timer st; next_socket := next_socket st;
       written := written st |} in
  scheduleReconnect (stopKeepAlive st).

(** The callback of the reconnect timer. *)
Definition reconnect (constructed : bool) (st : state) : state :=
  connectWebSocket constructed
    {| websocket := websocket st; reconnectTimer := None;
       keepAliveTimer := keepAliveTimer st; readyState := readyState st;
       timeouts := timeouts st; intervals := intervals st;
       next_timer := next_timer st; next_socket := next_socket st;
       written := written st |}.

(** The callback of the keep-alive interval. *)
Definition keepAlive (st : state) : state :=
  if is_open st then sendToPlugin OutPing st else st.

(** What happens after the script has run: a socket created by
    [connectWebSocket] opens (it was [CONNECTING]), starts closing, closes
    (once) or reports an error; a message handler reaches its
    [sendToPlugin]; a timer that is armed fires. *)
Inductive event :=
| Opened (s : sock)
| Closing (s : sock)
| Closed (s : sock)
| Errored (s : sock)
| Replied (r : response)
| TimeoutFires (id : positive) (constructed : bool)
| IntervalFires (id : positive).

Definition step (st : state) (e : event) : state :=
  match e with
  | Opened s =>
      if bool_decide (readyState st !! s = Some CONNECTING)
      then onopen (set_readyState s OPEN st) else st
  | Closing s =>
      if bool_decide (readyState st !! s = Some OPEN)
      then set_readyState s CLOSING st else st
  | Closed s =>
      match readyState st !! s with
      | Some CLOSED | None => st
      | Some _ => onclose (set_readyState s CLOSED st)
      end
  | Errored s => st
  | Replied r => sendToPlugin (OutResponse r) st
  | TimeoutFires id constructed =>
      if bool_decide (id ∈ timeouts st) then
        reconnect constructed
          {| websocket := websocket st; reconnectTimer := reconnectTimer st;
             keepAliveTimer := keepAliveTimer st; readyState := readyState st;
             timeouts := filter (λ t, t ≠ id) (timeouts st);
             intervals := intervals st;
             next_timer := next_timer st; next_socket := next_socket st;
             written := written st |}
      else st
  | IntervalFires id =>
      if bool_decide (id ∈ intervals st) then keepAlive st else st
  end.

(** The script runs [connectWebSocket()] once, at its end; events follow. *)
Definition run (constructed : bool) (tr : list event) : state :=
  foldl step (connectWebSocket constructed fresh) tr.

End Dialer.

(* ===================================================================== *)
(** * plugin.js, the events of the Stream Deck                             *)
(* ===================================================================== *)

Module PluginEvents.
Import URLSwitcherPlugin.

Abbreviation promise := ExtensionServer.promise.

(** What [send] writes to the Stream Deck: the registration, a title or a
    state, [showOk], [showAlert], or the connection status for the
    property inspector (the value of [isConnected()], which is [null] or a
    boolean). *)
Inductive sd_payload :=
| Register
| Display (e : sd_event)
| ShowOk (context : jsstring)
| ShowAlert (context : jsstring)
| ToPropertyInspector (context : jsstring) (extensionConnected : jsval).

(** A message of the Stream Deck, after [JSON.parse]: its [event], its
    [context] (a string), and of its [payload] (an object) the [settings]
    (of a button, when there are any, or the global ones) and the
    [action]. *)
Record sd_message := {
  event : jsval;
  context : jsstring;
  settings_of : option settings;
  global_of : jsval;
  action_of : jsval
}.

(** A call of [switchToURL] suspended at its [await]. *)
Record suspended := {
  awaited : promise;
  for_url : jsval;
  for_context : jsstring
}.

(** The fields of the [URLSwitcherPlugin] object ([activeContexts] is a
    [Set]: its elements in order of insertion), what was sent to the Stream
    Deck, the suspended calls, and the extension server. *)
Record state := {
  websocket : option ReadyState;
  globalSettings : jsval;
  actionSettings : gmap jsstring settings;
  activeContexts : list jsstring;
  sent : list sd_payload;
  suspensions : list suspended;
  server : ExtensionServer.state
}.

Definition init : state :=
  {| websocket := None; globalSettings := JOther (js "[object Object]");
     actionSettings := ∅; activeContexts := []; sent := []; suspensions := [];
     server := ExtensionServer.init |}.

Definition send (payload : sd_payload) (st : state) : state :=
  match websocket st with
  | Some OPEN =>
      {| websocket := websocket st; globalSettings := globalSettings st;
         actionSettings := actionSettings st;
         activeContexts := activeContexts st; sent := sent st ++ [payload];
         suspensions := suspensions st; server := server st |}
  | _ => st
  end.

Definition showOk (context : jsstring) (st : state) : state :=
  send (ShowOk context) st.

Definition showAlert (context : jsstring) (st : state) : state :=
  send (ShowAlert context) st.

(** [updateButtonState] of [URLSwitcherPlugin], which only sends. *)
Definition updateButtonState (context : jsstring) (connected : bool)
    (st : state) : state :=
  let shown :=
    URLSwitcherPlugin.sent
      (URLSwitcherPlugin.updateButtonState context connected
         {| URLSwitcherPlugin.websocket := websocket st;
            URLSwitcherPlugin.actionSettings := actionSettings st;
            URLSwitcherPlugin.sent := [] |}) in
  {| websocket := websocket st; globalSettings := globalSettings st;
     actionSettings := actionSettings st; activeContexts := activeContexts st;
     sent := sent st ++ (Display <$> shown);
     suspensions := suspensions st; server := server st |}.

(** [for (const context of this.activeContexts)] *)
Definition onExtensionConnectionChange (connected : bool) (st : state) : state :=
  foldl (λ st context, updateButtonState context connected st) st
    (activeContexts st).

Definition set_server (srv : ExtensionServer.state) (st : state) : state :=
  {| websocket := websocket st; globalSettings := globalSettings st;
     actionSettings := actionSettings st; activeContexts := activeContexts st;
     sent := sent st; suspensions := suspensions st; server := srv |}.

(** An operation of the extension server, with the calls it makes to the
    [onConnectionChange] callback. *)
Definition with_server (f : ExtensionServer.state → ExtensionServer.state)
    (st : state) : state :=
  let srv := f (server st) in
  let reports := drop (length (ExtensionServer.notified (server st)))
                      (ExtensionServer.notified srv) in
  foldl (λ st connected, onExtensionConnectionChange connected st)
    (set_server srv st) reports.

Definition isConnected (st : state) : bool :=
  ExtensionServer.isConnected (server st).

(** The value [extensionServer.isConnected()] returns:
    [this.extensionSocket && ...] is [null] when no socket is held, and
    else the outcome of the comparison. *)
Definition isConnected_value (st : state) : jsval :=
  match ExtensionServer.extensionSocket (server st) with
  | None => JNull
  | Some _ => JBool (isConnected st)
  end.

(** [switchToURL(url, context)] up to its [await]. *)
Definition switchToURL (now : Z) (url : jsval) (context : jsstring)
    (st : state) : state :=
  let '(srv, p) :=
    ExtensionServer.sendToExtension now (js "switchToURL")
      {| ExtensionServer.p_url := url; ExtensionServer.p_tabId := JUndefined;
         ExtensionServer.p_windowId := JUndefined |} (server st) in
  {| websocket := websocket st; globalSettings := globalSettings st;
     actionSettings := actionSettings st; activeContexts := activeContexts st;
     sent := sent st;
     suspensions := suspensions st
                    ++ [{| awaited := p; for_url := url; for_context := context |}];
     server := srv |}.

(** The first call made to a continuation of the promise [p]: what the
    [await] on it gives. *)
Definition outcome (p : promise) (st : state)
  : option ExtensionServer.settlement :=
  snd <$> head (filter (λ c, c.1 = p) (ExtensionServer.calls (server st))).

(** [switchToURL] after its [await], for a promise that is settled;
    [success] is what reading [response.result.success] gives when
    [response.result] is an object. *)
Definition resume (s : suspended) (success : bool) (st : state) : state :=
  match outcome (awaited s) st with
  | Some (ExtensionServer.Resolve response) =>
      if truthy (ExtensionServer.m_result response)
         && match ExtensionServer.m_result response with
            | JOther _ => success
            | _ => false
            end
      then showOk (for_context s) st
      else showAlert (for_context s) st
  | Some (ExtensionServer.Reject _) => showAlert (for_context s) st
  | None => st
  end.

Definition onKeyDown (now : Z) (context : jsstring) (st : state) : state :=
  let settings := default empty_settings (actionSettings st !! context) in
  if negb (truthy (url settings)) then showAlert context st
  else switchToURL now (url settings) context st.

(** [this.activeContexts.add(context)] *)
Definition add_context (context : jsstring) (l : list jsstring) : list jsstring :=
  if bool_decide (context ∈ l) then l else l ++ [context].

Definition set_settings (context : jsstring) (s : option settings)
    (st : state) : state :=
  {| websocket := websocket st; globalSettings := globalSettings st;
     actionSettings := <[context := default empty_settings s]> (actionSettings st);
     activeContexts := activeContexts st; sent := sent st;
     suspensions := suspensions st; server := server st |}.

Definition onWillAppear (context : jsstring) (s : option settings)
    (st : state) : state :=
  let st := set_settings context s st in
  let st :=
    {| websocket := websocket st; globalSettings := globalSettings st;
       actionSettings := actionSettings st;
       activeContexts := add_context context (activeContexts st);
       sent := sent st; suspensions := suspensions st; server := server st |} in
  updateButtonState context (isConnected st) st.

Definition onWillDisappear (context : jsstring) (st : state) : state :=
  {| websocket := websocket st; globalSettings := globalSettings st;
     actionSettings := delete context (actionSettings st);
     activeContexts := filter (λ c, c ≠ context) (activeContexts st);
     sent := sent st; suspensions := suspensions st; server := server st |}.

Definition onDidReceiveSettings (context : jsstring) (s : option settings)
    (st : state) : state :=
  let st := set_settings context s st in
  updateButtonState context (isConnected st) st.

Definition onPropertyInspectorConnected (context : jsstring) (st : state) : state :=
  send (ToPropertyInspector context (isConnected_value st)) st.

Definition onSendToPlugin (context : jsstring) (action : jsval) (st : state) : state :=
  if strict_eq_str action (js "checkConnection")
  then send (ToPropertyInspector context (isConnected_value st)) st
  else st.

Definition handleStreamDeckMessage (now : Z) (m : sd_message) (st : state) : state :=
  if strict_eq_str (event m) (js "keyDown") then onKeyDown now (context m) st
  else if strict_eq_str (event m) (js "willAppear") then
    onWillAppear (context m) (settings_of m) st
  else if strict_eq_str (event m) (js "willDisappear") then
    onWillDisappear (context m) st
  else if strict_eq_str (event m) (js "didReceiveSettings") then
    onDidReceiveSettings (context m) (settings_of m) st
  else if strict_eq_str (event m) (js "didReceiveGlobalSettings") then
    {| websocket := websocket st;
       globalSettings := if truthy (global_of m) then global_of m
                         else JOther (js "[object Object]");
       actionSettings := actionSettings st; activeContexts := activeContexts st;
       sent := sent st; suspensions := suspensions st; server := server st |}
  else if strict_eq_str (event m) (js "propertyInspectorDidConnect") then
    onPropertyInspectorConnected (context m) st
  else if strict_eq_str (event m) (js "sendToPlugin") then
    onSendToPlugin (context m) (action_of m) st
  else st.

(** The [open] handler of the socket to the Stream Deck: register, install
    the callback, start the server. *)
Definition on_open (st : state) : state :=
  let st :=
    {| websocket := Some OPEN; globalSettings := globalSettings st;
       actionSettings := actionSettings st; activeContexts := activeContexts st;
       sent := sent st; suspensions := suspensions st; server := server st |} in
  let st := send Register st in
  with_server (λ srv, ExtensionServer.start
                        (ExtensionServer.set_onConnectionChange true srv)) st.

(** What happens to the plugin: the socket to the Stream Deck opens or
    changes state, the Stream Deck sends a message, something happens to
    the extension server, a suspended [switchToURL] runs on. *)
Inductive plugin_event :=
| SDOpen
| SDState (rs : ReadyState)
| SDMessage (now : Z) (m : sd_message)
| Server (e : ExtensionServer.event)
| Resume (k : nat) (success : bool).

Definition step (st : state) (e : plugin_event) : state :=
  match e with
  | SDOpen => on_open st
  | SDState rs =>
      {| websocket := Some rs; globalSettings := globalSettings st;
         actionSettings := actionSettings st; activeContexts := activeContexts st;
         sent := sent st; suspensions := suspensions st; server := server st |}
  | SDMessage now m => handleStreamDeckMessage now m st
  | Server e => with_server (λ srv, ExtensionServer.step srv e) st
  | Resume k success =>
      match suspensions st !! k with
      | Some s =>
          if bool_decide (is_Some (outcome (awaited s) st)) then
            resume s success
              {| websocket := websocket st; globalSettings := globalSettings st;
                 actionSettings := actionSettings st;
                 activeContexts := activeContexts st; sent := sent st;
                 suspensions := delete k (suspensions st); server := server st |}
          else st
      | None => st
      end
  end.

Definition run (tr : list plugin_event) : state := foldl step init tr.

End PluginEvents.

(* ===================================================================== *)
(** * plugin.js, the entry point                                           *)
(* ===================================================================== *)

Module EntryPoint.

(** The four cases of the [switch] over the arguments. *)
Inductive flag := Port | PluginUUID | RegisterEvent | Info.

#[global] Instance flag_eq_dec : EqDecision flag.
Proof. solve_decision. Defined.

Definition flag_text (f : flag) : jsstring :=
  match f with
  | Port => js "-port"
  | PluginUUID => js "-pluginUUID"
  | RegisterEvent => js "-registerEvent"
  | Info => js "-info"
  end.

(** The case an argument selects, if any. *)
Definition flag_of (arg : jsstring) : option flag :=
  if bool_decide (arg = js "-port") then Some Port
  else if bool_decide (arg = js "-pluginUUID") then Some PluginUUID
  else if bool_decide (arg = js "-registerEvent") then Some RegisterEvent
  else if bool_decide (arg = js "-info") then Some Info
  else None.

(** [let port, pluginUUID, registerEvent, info]: a variable that was not
    assigned is [undefined]. *)
Record params := {
  port : jsval;
  pluginUUID : jsval;
  registerEvent : jsval;
  info : jsval
}.

Definition unset : params :=
  {| port := JUndefined; pluginUUID := JUndefined; registerEvent := JUndefined;
     info := JUndefined |}.

Definition assign (f : flag) (v : jsval) (p : params) : params :=
  match f with
  | Port => {| port := v; pluginUUID := pluginUUID p;
               registerEvent := registerEvent p; info := info p |}
  | PluginUUID => {| port := port p; pluginUUID := v;
                     registerEvent := registerEvent p; info := info p |}
  | RegisterEvent => {| port := port p; pluginUUID := pluginUUID p;
                        registerEvent := v; info := info p |}
  | Info => {| port := port p; pluginUUID := pluginUUID p;
               registerEvent := registerEvent p; info := v |}
  end.

Definition get (f : flag) (p : params) : jsval :=
  match f with
  | Port => port p
  | PluginUUID => pluginUUID p
  | RegisterEvent => registerEvent p
  | Info => info p
  end.

(** The loop over [args], from index [i] on: a flag takes [args[++i]],
    which is [undefined] past the end, and the loop goes on after it; any
    other argument is passed over. *)
Fixpoint parse (args : list jsstring) (p : params) : params :=
  match args with
  | [] => p
  | arg :: rest =>
      match flag_of arg with
      | Some f =>
          match rest with
          | value :: rest' => parse rest' (assign f (JStr value) p)
          | [] => assign f JUndefined p
          end
      | None => parse rest p
      end
  end.

(** [port && pluginUUID && registerEvent && info] *)
Definition connects (p : params) : bool :=
  truthy (port p) && truthy (pluginUUID p) && truthy (registerEvent p)
  && truthy (info p).

(** The entry point for [process.argv]: the variables after the loop over
    [process.argv.slice(2)], and whether [connectToStreamDeck] is called. *)
Definition main (argv : list jsstring) : params * bool :=
  let p := parse (drop 2 argv) unset in (p, connects p).

End EntryPoint.

(* ===================================================================== *)
(** * popup.js, the switch button                                          *)
(* ===================================================================== *)

Module Popup.

(** The code units [String.prototype.trim] removes: white space and line
    terminators. *)
Definition white_space (c : N) : bool :=
  (9 <=? c) && (c <=? 13) || (c =? 32) || (c =? 160) || (c =? 5760)
  || (8192 <=? c) && (c <=? 8202) || (c =? 8232) || (c =? 8233)
  || (c =? 8239) || (c =? 8287) || (c =? 12288) || (c =? 65279).

Fixpoint trimStart (s : jsstring) : jsstring :=
  match s with
  | c :: r => if white_space c then trimStart r else s
  | [] => []
  end.

Definition trim (s : jsstring) : jsstring :=
  reverse (trimStart (reverse (trimStart s))).

(** The click handler of the switch button for the text of the input
    field: the [url] of the [switchToURL] message it sends, or nothing when
    it returns at once. *)
Definition switch_click (value : jsstring) : option jsstring :=
  let url := trim value in
  if negb (truthy (JStr url)) then None
  else if negb (startsWith url (js "http://"))
          && negb (startsWith url (js "https://"))
       then Some (js "https://" ++ url)
       else Some url.

End Popup.
(* ===================================================================== *)
(** * Predicates of the statements, and sample data                        *)
(* ===================================================================== *)

Module Statements.
Import Background.

(** The code units [toLowerCase] moves. *)
Definition capital (c : N) : Prop :=
  65 ≤ c ≤ 90 ∨ (192 ≤ c ≤ 222 ∧ c ≠ 215).

(** A string that [toLowerCase] leaves alone. *)
Definition lowered (s : jsstring) : Prop := Forall (λ c, lower_unit c = c) s.

(** The idempotence claimed for normalization, as stated. *)
Definition normalize_idempotent_at (u : jsstring) : Prop :=
  normalizeURL (normalizeURL u) = normalizeURL u.




(** A browser with two tabs, in which every call succeeds. *)
Definition github_tab : chrome_tab :=
  ChromeTab (JNum 11) (JNum 1) (Some (js "https://github.com/foo"))
    (Some (js "GitHub")) (JBool true) None.

Definition example_tab : chrome_tab :=
  ChromeTab (JNum 12) (JNum 1) (Some (js "https://example.org/"))
    None (JBool false) None.

Definition sample_tabs : list chrome_tab := [github_tab; example_tab].

Definition sample_chrome : Chrome :=
  {| tabs_query := inl sample_tabs;
     tabs_update := λ _, inl ();
     windows_update := λ _, inl ();
     tabs_create := λ _, inl (JNum 13) |}.




End Statements.

Module ServerStatements.
Import ExtensionServer.

(** The promise [p] still has an entry in [pendingRequests]. *)
Definition in_table (p : promise) (st : state) : Prop :=
  ∃ id e, pendingRequests st !! id = Some e ∧ cont e = p.


(** What C3 asks of the [close] handler: every pending request that was
    written to the socket [ws] leaves the table and has its continuation
    called while the handler of the [close] event of [ws] runs. *)
Definition close_fails_pending (ws : sock) (code : Z) (st : state) : Prop :=
  ∀ id e action data,
    pendingRequests st !! id = Some e →
    (ws, WRequest id action data) ∈ written st →
    pendingRequests (on_close ws code st) !! id = None ∧
    settled (cont e) (on_close ws code st) = S (settled (cont e) st).

(** The request [id] with entry [e] is pending and unsettled in [st], and
    its own timer (the one [sendToExtension] armed for it, of 10000 ms) is
    among the armed timers: when that timer fires, the entry leaves the
    table and the continuation of the request is rejected with
    ['Request timeout']. *)
Definition pending_until_timer (id : N) (e : pending) (st : state) : Prop :=
  let t := {| t_id := id; t_reject := cont e; t_delay := 10000 |} in
  pendingRequests st !! id = Some e ∧
  settled (cont e) st = 0%nat ∧
  ∃ k, timers st !! k = Some t ∧
       pendingRequests (step st (TimerFires k)) = delete id (pendingRequests st) ∧
       calls (step st (TimerFires k))
       = calls st ++ [(cont e, Reject (js "Request timeout"))].

(** A response for the request [id] that arrives in [st] and carries no
    [error] resolves the continuation of the entry [e]. *)
Definition resolved_by_reply (id : N) (e : pending) (st : state) : Prop :=
  ∀ now m,
    m_action m ≠ JStr (js "ping") → m_id m = JNum (Z.of_N id) →
    truthy (m_error m) = false →
    calls (step st (Message now m)) = calls st ++ [(cont e, Resolve m)].

(** A request for a URL. *)
Definition switch_request (u : string) : payload :=
  {| p_url := JStr (js u); p_tabId := JUndefined; p_windowId := JUndefined |}.

(** The extension connects on socket 0 and a request is sent to it. *)
Definition awaiting_reply : list event :=
  [ SetCallback; Start; Connection 0;
    Send 1000 (js "switchToURL") (switch_request "github.com") ].

(** What holds of the table, the timers and the calls made so far in every
    state the server can reach while its counter is exact. *)
Record inv (st : state) : Prop := {
  inv_entry : ∀ id e, pendingRequests st !! id = Some e →
    id ≤ requestId st ∧ (cont e < nextPromise st)%nat ∧
    settled (cont e) st = 0%nat ∧
    {| t_id := id; t_reject := cont e; t_delay := 10000 |} ∈ timers st;
  inv_timer : ∀ t, t ∈ timers st →
    t_id t ≤ requestId st ∧ (t_reject t < nextPromise st)%nat;
  inv_ids : NoDup (t_id <$> timers st);
  inv_rejects : NoDup (t_reject <$> timers st);
  inv_once : ∀ p, (p < nextPromise st)%nat →
    settled p st = 1%nat ∨ in_table p st;
  inv_fresh : ∀ p, (nextPromise st ≤ p)%nat → settled p st = 0%nat
}.

(** The request of [awaiting_reply] is answered, its timer fires, and the
    answer arrives a second time. *)
Definition reply_to (n : Z) : message :=
  {| m_action := JUndefined; m_id := JNum n; m_error := JUndefined;
     m_result := JOther (js "[object Object]"); m_tabs := JUndefined |}.

Definition answered_twice : list event :=
  awaiting_reply ++ [Message 1200 (reply_to 1); TimerFires 0; Message 11500 (reply_to 1)].

End ServerStatements.


Module ButtonStatements.
Import URLSwitcherPlugin.

(** [p] removed from the front of [s], when [s] begins with [p]. *)
Fixpoint without_prefix (p s : jsstring) : option jsstring :=
  match p, s with
  | [], _ => Some s
  | a :: p', b :: s' => if a =? b then without_prefix p' s' else None
  | _ :: _, [] => None
  end.

(** The part of [s] before its first [/]. *)
Fixpoint before_slash (s : jsstring) : jsstring :=
  match s with
  | [] => []
  | c :: r => if c =? 47 then [] else c :: before_slash r
  end.

(** The snippet in the words of the specification: strip the protocol and
    a leading [www.], take the substring before the first [/], and, if that
    is longer than 12 characters, keep its first 10 followed by an
    ellipsis. *)
Definition spec_snippet (u : jsstring) : jsstring :=
  let s := match without_prefix (js "https://") u with
           | Some r => r
           | None => default u (without_prefix (js "http://") u)
           end in
  let s := default s (without_prefix (js "www.") s) in
  let s := before_slash s in
  if decide (12 < length s)%nat then take 10 s ++ [8230] else s.

(** The title the specification gives a button. *)
Definition spec_title (settings : settings) (connected : bool) : jsval :=
  if connected then
    if truthy (title settings) then title settings
    else JStr (match url settings with JStr u => spec_snippet u | _ => [] end)
  else JStr disconnected_indicator.

(** One visible button, configured with a URL and no title. *)
Definition one_button : state :=
  {| websocket := Some OPEN;
     actionSettings :=
       {[ js "ctx" := {| url := JStr (js "https://www.verylongdomain.com/x");
                         title := JUndefined |} ]};
     sent := [] |}.

End ButtonStatements.

Module TimeoutStatements.
Import NativeHost.

(** The age at which the sweep of the native host drops an entry. *)
Definition expired (now : Z) (p : pending) : Prop := (now - timestamp p > 30000)%Z.

#[global] Instance expired_dec now p : Decision (expired now p).
Proof. unfold expired. apply _. Defined.

(** The socket that made the request [p] has been sent an envelope with an
    [error]. *)
Definition told_of_failure (p : pending) (st : state) : Prop :=
  ∃ reply, (ws p, reply) ∈ ws_sent st ∧ truthy (m_error reply) = true.

(** What C5 asks of the sweep: an entry past its deadline is removed and its
    requester is told. *)
Definition sweep_notifies (now : Z) (st : state) : Prop :=
  ∀ id p, pendingRequests st !! id = Some p → expired now p →
    pendingRequests (sweep now st) !! id = None ∧
    told_of_failure p (sweep now st).

(** One request from the socket 0, forwarded at time 0 and never answered. *)
Definition unanswered : state :=
  handleStreamDeckMessage plain_json 0 0
    {| q_id := JNum 7; q_action := JStr (js "switchToURL");
       q_url := JStr (js "github.com"); q_tabId := JUndefined;
       q_windowId := JUndefined |}
    {| pendingRequests := ∅; requestId := 0; readyState := {[ 0%nat := OPEN ]};
       stdout := []; ws_sent := []; logged := [] |}.

End TimeoutStatements.

Module ResolverStatements.
Import Background.

(** A string of Latin-1 characters (code units up to U+00FF): the range
    in which [String.prototype.toLowerCase] works one code unit at a time,
    as [toLowerCase] does. *)
Definition latin1 (s : jsstring) : Prop := Forall (λ c, c ≤ 255) s.

(** One of the two strings begins with the other. *)
Definition comparable (a b : jsstring) : Prop := a `prefix_of` b ∨ b `prefix_of` a.

(** The tab [t] passes the test of [findTabByURL] for a normalized target. *)
Definition matches (normalizedTarget : jsstring) (t : tab) : Prop :=
  comparable (normalizeURL (url t)) normalizedTarget.

#[global] Instance matches_dec nt t : Decision (matches nt t).
Proof. unfold matches, comparable. apply _. Defined.

(** What [findTabByURL] may return for the directory [tabs]: the first tab
    that passes the test, or [null] when none does. *)
Definition first_match (normalizedTarget : jsstring) (tabs : list tab)
    (found : option tab) : Prop :=
  match found with
  | Some t => ∃ before after,
      tabs = before ++ t :: after ∧
      matches normalizedTarget t ∧
      Forall (λ t', ¬ matches normalizedTarget t') before
  | None => Forall (λ t', ¬ matches normalizedTarget t') tabs
  end.

End ResolverStatements.

Module BrokerStatements.
Import ExtensionServer.

(** The [id] of what was written, for a request. *)
Definition request_id (w : sock * wire) : option N :=
  match w.2 with
  | WRequest id _ _ => Some id
  | WPong => None
  end.

(** The identifiers of the requests written so far, in order. *)
Definition request_ids (st : state) : list N := omap request_id (written st).

(** [1; 2; ...; n] *)
Definition count_up (n : N) : list N := N.of_nat <$> seq 1 (N.to_nat n).

(** The listener is never told twice in a row that the peer is gone. *)
Definition no_repeated_false (l : list bool) : Prop :=
  ∀ i, l !! i = Some false → l !! S i ≠ Some false.

(** What relates the reports made to the listener to the fields of the
    server. *)
Record reported (st : state) : Prop := {
  rep_gone : last (notified st) = Some false → extensionSocket st = None;
  rep_listener : notified st ≠ [] → onConnectionChange st = true;
  rep_once : no_repeated_false (notified st)
}.

(** A keep-alive of the extension, with or without an [id]. *)
Definition ping_with (key : jsval) : message :=
  {| m_action := JStr (js "ping"); m_id := key; m_error := JUndefined;
     m_result := JUndefined; m_tabs := JUndefined |}.

(** Two extensions connect one after the other; the first socket then
    closes. *)
Definition replaced_peer : list event :=
  [ SetCallback; Start; Connection 0; Connection 1; Close 0 1000; Close 1 1006;
    Close 1 1006 ].

End BrokerStatements.

Module FramingStatements.
Import Framing.

(** The text ["é"], quotes included: three code units, four bytes of
    UTF-8. *)
Definition accented_text : jsstring := [34; 233; 34].

(** The header of a frame of one byte, and the byte [{]: a whole frame
    whose text is not JSON. *)
Definition brace_frame : buffer :=
  [Byte.x01; Byte.x00; Byte.x00; Byte.x00; Byte.x7b].


(** A message of the browser without any property. *)
Definition empty_message : NativeHost.message :=
  {| NativeHost.m_id := JUndefined; NativeHost.m_result := JUndefined;
     NativeHost.m_error := JUndefined; NativeHost.m_tabs := JUndefined |}.

(** [JSON.parse] on the three texts of the samples: [null], [{}], and
    anything else, taken not to parse. *)
Definition sample_parse (body : buffer) : option (option NativeHost.message) :=
  if bool_decide (body = utf8 (js "null")) then Some None
  else if bool_decide (body = utf8 (js "{}")) then Some (Some empty_message)
  else None.

(** The frames of the texts [{}] and [null]. *)
Definition object_frame : buffer :=
  [Byte.x02; Byte.x00; Byte.x00; Byte.x00; Byte.x7b; Byte.x7d].

Definition null_frame : buffer :=
  [Byte.x04; Byte.x00; Byte.x00; Byte.x00; Byte.x6e; Byte.x75; Byte.x6c; Byte.x6c].

End FramingStatements.

Module NativeStatements.
Import Framing NativeHost NativeHostEvents.


(** A request of a Stream Deck client that calls itself number [n]. *)
Definition client_request (n : Z) (u : string) : request :=
  {| q_id := JNum n; q_action := JStr (js "switchToURL"); q_url := JStr (js u);
     q_tabId := JUndefined; q_windowId := JUndefined |}.

(** The answer of the browser to the request the host numbered [n]. *)
Definition browser_reply (n : Z) : message :=
  {| m_id := JNum n; m_result := JOther (js "[object Object]");
     m_error := JUndefined; m_tabs := JUndefined |}.

(** The client on socket 3 sends its request number 41. *)
Definition one_client : list event :=
  [ ReadyStateChange 3 OPEN; FromStreamDeck 3 100 (client_request 41 "github.com") ].


(** A request for a URL that ends in an [e] with an acute accent. *)
Definition accented_request : request :=
  {| q_id := JNum 1; q_action := JStr (js "switchToURL");
     q_url := JStr (js "caf" ++ [233]); q_tabId := JUndefined;
     q_windowId := JUndefined |}.

End NativeStatements.

Module DialerStatements.
Import Dialer.

(** The timer a variable holds, as a list. *)
Definition held (v : option positive) : list positive := option_list v.

(** The socket [s] has not closed. *)
Definition alive (st : state) (s : sock) : Prop :=
  ∃ rs, readyState st !! s = Some rs ∧ rs ≠ CLOSED.

(** What holds of the variables, the sockets and the timers after every
    event. *)
Record dial_inv (st : state) : Prop := {
  di_timeouts : timeouts st = held (reconnectTimer st);
  di_intervals : intervals st = held (keepAliveTimer st);
  di_only : ∀ s, alive st s → websocket st = Some s;
  di_socket : ∀ s, websocket st = Some s →
    alive st s ∧ reconnectTimer st = None ∧
    (is_Some (keepAliveTimer st) → readyState st !! s ≠ Some CONNECTING);
  di_none : websocket st = None →
    is_Some (reconnectTimer st) ∧ keepAliveTimer st = None
}.

(** The plugin is not listening at first; the second attempt gives a
    socket, which opens, and later closes. *)
Definition late_plugin : list event :=
  [ TimeoutFires 1 true; Opened 0; IntervalFires 2; Closed 0 ].

End DialerStatements.

Module PluginStatements.
Import URLSwitcherPlugin ButtonStatements PluginEvents.

(** What a button is sent when its display is brought up to date: the
    title of [spec_title] for its settings, then state 0. *)
Definition shown (st : state) (connected : bool) (context : jsstring)
  : list sd_payload :=
  [ Display (SetTitle context
               (spec_title (default empty_settings (actionSettings st !! context))
                  connected));
    Display (SetState context 0) ].

(** The same for every visible button, in the order they appeared. *)
Definition refresh (st : state) (connected : bool) : list sd_payload :=
  activeContexts st ≫= shown st connected.

(** The buttons follow the extension: when it connects on the socket [ws],
    and when the socket [ws] closes, what is sent to the Stream Deck is the
    display of every visible button, the second only if [ws] is the socket
    the server holds. *)
Definition follows_extension (st : state) (ws : ExtensionServer.sock)
    (code : Z) : Prop :=
  sent (step st (Server (ExtensionServer.Connection ws)))
  = sent st ++ (if bool_decide (websocket st = Some OPEN)
                then refresh st true else []) ∧
  sent (step st (Server (ExtensionServer.Close ws code)))
  = sent st ++ (if bool_decide (websocket st = Some OPEN)
                   && bool_decide (ExtensionServer.extensionSocket (server st) = Some ws)
                then refresh st false else []).

(** From [st] to [st'] the button [context] was sent an alert, if the
    socket to the Stream Deck is open, and nothing else was done: nothing
    was written to the extension, and no request, timer or suspended call
    was added. *)
Definition only_alerted (context : jsstring) (st st' : state) : Prop :=
  ExtensionServer.written (server st') = ExtensionServer.written (server st) ∧
  ExtensionServer.pendingRequests (server st')
  = ExtensionServer.pendingRequests (server st) ∧
  ExtensionServer.timers (server st') = ExtensionServer.timers (server st) ∧
  suspensions st' = suspensions st ∧
  sent st' = sent st ++ (if bool_decide (websocket st = Some OPEN)
                          then [ShowAlert context] else []).

(** The URL a press of the button [context] would switch to. *)
Definition configured_url (context : jsstring) (st : state) : jsval :=
  url (default empty_settings (actionSettings st !! context)).

(** [showOk] and [showAlert] answer a key press. *)
Definition is_answer (p : sd_payload) : bool :=
  match p with
  | ShowOk _ | ShowAlert _ => true
  | _ => false
  end.

Definition answers_of (l : list sd_payload) : nat := length (filter is_answer l).

Definition answers (st : state) : nat := length (filter is_answer (sent st)).

Definition is_press (e : plugin_event) : bool :=
  match e with
  | SDMessage _ m => strict_eq_str (event m) (js "keyDown")
  | _ => false
  end.

Definition presses (tr : list plugin_event) : nat := length (filter is_press tr).

(** What the Stream Deck sends for the button [ctx]. *)
Definition deck_message (name : string) (s : option settings) : sd_message :=
  {| event := JStr (js name); context := js "ctx"; settings_of := s;
     global_of := JUndefined; action_of := JUndefined |}.

Definition github : settings :=
  {| url := JStr (js "https://github.com/"); title := JUndefined |}.

(** The plugin registers and a button configured with a URL appears. *)
Definition button_appears : list plugin_event :=
  [ SDOpen; SDMessage 0 (deck_message "willAppear" (Some github)) ].

(** The same for a button that has no settings yet. *)
Definition blank_button_appears : list plugin_event :=
  [ SDOpen; SDMessage 0 (deck_message "willAppear" None) ].

(** A handler that only sends: from [st] to [st'] nothing changes but
    [sent], which gains [l] when the socket to the Stream Deck is open. *)
Definition sends_only (st st' : state) (l : list sd_payload) : Prop :=
  websocket st' = websocket st ∧ globalSettings st' = globalSettings st ∧
  actionSettings st' = actionSettings st ∧
  activeContexts st' = activeContexts st ∧
  suspensions st' = suspensions st ∧ server st' = server st ∧
  sent st' = sent st ++ (if bool_decide (websocket st = Some OPEN) then l else []).

(** The promises the server has handed out are the ones below
    [nextPromise]: no entry, timer or call names a later one. *)
Record promises_known (srv : ExtensionServer.state) : Prop := {
  pk_entry : ∀ id e, ExtensionServer.pendingRequests srv !! id = Some e →
    (ExtensionServer.cont e < ExtensionServer.nextPromise srv)%nat;
  pk_timer : ∀ t, t ∈ ExtensionServer.timers srv →
    (ExtensionServer.t_reject t < ExtensionServer.nextPromise srv)%nat;
  pk_call : ∀ c, c ∈ ExtensionServer.calls srv →
    (c.1 < ExtensionServer.nextPromise srv)%nat
}.

(** The visible buttons are listed once each and have settings. *)
Record visible (st : state) : Prop := {
  vis_once : NoDup (activeContexts st);
  vis_settings : ∀ c, c ∈ activeContexts st → is_Some (actionSettings st !! c)
}.

End PluginStatements.

Module EntryStatements.
Import EntryPoint Popup.

(** A command line made of flags, each followed by its value. *)
Definition pairs (kvs : list (flag * jsstring)) : list jsstring :=
  kvs ≫= λ kv, [flag_text kv.1; kv.2].

(** The value of the last occurrence of the flag [f]. *)
Definition last_value (f : flag) (kvs : list (flag * jsstring)) : option jsstring :=
  snd <$> last (filter (λ kv, kv.1 = f) kvs).

(** What the Stream Deck passes to the plugin. *)
Definition deck_command_line : list (flag * jsstring) :=
  [ (Port, js "28196"); (PluginUUID, js "ABCD1234");
    (RegisterEvent, js "registerPlugin"); (Info, js "{}") ].

(** The scheme of [s], if it has one, is written in lower case: the popup
    and [normalizeURL] agree on whether [s] begins with a scheme. *)
Definition scheme_in_lower_case (s : jsstring) : Prop :=
  startsWith (Background.toLowerCase s) (js "http://") = startsWith s (js "http://") ∧
  startsWith (Background.toLowerCase s) (js "https://") = startsWith s (js "https://").

End EntryStatements.
(* ===================================================================== *)
(** * Properties of the URL resolver and of the browser-side agent         *)
(* ===================================================================== *)

Module BackgroundSpec.
Import Background Statements.

(** ** The steps of [normalizeURL] *)

Lemma lower_unit_cases c :
  (capital c ∧ lower_unit c = c + 32) ∨ (¬ capital c ∧ lower_unit c = c).
Proof.
  unfold lower_unit, capital.
  destruct (N.leb_spec 65 c), (N.leb_spec c 90), (N.leb_spec 192 c),
    (N.leb_spec c 222), (N.eqb_spec c 215); cbn [andb orb negb];
    first [ left; split; [lia|reflexivity] | right; split; [lia|reflexivity] ].
Qed.

Lemma lower_unit_idem c : lower_unit (lower_unit c) = lower_unit c.
Proof.
  destruct (lower_unit_cases c) as [[Hc ->]|[Hc ->]].
  - destruct (lower_unit_cases (c + 32)) as [[Hd _]|[_ ->]]; [|done].
    unfold capital in *. lia.
  - destruct (lower_unit_cases c) as [[Hd _]|[_ ->]]; done.
Qed.

Lemma toLowerCase_lowered s : lowered (toLowerCase s).
Proof.
  unfold lowered, toLowerCase. apply Forall_fmap, Forall_forall.
  intros c _. apply lower_unit_idem.
Qed.

Lemma lowered_fixed s : lowered s → toLowerCase s = s.
Proof.
  unfold toLowerCase. induction 1 as [|c r Hc _ IH]; [done|].
  rewrite fmap_cons. by f_equal.
Qed.

Lemma startsWith_length s p : startsWith s p = true → (length p ≤ length s)%nat.
Proof.
  unfold startsWith. intros H%bool_decide_eq_true. by apply prefix_length.
Qed.

Lemma replace_protocol_length s : (length (replace_protocol s) ≤ length s)%nat.
Proof.
  unfold replace_protocol.
  repeat case_match; rewrite ?length_drop; lia.
Qed.

Lemma replace_protocol_same s :
  length (replace_protocol s) = length s →
  startsWith s (js "https://") = false ∧ startsWith s (js "http://") = false.
Proof.
  unfold replace_protocol.
  destruct (startsWith s (js "https://")) eqn:E1.
  { apply startsWith_length in E1. rewrite length_drop. simpl in E1. lia. }
  destruct (startsWith s (js "http://")) eqn:E2; [|done].
  apply startsWith_length in E2. rewrite length_drop. simpl in E2. lia.
Qed.

Lemma replace_protocol_none s :
  startsWith s (js "https://") = false → startsWith s (js "http://") = false →
  replace_protocol s = s.
Proof. unfold replace_protocol. by intros -> ->. Qed.

Lemma replace_www_length s : (length (replace_www s) ≤ length s)%nat.
Proof.
  unfold replace_www, replace_prefix. case_match; rewrite ?length_drop; lia.
Qed.

Lemma replace_www_same s :
  length (replace_www s) = length s → startsWith s (js "www.") = false.
Proof.
  unfold replace_www, replace_prefix.
  destruct (startsWith s (js "www.")) eqn:E; [|done].
  apply startsWith_length in E. rewrite length_drop. simpl in *. lia.
Qed.

Lemma replace_www_none s : startsWith s (js "www.") = false → replace_www s = s.
Proof. unfold replace_www, replace_prefix. by intros ->. Qed.

Lemma replace_trailing_slash_length s :
  (length (replace_trailing_slash s) ≤ length s)%nat.
Proof. induction s as [|c r IH]; simpl; [done|]. case_match; simpl; lia. Qed.

Lemma replace_trailing_slash_none s :
  last s ≠ Some 47 → replace_trailing_slash s = s.
Proof.
  induction s as [|c r IH]; simpl; [done|]. intros H.
  destruct (N.eqb_spec c 47) as [->|Hc]; simpl.
  - case_bool_decide as Hr.
    + subst r. by destruct H.
    + f_equal. apply IH. by destruct r.
  - f_equal. destruct r as [|d r]; [done|]. by apply IH.
Qed.

Lemma replace_trailing_slash_same s :
  length (replace_trailing_slash s) = length s → last s ≠ Some 47.
Proof.
  induction s as [|c r IH]; simpl; [done|].
  destruct (N.eqb_spec c 47) as [->|Hc]; simpl.
  - case_bool_decide as Hr; simpl; [done|].
    intros H. destruct r as [|d r]; [done|]. apply IH. simpl in *. lia.
  - intros H. destruct r as [|d r].
    + simpl. congruence.
    + apply IH. simpl in *. lia.
Qed.

Lemma replace_fragment_length s : (length (replace_fragment s) ≤ length s)%nat.
Proof. induction s as [|c r IH]; simpl; [done|]. case_match; simpl; lia. Qed.

Lemma replace_fragment_terminators s :
  forallb (λ d, negb (line_terminator d)) (replace_fragment s)
  = forallb (λ d, negb (line_terminator d)) s.
Proof.
  induction s as [|c r IH]; simpl; [done|].
  destruct (N.eqb_spec c 35) as [->|Hc]; simpl.
  - destruct (forallb _ r) eqn:E; simpl; done.
  - by rewrite IH.
Qed.

Lemma replace_fragment_idem s :
  replace_fragment (replace_fragment s) = replace_fragment s.
Proof.
  induction s as [|c r IH]; simpl; [done|].
  destruct ((c =? 35) && forallb _ r) eqn:E; simpl; [done|].
  rewrite replace_fragment_terminators, E. by rewrite IH.
Qed.

Lemma replace_trailing_slash_lowered s :
  lowered s → lowered (replace_trailing_slash s).
Proof.
  unfold lowered. induction 1 as [|c r Hc Hr IH]; simpl; [done|].
  case_match; by constructor.
Qed.

Lemma replace_fragment_lowered s : lowered s → lowered (replace_fragment s).
Proof.
  unfold lowered. induction 1 as [|c r Hc Hr IH]; simpl; [done|].
  case_match; by constructor.
Qed.

Lemma replace_protocol_lowered s : lowered s → lowered (replace_protocol s).
Proof.
  unfold lowered, replace_protocol. intros H.
  repeat case_match; try done; by apply Forall_drop.
Qed.

Lemma replace_www_lowered s : lowered s → lowered (replace_www s).
Proof.
  unfold lowered, replace_www, replace_prefix. intros H.
  case_match; try done; by apply Forall_drop.
Qed.

Lemma normalizeURL_unfold u :
  normalizeURL u
  = replace_fragment (replace_trailing_slash (replace_www
      (replace_protocol (toLowerCase u)))).
Proof. unfold normalizeURL. case_bool_decide as H; [by subst u|done]. Qed.

Lemma normalizeURL_lowered u : lowered (normalizeURL u).
Proof.
  rewrite normalizeURL_unfold.
  apply replace_fragment_lowered, replace_trailing_slash_lowered,
    replace_www_lowered, replace_protocol_lowered, toLowerCase_lowered.
Qed.

Lemma normalizeURL_fragment_free u :
  replace_fragment (normalizeURL u) = normalizeURL u.
Proof. rewrite normalizeURL_unfold. apply replace_fragment_idem. Qed.

(** Sanity checks on the scenarios of the specification. *)
Example normalize_github :
  normalizeURL (js "https://github.com/") = js "github.com".
Proof. reflexivity. Qed.

Example normalize_fragment :
  normalizeURL (js "https://www.example.com/page#frag") = js "example.com/page".
Proof. reflexivity. Qed.

Example normalize_upper :
  normalizeURL (js "HTTP://WWW.Example.COM/A/") = js "example.com/a".
Proof. reflexivity. Qed.

(** ** C4 *)

(** C4, as stated, fails: [normalizeURL] removes the trailing slash before
    the fragment, so ["https://github.com/#readme"] normalizes to
    ["github.com/"], which a second pass shortens to ["github.com"]. *)
Lemma normalizeURL_not_idempotent :
  ¬ normalize_idempotent_at (js "https://github.com/#readme").
Proof. unfold normalize_idempotent_at. vm_compute. discriminate. Qed.

(** C4, amended: a second pass of [normalizeURL] changes nothing exactly
    when the first result does not begin with [http://], [https://] or
    [www.] and does not end with [/]. *)
Theorem normalizeURL_idempotent_iff (u : jsstring) :
  normalize_idempotent_at u ↔
    startsWith (normalizeURL u) (js "https://") = false ∧
    startsWith (normalizeURL u) (js "http://") = false ∧
    startsWith (normalizeURL u) (js "www.") = false ∧
    last (normalizeURL u) ≠ Some 47.
Proof.
  unfold normalize_idempotent_at.
  pose proof (normalizeURL_lowered u) as Hlow.
  pose proof (normalizeURL_fragment_free u) as Hfrag.
  set (n := normalizeURL u) in *.
  rewrite (normalizeURL_unfold n), (lowered_fixed n Hlow).
  split.
  - intros Heq.
    pose proof (replace_protocol_length n) as L1.
    pose proof (replace_www_length (replace_protocol n)) as L2.
    pose proof (replace_trailing_slash_length (replace_www (replace_protocol n))) as L3.
    pose proof (replace_fragment_length
                  (replace_trailing_slash (replace_www (replace_protocol n)))) as L4.
    rewrite Heq in L4.
    destruct (replace_protocol_same n) as [H1 H2]; [lia|].
    rewrite (replace_protocol_none n H1 H2) in *.
    pose proof (replace_www_same n ltac:(lia)) as H3.
    rewrite (replace_www_none n H3) in *.
    pose proof (replace_trailing_slash_same n ltac:(lia)) as H4.
    done.
  - intros (H1 & H2 & H3 & H4).
    by rewrite (replace_protocol_none n H1 H2), (replace_www_none n H3),
      (replace_trailing_slash_none n H4).
Qed.

Lemma normalizeURL_idempotent_iff_witness :
  normalize_idempotent_at (js "https://www.example.com/page#frag").
Proof.
  apply normalizeURL_idempotent_iff. vm_compute.
  split_and!; [reflexivity..|discriminate].
Defined.

(** ** C8 *)

Lemma startsWith_nil s : startsWith s [] = true.
Proof. unfold startsWith. apply bool_decide_eq_true, prefix_nil. Qed.

Example normalize_absent_target :
  normalizeURL_dyn JUndefined = Some [] ∧ normalizeURL_dyn (JStr (js "")) = Some [].
Proof. split; reflexivity. Qed.

(** C8: when the directory is not empty and the target normalizes to the
    empty string, [findTabByURL] returns the first tab of the directory:
    the empty string is a prefix of every normalized tab URL. *)
Theorem findTabByURL_empty_target (c : Chrome) (first : chrome_tab)
    (others : list chrome_tab) (targetURL : jsval) :
  tabs_query c = inl (first :: others) →
  normalizeURL_dyn targetURL = Some [] →
  findTabByURL c targetURL = Some (Some (describe first)).
Proof.
  intros Htabs Htarget. unfold findTabByURL, getAllTabs.
  rewrite Htabs, Htarget, fmap_cons. cbn [findTab_loop].
  rewrite startsWith_nil. cbn [orb]. by case_bool_decide.
Qed.

Lemma findTabByURL_empty_target_witness :
  findTabByURL sample_chrome (JStr (js "https://"))
  = Some (Some (Tab (JNum 11) (JNum 1) (js "https://github.com/foo")
                  (js "GitHub") (JBool true) [])).
Proof.
  exact (findTabByURL_empty_target sample_chrome github_tab [example_tab]
           (JStr (js "https://")) eq_refl eq_refl).
Defined.

(** ** C6 and C9 *)






End BackgroundSpec.

(* ===================================================================== *)
(** * Properties of the broker of the plugin                               *)
(* ===================================================================== *)

Module ExtensionServerSpec.
Import ExtensionServer ServerStatements.

(** ** C2 *)

(** C2: when [isConnected()] is false, [sendToExtension] rejects the
    promise it returns at once with ['Chrome extension not connected'];
    the table, the counter, the timers and the sockets are as before, and
    nothing is written. *)
Theorem send_while_disconnected (now : Z) (action : jsstring) (data : payload)
    (st : state) :
  isConnected st = false →
  let st' := (sendToExtension now action data st).1 in
  let p := (sendToExtension now action data st).2 in
  p = nextPromise st ∧
  calls st' = calls st ++ [(p, Reject (js "Chrome extension not connected"))] ∧
  pendingRequests st' = pendingRequests st ∧
  requestId st' = requestId st ∧
  timers st' = timers st ∧
  written st' = written st ∧
  extensionSocket st' = extensionSocket st ∧
  readyState st' = readyState st.
Proof.
  unfold sendToExtension, isConnected. cbn [extensionSocket new_promise readyState].
  destruct (extensionSocket st) as [ws|] eqn:E; [intros ->|intros _]; cbn;
    by rewrite E.
Qed.

Lemma send_while_disconnected_witness :
  calls (sendToExtension 0 (js "switchToURL") (switch_request "github.com") init).1
  = [(0%nat, Reject (js "Chrome extension not connected"))].
Proof.
  apply (send_while_disconnected 0 (js "switchToURL")
           (switch_request "github.com") init).
  reflexivity.
Defined.

(** ** C10 *)

(** C10: [start()] on a server that has been started creates no server and
    changes no field of the object; it only writes a line to the log. *)
Theorem start_again (st : state) :
  started st = true →
  let st' := start st in
  wss st' = wss st ∧
  servers st' = servers st ∧
  extensionSocket st' = extensionSocket st ∧
  pendingRequests st' = pendingRequests st ∧
  requestId st' = requestId st ∧
  started st' = started st ∧
  onConnectionChange st' = onConnectionChange st ∧
  readyState st' = readyState st ∧
  written st' = written st ∧
  timers st' = timers st ∧
  calls st' = calls st ∧
  notified st' = notified st ∧
  logged st' = logged st ++ [LogAlreadyStarted].
Proof. unfold start. intros E. rewrite E. cbn. by rewrite E. Qed.

Lemma start_again_witness :
  wss (start (start init)) = Some 0%nat ∧ servers (start (start init)) = 1%nat.
Proof.
  pose proof (start_again (start init) eq_refl) as H. cbn zeta in H.
  destruct H as (Hw & Hs & _). rewrite Hw, Hs. split; reflexivity.
Defined.

(** ** C3 *)

(** C3, as stated, fails: the [close] handler does not touch the table.
    After the extension connects, a request is sent and the socket closes,
    request 1 is still pending and its continuation has not been called. *)
Lemma close_leaves_request_pending :
  ¬ close_fails_pending 0 1006
      (run awaiting_reply).
Proof.
  intros H.
  destruct (H 1 {| cont := 0%nat; timestamp := 1000 |} (js "switchToURL")
              (switch_request "github.com")) as [Hgone _].
  - vm_compute. reflexivity.
  - vm_compute. constructor.
  - vm_compute in Hgone. discriminate Hgone.
Qed.

(** ** C1 *)

Lemma settled_snoc p q s (l : list (promise * settlement)) :
  length (filter (λ c, c.1 = p) (l ++ [(q, s)]))
  = (length (filter (λ c, c.1 = p) l) + if decide (q = p) then 1 else 0)%nat.
Proof.
  rewrite filter_app, length_app. f_equal.
  rewrite filter_cons, filter_nil. cbn [fst].
  by destruct (decide (q = p)).
Qed.

(** The invariant only reads five components of the state. *)
Lemma inv_frame st st' :
  pendingRequests st' = pendingRequests st →
  requestId st' = requestId st →
  timers st' = timers st →
  calls st' = calls st →
  nextPromise st' = nextPromise st →
  inv st → inv st'.
Proof.
  intros Hp Hr Ht Hc Hn [I1 I2 I3 I4 I5 I6].
  constructor; unfold settled, in_table in *;
    rewrite ?Hp, ?Hr, ?Ht, ?Hc, ?Hn; done.
Qed.

Lemma inv_init : inv init.
Proof.
  constructor; cbn.
  - intros id e H. by rewrite lookup_empty in H.
  - intros t H. by apply elem_of_nil in H.
  - apply NoDup_nil_2.
  - apply NoDup_nil_2.
  - intros p H. lia.
  - done.
Qed.

(** Two entries of the table never share a promise. *)
Lemma inv_cont_inj st id1 id2 e1 e2 :
  inv st →
  pendingRequests st !! id1 = Some e1 →
  pendingRequests st !! id2 = Some e2 →
  cont e1 = cont e2 → id1 = id2.
Proof.
  intros I H1 H2 Heq.
  destruct (inv_entry st I _ _ H1) as (_ & _ & _ & T1).
  destruct (inv_entry st I _ _ H2) as (_ & _ & _ & T2).
  apply list_elem_of_lookup in T1 as [i Hi], T2 as [j Hj].
  assert (i = j) as ->.
  { eapply NoDup_lookup; [apply (inv_rejects st I)| |].
    - rewrite list_lookup_fmap, Hi. reflexivity.
    - rewrite list_lookup_fmap, Hj. cbn. by rewrite Heq. }
  congruence.
Qed.

(** An entry leaves the table and its continuation is called; timers may
    go, except those of the entries that stay. *)
Lemma inv_settle st st' id e s :
  inv st →
  pendingRequests st !! id = Some e →
  pendingRequests st' = delete id (pendingRequests st) →
  calls st' = calls st ++ [(cont e, s)] →
  sublist (timers st') (timers st) →
  (∀ t, t ∈ timers st → t_id t ≠ id → t ∈ timers st') →
  requestId st' = requestId st →
  nextPromise st' = nextPromise st →
  inv st'.
Proof.
  intros I He Hp Hc Hsub Hkeep Hr Hn.
  assert (∀ p, settled p st'
               = (settled p st + if decide (cont e = p) then 1 else 0)%nat) as Hs.
  { intros p. unfold settled. rewrite Hc. apply settled_snoc. }
  constructor; rewrite ?Hp, ?Hr, ?Hn.
  - intros id' e' H. apply lookup_delete_Some in H as [Hne H].
    destruct (inv_entry st I _ _ H) as (? & ? & ? & HT).
    split_and!; try done.
    + rewrite Hs. case_decide as Heq; [|lia].
      exfalso. apply Hne. by eapply inv_cont_inj.
    + by apply Hkeep.
  - intros t Ht. apply (inv_timer st I). by eapply elem_of_sublist.
  - apply (sublist_NoDup _ (t_id <$> timers st));
      [apply (inv_ids st I)|by apply fmap_sublist].
  - apply (sublist_NoDup _ (t_reject <$> timers st));
      [apply (inv_rejects st I)|by apply fmap_sublist].
  - intros p Hlt. rewrite Hs.
    destruct (decide (cont e = p)) as [<-|Hne].
    + left. destruct (inv_entry st I _ _ He) as (_ & _ & -> & _). done.
    + destruct (inv_once st I p Hlt) as [H1|(id' & e' & H' & Hc')].
      * left. lia.
      * right. exists id', e'. split; [|done]. rewrite Hp.
        apply lookup_delete_Some. split; [|done]. intros <-. congruence.
  - intros p Hge. rewrite Hs, (inv_fresh st I p Hge).
    destruct (inv_entry st I _ _ He) as (_ & Hlt & _). case_decide; [lia|done].
Qed.

(** Timers go, but none of an entry of the table. *)
Lemma inv_disarm st st' :
  inv st →
  pendingRequests st' = pendingRequests st →
  calls st' = calls st →
  sublist (timers st') (timers st) →
  (∀ t, t ∈ timers st → is_Some (pendingRequests st !! t_id t) → t ∈ timers st') →
  requestId st' = requestId st →
  nextPromise st' = nextPromise st →
  inv st'.
Proof.
  intros I Hp Hc Hsub Hkeep Hr Hn.
  constructor; unfold settled, in_table; rewrite ?Hp, ?Hr, ?Hn, ?Hc.
  - intros id e H. destruct (inv_entry st I _ _ H) as (? & ? & ? & HT).
    split_and!; try done. apply Hkeep; [done|]. cbn. by rewrite H.
  - intros t Ht. apply (inv_timer st I). by eapply elem_of_sublist.
  - apply (sublist_NoDup _ (t_id <$> timers st));
      [apply (inv_ids st I)|by apply fmap_sublist].
  - apply (sublist_NoDup _ (t_reject <$> timers st));
      [apply (inv_rejects st I)|by apply fmap_sublist].
  - apply (inv_once st I).
  - apply (inv_fresh st I).
Qed.

(** A promise is created and rejected at once. *)
Lemma inv_refuse st st' s :
  inv st →
  pendingRequests st' = pendingRequests st →
  calls st' = calls st ++ [(nextPromise st, s)] →
  timers st' = timers st →
  requestId st' = requestId st →
  nextPromise st' = S (nextPromise st) →
  inv st'.
Proof.
  intros I Hp Hc Ht Hr Hn.
  assert (∀ p, settled p st'
               = (settled p st + if decide (nextPromise st = p) then 1 else 0)%nat) as Hs.
  { intros p. unfold settled. rewrite Hc. apply settled_snoc. }
  constructor; unfold in_table; rewrite ?Hp, ?Hr, ?Hn, ?Ht.
  - intros id e H. destruct (inv_entry st I _ _ H) as (? & ? & ? & HT).
    split_and!; try done; [lia|]. rewrite Hs. case_decide; lia.
  - intros t Hin. destruct (inv_timer st I t Hin). split; [done|lia].
  - apply (inv_ids st I).
  - apply (inv_rejects st I).
  - intros p Hlt. rewrite Hs. case_decide as Heq.
    + left. subst p. by rewrite (inv_fresh st I).
    + destruct (inv_once st I p) as [H1|H2]; [lia| |by right]. left. lia.
  - intros p Hge. rewrite Hs, (inv_fresh st I) by lia. case_decide; [lia|done].
Qed.

(** A promise is created and registered under the next identifier. *)
Lemma inv_register st st' now :
  inv st →
  requestId st < max_exact →
  let id := requestId st + 1 in
  let p := nextPromise st in
  pendingRequests st' = <[id := {| cont := p; timestamp := now |}]> (pendingRequests st) →
  calls st' = calls st →
  timers st' = timers st ++ [{| t_id := id; t_reject := p; t_delay := 10000 |}] →
  requestId st' = id →
  nextPromise st' = S p →
  inv st'.
Proof.
  intros I Hexact id p Hp Hc Ht Hr Hn.
  constructor; unfold settled, in_table; rewrite ?Hp, ?Hr, ?Hn, ?Ht, ?Hc.
  - intros id' e' H. apply lookup_insert_Some in H as [[<- <-]|[Hne H]].
    + cbn. split_and!; [lia|lia|apply (inv_fresh st I); lia|].
      apply elem_of_app. right. by apply list_elem_of_singleton.
    + destruct (inv_entry st I _ _ H) as (? & ? & ? & HT).
      split_and!; [lia|lia|done|]. apply elem_of_app. by left.
  - intros t Hin. apply elem_of_app in Hin as [Hin|Hin].
    + destruct (inv_timer st I t Hin). split; lia.
    + apply list_elem_of_singleton in Hin as ->. cbn. split; lia.
  - rewrite fmap_app. apply NoDup_app. split_and!.
    + apply (inv_ids st I).
    + intros x Hx Hx'. apply list_elem_of_singleton in Hx' as ->.
      apply list_elem_of_fmap in Hx as (t & Heq & Hin).
      destruct (inv_timer st I t Hin). cbn in Heq. unfold id in Heq. lia.
    + apply NoDup_singleton.
  - rewrite fmap_app. apply NoDup_app. split_and!.
    + apply (inv_rejects st I).
    + intros x Hx Hx'. apply list_elem_of_singleton in Hx' as ->.
      apply list_elem_of_fmap in Hx as (t & Heq & Hin).
      destruct (inv_timer st I t Hin). cbn in Heq. unfold p in Heq. lia.
    + apply NoDup_singleton.
  - intros q Hlt. destruct (decide (q = p)) as [->|Hne].
    + right. exists id, {| cont := p; timestamp := now |}.
      split; [apply lookup_insert_eq|done].
    + destruct (inv_once st I q) as [H1|(id' & e' & H' & Hc')]; [lia|by left|].
      right. exists id', e'. split; [|done].
      rewrite lookup_insert_ne; [done|].
      destruct (inv_entry st I _ _ H') as (? & _). lia.
  - intros q Hge. apply (inv_fresh st I). lia.
Qed.

Lemma get_pending_Some key st id e :
  get_pending key st = Some (id, e) → pendingRequests st !! id = Some e.
Proof.
  unfold get_pending. destruct key as [| |?|z|?|?]; try done.
  destruct (0 <=? z)%Z; [|done].
  destruct (pendingRequests st !! Z.to_N z) eqn:E; cbn; [|done].
  by intros [= <- <-].
Qed.

Lemma pre_incr_exact n : pre_incr n < max_exact → pre_incr n = n + 1 ∧ n < max_exact.
Proof. unfold pre_incr. destruct (N.ltb_spec n max_exact); lia. Qed.

Lemma pre_incr_mono n : n ≤ pre_incr n.
Proof. unfold pre_incr. case_match; lia. Qed.

Ltac frame st := apply (inv_frame st); [reflexivity..|assumption].

Lemma inv_step st e :
  inv st → requestId (step st e) < max_exact → inv (step st e).
Proof.
  intros I Hexact.
  destruct e as [| |ws|now m|ws code|ws rs|now action data|k]; cbn [step] in *.
  - unfold start. destruct (started st); frame st.
  - frame st.
  - unfold on_connection, notify. cbn. repeat case_match; frame st.
  - unfold handleExtensionMessage, sendRawToExtension.
    destruct (strict_eq_str (m_action m) (js "ping")).
    { cbn. repeat case_match; frame st. }
    destruct (get_pending (m_id m) (log (LogFromExtension m) st))
      as [[id e]|] eqn:G; [|frame st].
    apply get_pending_Some in G. cbn in G.
    destruct (truthy (m_error m));
      (eapply (inv_settle st _ id e); [done|done|reflexivity|reflexivity| |
         |reflexivity|reflexivity]); cbn; done.
  - unfold on_close, notify. cbn. repeat case_match; frame st.
  - frame st.
  - revert Hexact. unfold sendToExtension. cbn.
    destruct (extensionSocket st) as [ws|];
      [|intros _; eapply (inv_refuse st); [done|reflexivity..]].
    destruct (isConnected _) eqn:C; cbn;
      [|intros _; eapply (inv_refuse st); [done|reflexivity..]].
    intros [Heq Hlt]%pre_incr_exact.
    rewrite Heq. eapply (inv_register st _ now); [done|done|reflexivity..].
  - destruct (timers st !! k) as [t|] eqn:Hk; [|done].
    assert (∀ t', t' ∈ timers st → t_id t' ≠ t_id t → t' ∈ delete k (timers st)) as Hkeep.
    { intros t' [i Hi]%list_elem_of_lookup Hne.
      assert (i ≠ k) as Hik by (intros ->; congruence).
      apply list_elem_of_lookup.
      destruct (decide (i < k)%nat).
      - exists i. by rewrite list_lookup_delete_lt.
      - exists (pred i). rewrite list_lookup_delete_ge by lia.
        by replace (S (pred i)) with i by lia. }
    unfold timeout. cbn. case_bool_decide as Hin.
    + destruct Hin as [e He].
      destruct (inv_entry st I _ _ He) as (_ & _ & _ & [j Hj]%list_elem_of_lookup).
      assert (j = k) as ->.
      { eapply NoDup_lookup; [apply (inv_ids st I)| |].
        - rewrite list_lookup_fmap, Hj. reflexivity.
        - rewrite list_lookup_fmap, Hk. reflexivity. }
      assert (t_reject t = cont e) as Hrej.
      { rewrite Hk in Hj. injection Hj as Ht. by rewrite Ht. }
      rewrite Hrej.
      eapply (inv_settle st _ (t_id t) e); [done|done|reflexivity|reflexivity| |
        |reflexivity|reflexivity]; cbn; [apply sublist_delete|done].
    + eapply (inv_disarm st); [done|reflexivity|reflexivity| | |reflexivity|reflexivity];
        cbn; [apply sublist_delete|].
      intros t' Ht' Hsome. apply Hkeep; [done|]. intros Heq. apply Hin.
      by rewrite <- Heq.
Qed.

Lemma requestId_mono st e : requestId st ≤ requestId (step st e).
Proof.
  destruct e as [| |ws|now m|ws code|ws rs|now action data|k]; cbn [step].
  - unfold start. by destruct (started st).
  - done.
  - unfold on_connection, notify. cbn. by repeat case_match.
  - unfold handleExtensionMessage, sendRawToExtension.
    destruct (strict_eq_str (m_action m) (js "ping")).
    { cbn. by repeat case_match. }
    destruct (get_pending _ _) as [[id e]|]; [|done].
    by destruct (truthy (m_error m)).
  - unfold on_close, notify. cbn. by repeat case_match.
  - done.
  - unfold sendToExtension. cbn.
    destruct (extensionSocket st) as [ws|]; [|done].
    destruct (isConnected _); cbn; [apply pre_incr_mono|done].
  - destruct (timers st !! k) as [t|]; [|done].
    unfold timeout. by case_bool_decide.
Qed.

Lemma run_snoc tr e : run (tr ++ [e]) = step (run tr) e.
Proof. unfold run. by rewrite foldl_snoc. Qed.

Lemma inv_run tr : requestId (run tr) < max_exact → inv (run tr).
Proof.
  induction tr as [|e tr IH] using rev_ind; [intros _; apply inv_init|].
  rewrite run_snoc. intros Hexact. apply inv_step; [|done].
  apply IH. pose proof (requestId_mono (run tr) e). lia.
Qed.

(** ** C3, amended *)

(** C3, amended: the [close] handler fails no pending request.  It leaves
    the table, the continuations and the timers as they are, clears
    [extensionSocket] when the closed socket is the current one and then
    tells the listener, if there is one, that the peer is gone.  In a state
    the server can reach (with an exact counter), a request pending at that
    moment has not been settled and is still pending after the close, with
    its own timer of 10000 ms armed: when that timer fires, the entry
    leaves the table and the continuation of the request is rejected with
    ['Request timeout']; a response with its [id] and no [error] that
    still arrives resolves it instead. *)
Theorem close_keeps_pending (ws : sock) (code : Z) (st : state) :
  let st' := on_close ws code st in
  pendingRequests st' = pendingRequests st ∧
  calls st' = calls st ∧
  timers st' = timers st ∧
  requestId st' = requestId st ∧
  extensionSocket st'
    = (if bool_decide (extensionSocket st = Some ws) then None
       else extensionSocket st) ∧
  notified st'
    = (if bool_decide (extensionSocket st = Some ws) && onConnectionChange st
       then notified st ++ [false] else notified st) ∧
  ((∃ tr, st = run tr ∧ requestId st < max_exact) →
   ∀ id e, pendingRequests st !! id = Some e →
           pending_until_timer id e st' ∧ resolved_by_reply id e st').
Proof.
  assert (pendingRequests (on_close ws code st) = pendingRequests st
          ∧ calls (on_close ws code st) = calls st
          ∧ timers (on_close ws code st) = timers st) as (Hp & Hc & Ht).
  { unfold on_close, notify. cbn.
    case_bool_decide; [destruct (onConnectionChange st)|]; done. }
  cbn zeta. split_and!; [done|done|done|..].
  - unfold on_close, notify. cbn.
    case_bool_decide; [destruct (onConnectionChange st)|]; done.
  - unfold on_close, notify. cbn.
    case_bool_decide; [destruct (onConnectionChange st)|]; done.
  - unfold on_close, notify. cbn.
    case_bool_decide; [destruct (onConnectionChange st)|]; done.
  - intros (tr & -> & Hexact) id e He.
    pose proof (inv_run tr Hexact) as I.
    destruct (inv_entry _ I id e He) as (_ & _ & Hunsettled & Harmed).
    apply list_elem_of_lookup in Harmed as [k Hk].
    set (st' := on_close ws code (run tr)) in *.
    split.
    + unfold pending_until_timer. cbn zeta. rewrite Hp. split; [done|]. split.
      { unfold settled. by rewrite Hc. }
      exists k. rewrite Ht. split; [done|].
      cbn [step]. rewrite Ht, Hk. unfold timeout.
      cbn [pendingRequests set_timers t_id t_reject].
      rewrite bool_decide_eq_true_2 by (rewrite Hp, He; by eexists).
      cbn. by rewrite Hp, Hc.
    + intros now m Hping Hid Herr. cbn [step]. unfold handleExtensionMessage.
      unfold strict_eq_str. rewrite bool_decide_eq_false_2 by done.
      assert (get_pending (m_id m) (log (LogFromExtension m) st') = Some (id, e))
        as ->.
      { rewrite Hid. unfold get_pending. cbn [pendingRequests log].
        rewrite (proj2 (Z.leb_le 0 (Z.of_N id))) by lia.
        by rewrite N2Z.id, Hp, He. }
      rewrite Herr. cbn. by rewrite Hc.
Qed.

Lemma close_keeps_pending_witness :
  pending_until_timer 1 {| cont := 0%nat; timestamp := 1000 |}
    (on_close 0 1006 (run awaiting_reply)) ∧
  resolved_by_reply 1 {| cont := 0%nat; timestamp := 1000 |}
    (on_close 0 1006 (run awaiting_reply)).
Proof.
  destruct (close_keeps_pending 0 1006 (run awaiting_reply))
    as (_ & _ & _ & _ & _ & _ & Hlater).
  apply Hlater.
  - exists awaiting_reply. split; [reflexivity|]. vm_compute. reflexivity.
  - vm_compute. reflexivity.
Defined.

(** After the close of [awaiting_reply], the timer of request 1 is the
    first of the armed timers; when it fires, promise 0 is rejected. *)
Example close_then_timeout :
  calls (run (awaiting_reply ++ [Close 0 1006])) = [] ∧
  calls (run (awaiting_reply ++ [Close 0 1006; TimerFires 0]))
  = [(0%nat, Reject (js "Request timeout"))].
Proof. vm_compute. done. Qed.



End ExtensionServerSpec.

(* ===================================================================== *)
(** * Properties of the button display                                     *)
(* ===================================================================== *)

Module URLSwitcherPluginSpec.
Import URLSwitcherPlugin ButtonStatements.

Lemma without_prefix_startsWith p s :
  without_prefix p s = if startsWith s p then Some (drop (length p) s) else None.
Proof.
  unfold startsWith. revert s. induction p as [|a p IH]; intros s.
  - cbn. by rewrite bool_decide_eq_true_2 by apply prefix_nil.
  - destruct s as [|b s]; cbn.
    + rewrite bool_decide_eq_false_2; [done|]. by intros ?%prefix_nil_not.
    + destruct (N.eqb_spec a b) as [->|Hne].
      * rewrite IH. repeat case_bool_decide; try done.
        -- exfalso. eauto using prefix_cons.
        -- exfalso. eauto using prefix_cons_inv_2.
      * rewrite bool_decide_eq_false_2; [done|].
        by intros ?%prefix_cons_inv_1.
Qed.

Lemma split_head s : hd [] (split 47 s) = before_slash s.
Proof.
  induction s as [|c r IH]; cbn; [done|].
  destruct (c =? 47); [done|].
  destruct (split 47 r) as [|piece pieces]; cbn in *; by rewrite <- IH.
Qed.

Lemma strip_protocol_replace u :
  match without_prefix (js "https://") u with
  | Some r => r
  | None => default u (without_prefix (js "http://") u)
  end = replace_protocol u.
Proof.
  rewrite !without_prefix_startsWith. unfold replace_protocol.
  destruct (startsWith u (js "https://")); [reflexivity|].
  destruct (startsWith u (js "http://")); reflexivity.
Qed.

Lemma strip_www_replace s :
  default s (without_prefix (js "www.") s) = replace_www s.
Proof.
  rewrite without_prefix_startsWith. unfold replace_www, replace_prefix.
  destruct (startsWith s (js "www.")); reflexivity.
Qed.

Lemma getURLSnippet_spec u : getURLSnippet (JStr u) = spec_snippet u.
Proof.
  unfold getURLSnippet, spec_snippet, ellipsis.
  rewrite strip_protocol_replace, strip_www_replace.
  cbn [truthy negb]. case_bool_decide as Hu.
  { subst u. reflexivity. }
  cbn [negb]. rewrite split_head.
  generalize (before_slash (replace_www (replace_protocol u))). intros d.
  destruct (N.ltb_spec 12 (N.of_nat (length d))); case_decide; try done; lia.
Qed.

Example snippet_of_short_host :
  getURLSnippet (JStr (js "http://example.com/a/b")) = js "example.com".
Proof. reflexivity. Qed.

Example snippet_of_twelve : getURLSnippet (JStr (js "abcdefghijkl")) = js "abcdefghijkl".
Proof. reflexivity. Qed.

(** C7: with the Stream Deck socket open, [updateButtonState] sets the title
    the specification describes (the disconnected indicator when the peer
    is disconnected, whatever the settings; otherwise the configured title
    when it is set, and else the snippet of the URL) and then state 0. *)
Theorem button_title (context : jsstring) (connected : bool) (st : state) :
  websocket st = Some OPEN →
  sent (updateButtonState context connected st)
  = sent st ++
      [ SetTitle context
          (spec_title (default empty_settings (actionSettings st !! context))
             connected);
        SetState context 0 ].
Proof.
  intros Hopen. unfold updateButtonState, spec_title, setState, setTitle, send.
  set (settings := default empty_settings (actionSettings st !! context)).
  assert (JStr (getURLSnippet (url settings))
          = JStr (match url settings with JStr u => spec_snippet u | _ => [] end))
    as Hsnip.
  { destruct (url settings) as [| |b|z|u|r] eqn:E; try reflexivity.
    - unfold getURLSnippet. by destruct (truthy (JBool b)).
    - unfold getURLSnippet. by destruct (truthy (JNum z)).
    - by rewrite getURLSnippet_spec. }
  destruct connected; [destruct (truthy (title settings))|];
    rewrite ?Hsnip, Hopen; cbn; by rewrite <- app_assoc.
Qed.

Lemma button_title_witness :
  sent (updateButtonState (js "ctx") true one_button)
  = [ SetTitle (js "ctx") (JStr (js "verylongdo" ++ [8230])); SetState (js "ctx") 0 ] ∧
  sent (updateButtonState (js "ctx") false one_button)
  = [ SetTitle (js "ctx") (JStr ([9888; 65039; 10] ++ js "No Browser"));
      SetState (js "ctx") 0 ].
Proof.
  split.
  - exact (button_title (js "ctx") true one_button eq_refl).
  - exact (button_title (js "ctx") false one_button eq_refl).
Defined.

End URLSwitcherPluginSpec.

(* ===================================================================== *)
(** * Properties of the sweep and of the request timers                    *)
(* ===================================================================== *)

Module TimeoutSpec.
Import TimeoutStatements.

(** The loop of the sweep leaves exactly the entries that are not older
    than 30 seconds. *)
Lemma sweep_loop_lookup now (m0 m : gmap N NativeHost.pending) k :
  (map_fold (NativeHost.sweep_entry now) (m0, 0) m).1 !! k
  = match m !! k with
    | Some p => if bool_decide (expired now p) then None else m0 !! k
    | None => m0 !! k
    end.
Proof.
  revert k.
  apply (map_fold_weak_ind
    (λ r m, ∀ k, r.1 !! k = match m !! k with
                            | Some p => if bool_decide (expired now p) then None
                                        else m0 !! k
                            | None => m0 !! k
                            end)).
  - intros k. by rewrite lookup_empty.
  - intros i x m' r Hi IH k. unfold NativeHost.sweep_entry.
    rewrite (bool_decide_ext _ (expired now x)) by done.
    destruct (decide (k = i)) as [->|Hne].
    + rewrite lookup_insert_eq. destruct (bool_decide (expired now x)); cbn.
      * by rewrite lookup_delete_eq.
      * by rewrite IH, Hi.
    + rewrite lookup_insert_ne by done.
      destruct (bool_decide (expired now x)); cbn.
      * rewrite lookup_delete_ne by done. apply IH.
      * apply IH.
Qed.

Lemma sweep_table now st :
  NativeHost.pendingRequests (NativeHost.sweep now st)
  = filter (λ kv, ¬ expired now kv.2) (NativeHost.pendingRequests st).
Proof.
  unfold NativeHost.sweep.
  pose proof (sweep_loop_lookup now (NativeHost.pendingRequests st)
                (NativeHost.pendingRequests st)) as H.
  destruct (map_fold _ _ _) as [table cleaned]. cbn in *.
  apply map_eq. intros k. rewrite H, map_lookup_filter.
  destruct (NativeHost.pendingRequests st !! k) as [p|] eqn:E; cbn; [|done].
  case_bool_decide; case_guard; cbn in *; done.
Qed.

(** C5, as stated, fails for the sweep: it drops the entry of a request left
    unanswered for 40 seconds and sends nothing to the socket that made
    it. *)
Lemma sweep_tells_nobody : ¬ sweep_notifies 40000 unanswered.
Proof.
  intros H.
  destruct (H 1 {| NativeHost.ws := 0%nat; NativeHost.originalId := JNum 7;
                   NativeHost.timestamp := 0 |}) as [_ (reply & Hin & _)].
  - vm_compute. reflexivity.
  - unfold expired. cbn. lia.
  - assert (NativeHost.ws_sent (NativeHost.sweep 40000 unanswered) = []) as Hnone
      by (unfold NativeHost.sweep; by destruct (map_fold _ _ _)).
    rewrite Hnone in Hin. by apply elem_of_nil in Hin.
Qed.

(** C5, amended: the 30-second sweep of the native host removes exactly the
    entries older than 30000 ms and writes nothing, neither to a socket nor
    to the browser.  The caller is told of a timeout by the plugin only:
    [sendToExtension] arms a timer of 10000 ms for each request it
    registers, and that timer removes the entry, if it is still in the
    table, and rejects the continuation with ['Request timeout']; if the
    entry is gone it does nothing. *)
Theorem sweep_and_timer :
  (∀ now st,
     NativeHost.pendingRequests (NativeHost.sweep now st)
       = filter (λ kv, ¬ expired now kv.2) (NativeHost.pendingRequests st) ∧
     NativeHost.ws_sent (NativeHost.sweep now st) = NativeHost.ws_sent st ∧
     NativeHost.stdout (NativeHost.sweep now st) = NativeHost.stdout st) ∧
  (∀ now action data st,
     ExtensionServer.isConnected st = true →
     ExtensionServer.timers (ExtensionServer.sendToExtension now action data st).1
     = ExtensionServer.timers st ++
         [ {| ExtensionServer.t_id := pre_incr (ExtensionServer.requestId st);
              ExtensionServer.t_reject := ExtensionServer.nextPromise st;
              ExtensionServer.t_delay := 10000 |} ]) ∧
  (∀ t st,
     is_Some (ExtensionServer.pendingRequests st !! ExtensionServer.t_id t) →
     ExtensionServer.pendingRequests (ExtensionServer.timeout t st)
       = delete (ExtensionServer.t_id t) (ExtensionServer.pendingRequests st) ∧
     ExtensionServer.calls (ExtensionServer.timeout t st)
       = ExtensionServer.calls st ++
           [(ExtensionServer.t_reject t, ExtensionServer.Reject (js "Request timeout"))]) ∧
  (∀ t st,
     ExtensionServer.pendingRequests st !! ExtensionServer.t_id t = None →
     ExtensionServer.timeout t st = st).
Proof.
  split_and!.
  - intros now st. split; [apply sweep_table|].
    unfold NativeHost.sweep. by destruct (map_fold _ _ _).
  - intros now action data st.
    unfold ExtensionServer.sendToExtension, ExtensionServer.isConnected. cbn.
    destruct (ExtensionServer.extensionSocket st); [|done]. by intros ->.
  - intros t st Hin. unfold ExtensionServer.timeout.
    by rewrite bool_decide_eq_true_2.
  - intros t st Hnone. unfold ExtensionServer.timeout.
    rewrite bool_decide_eq_false_2; [done|]. rewrite Hnone. by intros [? ?].
Qed.

Lemma sweep_and_timer_witness :
  let st := ExtensionServer.run ServerStatements.awaiting_reply in
  let t := {| ExtensionServer.t_id := 1; ExtensionServer.t_reject := 0%nat;
              ExtensionServer.t_delay := 10000 |} in
  ExtensionServer.pendingRequests (ExtensionServer.timeout t st)
    = delete 1 (ExtensionServer.pendingRequests st) ∧
  ExtensionServer.calls (ExtensionServer.timeout t st)
    = ExtensionServer.calls st ++
        [(0%nat, ExtensionServer.Reject (js "Request timeout"))].
Proof.
  intros st t. destruct sweep_and_timer as (_ & _ & Hfire & _).
  apply (Hfire t st). vm_compute. eauto.
Defined.

End TimeoutSpec.

(* ===================================================================== *)
(** * More on the URL resolver                                             *)
(* ===================================================================== *)

Module ResolverSpec.
Import Background Statements ResolverStatements BackgroundSpec.

Lemma startsWith_cons a b s p :
  startsWith (a :: s) (b :: p) = (a =? b) && startsWith s p.
Proof.
  unfold startsWith. destruct (N.eqb_spec a b) as [->|Hne]; cbn.
  - apply bool_decide_ext. split; [apply prefix_cons_inv_2|apply prefix_cons].
  - apply bool_decide_eq_false_2. by intros ?%prefix_cons_inv_1.
Qed.

Lemma startsWith_app p s : startsWith (p ++ s) p = true.
Proof. unfold startsWith. apply bool_decide_eq_true_2. by apply prefix_app_r. Qed.

Lemma toLowerCase_app a b : toLowerCase (a ++ b) = toLowerCase a ++ toLowerCase b.
Proof. unfold toLowerCase. apply fmap_app. Qed.

Lemma toLowerCase_idem u : toLowerCase (toLowerCase u) = toLowerCase u.
Proof. apply lowered_fixed, toLowerCase_lowered. Qed.

Lemma replace_protocol_https s : replace_protocol (js "https://" ++ s) = s.
Proof. unfold replace_protocol. by rewrite startsWith_app. Qed.

Lemma replace_protocol_http s : replace_protocol (js "http://" ++ s) = s.
Proof.
  unfold replace_protocol.
  change (js "http://" ++ s) with (104 :: 116 :: 116 :: 112 :: 58 :: 47 :: 47 :: s).
  change (js "https://") with [104; 116; 116; 112; 115; 58; 47; 47].
  rewrite !startsWith_cons. cbn [N.eqb Pos.eqb andb].
  change (104 :: 116 :: 116 :: 112 :: 58 :: 47 :: 47 :: s) with (js "http://" ++ s).
  by rewrite startsWith_app.
Qed.

(** The test of the loop is the prefix test alone: equal strings are
    prefixes of each other. *)
Lemma loop_test a b :
  bool_decide (a = b) || (startsWith a b || startsWith b a) = true ↔ comparable a b.
Proof.
  unfold startsWith, comparable. split.
  - intros H. repeat case_bool_decide; subst; auto; done.
  - intros [H|H]; repeat case_bool_decide; auto; tauto.
Qed.

Lemma findTab_loop_first_match tabs nt : first_match nt tabs (findTab_loop tabs nt).
Proof.
  induction tabs as [|t rest IH]; cbn [findTab_loop first_match]; [constructor|].
  pose proof (loop_test (normalizeURL (url t)) nt) as Htest.
  destruct (bool_decide (normalizeURL (url t) = nt)) eqn:E1.
  { exists [], rest. split_and!; [done|by apply Htest|constructor]. }
  destruct (startsWith (normalizeURL (url t)) nt || startsWith nt (normalizeURL (url t))) eqn:E2.
  { exists [], rest. split_and!; [done|by apply Htest|constructor]. }
  assert (¬ matches nt t) as Hno.
  { unfold matches. intros H%Htest. cbn in H. congruence. }
  destruct (findTab_loop rest nt) as [t'|]; cbn [first_match] in *.
  - destruct IH as (before & after & -> & Hm & Hb).
    exists (t :: before), after. split_and!; [done|done|by constructor].
  - by constructor.
Qed.

Lemma findTabByURL_some c raw targetURL nt :
  tabs_query c = inl raw →
  normalizeURL_dyn targetURL = Some nt →
  ∃ found, findTabByURL c targetURL = Some found ∧
           first_match nt (describe <$> raw) found.
Proof.
  intros Hq Ht. unfold findTabByURL, getAllTabs. rewrite Hq, Ht.
  eexists. split; [reflexivity|]. apply findTab_loop_first_match.
Qed.

(** [findTabByURL] returns the first tab of the directory whose normalized
    URL begins with the normalized target or is the beginning of it, and
    [null] exactly when no tab of the directory is such. *)
Theorem findTabByURL_first_match (c : Chrome) (raw : list chrome_tab)
    (targetURL : jsval) (nt : jsstring) :
  tabs_query c = inl raw →
  normalizeURL_dyn targetURL = Some nt →
  ∃ found, findTabByURL c targetURL = Some found ∧
           first_match nt (describe <$> raw) found.
Proof.
  apply findTabByURL_some.
Qed.

Lemma findTabByURL_first_match_witness :
  ∃ found, findTabByURL sample_chrome (JStr (js "EXAMPLE.org")) = Some found ∧
           first_match (js "example.org") (describe <$> sample_tabs) found.
Proof.
  apply (findTabByURL_first_match sample_chrome sample_tabs
           (JStr (js "EXAMPLE.org")) (js "example.org")).
  - reflexivity.
  - vm_compute. reflexivity.
Defined.

(** The scheme and the case of letters do not matter to [normalizeURL]:
    the [http] and [https] spellings of a URL normalize alike, and so do a
    URL and its lower-case form. *)
Theorem normalizeURL_scheme_and_case (u : jsstring) :
  normalizeURL (js "http://" ++ u) = normalizeURL (js "https://" ++ u) ∧
  normalizeURL (js "HTTPS://" ++ u) = normalizeURL (js "https://" ++ u) ∧
  normalizeURL (toLowerCase u) = normalizeURL u.
Proof.
  rewrite !normalizeURL_unfold, !toLowerCase_app, toLowerCase_idem.
  change (toLowerCase (js "HTTPS://")) with (js "https://").
  change (toLowerCase (js "https://")) with (js "https://").
  change (toLowerCase (js "http://")) with (js "http://").
  by rewrite replace_protocol_https, replace_protocol_http.
Qed.

(** After the scheme, a leading [www.] does not matter either, for a URL
    of Latin-1 characters that does not itself begin with [www.]. *)
Theorem normalizeURL_www (u : jsstring) :
  latin1 u →
  startsWith (toLowerCase u) (js "www.") = false →
  normalizeURL (js "https://www." ++ u) = normalizeURL (js "https://" ++ u).
Proof.
  intros _ Hw.
  change (js "https://www." ++ u) with (js "https://" ++ (js "www." ++ u)).
  rewrite !normalizeURL_unfold, !toLowerCase_app.
  change (toLowerCase (js "https://")) with (js "https://").
  change (toLowerCase (js "www.")) with (js "www.").
  rewrite !replace_protocol_https.
  rewrite (replace_www_none _ Hw).
  unfold replace_www, replace_prefix. rewrite startsWith_app.
  by rewrite drop_app_length.
Qed.

Lemma normalizeURL_www_witness :
  normalizeURL (js "https://www." ++ js "GitHub.com/")
  = normalizeURL (js "https://" ++ js "GitHub.com/").
Proof.
  apply normalizeURL_www.
  - apply (bool_decide_unpack _). vm_compute. exact I.
  - vm_compute. reflexivity.
Defined.

Lemma lower_unit_terminator c : line_terminator (lower_unit c) = line_terminator c.
Proof.
  unfold line_terminator.
  destruct (lower_unit_cases c) as [[Hc ->]|[_ ->]]; [|done].
  unfold capital in Hc.
  repeat match goal with |- context [?a =? ?b] => destruct (N.eqb_spec a b) end;
    try done; lia.
Qed.

Lemma replace_fragment_no_hash s :
  forallb (λ d, negb (line_terminator d)) s = true → 35 ∉ replace_fragment s.
Proof.
  induction s as [|c r IH]; cbn [forallb replace_fragment].
  - intros _. apply not_elem_of_nil.
  - intros [Hc Hr]%andb_true_iff. rewrite Hr.
    destruct (N.eqb_spec c 35) as [->|Hne]; cbn [andb].
    + apply not_elem_of_nil.
    + apply not_elem_of_cons. split; [done|by apply IH].
Qed.

(** For a URL of Latin-1 characters without line terminators, the
    normalized form contains no [#] and is no longer than the URL. *)
Theorem normalizeURL_no_fragment (u : jsstring) :
  latin1 u →
  Forall (λ c, line_terminator c = false) u →
  (35 ∉ normalizeURL u) ∧ (length (normalizeURL u) ≤ length u)%nat.
Proof.
  intros _ Hu. rewrite normalizeURL_unfold. split.
  - apply replace_fragment_no_hash.
    apply forallb_forall. intros c Hc. apply negb_true_iff.
    assert (Forall (λ c, line_terminator c = false) (toLowerCase u)) as Hl.
    { unfold toLowerCase. apply Forall_fmap. eapply Forall_impl; [done|].
      intros d Hd. cbn. by rewrite lower_unit_terminator. }
    assert (∀ P (s : jsstring), Forall P s → Forall P (replace_trailing_slash s)) as Hts.
    { intros P s. induction 1 as [|d r Hd Hr IH]; cbn; [done|].
      case_match; by constructor. }
    assert (Forall (λ c, line_terminator c = false)
              (replace_trailing_slash (replace_www (replace_protocol (toLowerCase u)))))
      as Hall.
    { apply Hts. unfold replace_www, replace_prefix, replace_protocol.
      repeat case_match; repeat apply Forall_drop; done. }
    rewrite Forall_forall in Hall. apply Hall. by apply list_elem_of_In.
  - pose proof (replace_protocol_length (toLowerCase u)).
    pose proof (replace_www_length (replace_protocol (toLowerCase u))).
    pose proof (replace_trailing_slash_length
                  (replace_www (replace_protocol (toLowerCase u)))).
    pose proof (replace_fragment_length
                  (replace_trailing_slash (replace_www (replace_protocol (toLowerCase u))))).
    unfold toLowerCase in *. rewrite length_fmap in *. lia.
Qed.

Lemma normalizeURL_no_fragment_witness :
  (35 ∉ normalizeURL (js "https://github.com/#readme")) ∧
  (length (normalizeURL (js "https://github.com/#readme"))
   ≤ length (js "https://github.com/#readme"))%nat.
Proof.
  apply normalizeURL_no_fragment.
  - apply (bool_decide_unpack _). vm_compute. exact I.
  - vm_compute. repeat (constructor; [reflexivity|]). constructor.
Defined.

Lemma first_match_none nt tabs found :
  first_match nt tabs found →
  (found = None ↔ Forall (λ t, ¬ matches nt t) tabs).
Proof.
  destruct found as [t|]; cbn; [|done].
  intros (before & after & -> & Hm & _). split; [done|].
  intros Hall. exfalso. rewrite Forall_forall in Hall.
  apply (Hall t); [|done]. apply list_elem_of_In. set_solver.
Qed.

(** [switchToURL] opens a new tab exactly when no tab of the directory
    passes the test of [findTabByURL]; otherwise it activates the first tab
    that passes it, and reports success when both the tab and its window
    could be brought forward. *)
Theorem switchToURL_activates_or_opens (c : Chrome) (raw : list chrome_tab)
    (u : jsval) (nt : jsstring) :
  tabs_query c = inl raw →
  normalizeURL_dyn u = Some nt →
  ∃ r, switchToURL c u = Some r ∧
    (r_action r = Some (js "opened") ↔
       Forall (λ t, ¬ matches nt t) (describe <$> raw)) ∧
    (r_action r = Some (js "opened") →
       r_tab r = None ∧
       (r_success r = true ↔ ∃ newId, tabs_create c u = inl newId ∧
                                      r_tabId r = Some newId)) ∧
    (r_action r ≠ Some (js "opened") →
       r_action r = Some (js "activated") ∧
       ∃ t, r_tab r = Some t ∧
            first_match nt (describe <$> raw) (Some t) ∧
            (r_success r = true ↔
               tabs_update c (id t) = inl () ∧ windows_update c (windowId t) = inl ())).
Proof.
  intros Hq Ht.
  destruct (findTabByURL_some c raw u nt Hq Ht) as (found & Hf & Hfirst).
  pose proof (first_match_none _ _ _ Hfirst) as Hnone.
  unfold switchToURL. rewrite Hf. destruct found as [t|].
  - eexists. split; [reflexivity|]. cbn [r_action r_tab r_success r_tabId].
    split_and!.
    + split; [discriminate|]. intros H%Hnone. discriminate H.
    + discriminate.
    + intros _. split; [done|]. exists t. split_and!; [done|done|].
      unfold activateTab.
      destruct (tabs_update c (id t)) as [[]|e]; cbn.
      * destruct (windows_update c (windowId t)) as [[]|e]; cbn; split;
          try done; intros [_ [=]].
      * split; [done|]. intros [[=] _].
  - eexists. split; [reflexivity|]. cbn [r_action r_tab r_success r_tabId].
    split_and!.
    + split; [intros _; by apply Hnone|done].
    + intros _. unfold openURL.
      destruct (tabs_create c u) as [newId|e]; cbn; split; try done.
      * split; [by eauto|done].
      * split; [done|]. intros (? & [=] & _).
    + intros H. by destruct H.
Qed.

Lemma switchToURL_activates_or_opens_witness :
  ∃ r, switchToURL sample_chrome (JStr (js "https://mail.example.net")) = Some r ∧
       r_action r = Some (js "opened") ∧ r_tab r = None ∧ r_success r = true.
Proof.
  assert (normalizeURL_dyn (JStr (js "https://mail.example.net"))
          = Some (js "mail.example.net")) as Hn by (vm_compute; reflexivity).
  destruct (switchToURL_activates_or_opens sample_chrome sample_tabs
              (JStr (js "https://mail.example.net")) (js "mail.example.net")
              eq_refl Hn)
    as (r & Hr & Hopened & Hnew & _).
  exists r. split; [done|].
  assert (r_action r = Some (js "opened")) as Ha.
  { apply Hopened. refine (bool_decide_eq_true_1 _ _). vm_compute. reflexivity. }
  destruct (Hnew Ha) as [Htab Hsucc].
  split_and!; [done|done|]. apply Hsucc. exists (JNum 13).
  split; [reflexivity|].
  revert Hr. vm_compute. by intros [= <-].
Defined.

End ResolverSpec.

(* ===================================================================== *)
(** * More on the broker of the plugin                                     *)
(* ===================================================================== *)

Module BrokerSpec.
Import ExtensionServer ServerStatements BrokerStatements ExtensionServerSpec.

Lemma count_up_succ n : count_up (n + 1) = count_up n ++ [n + 1].
Proof.
  unfold count_up. replace (N.to_nat (n + 1)) with (S (N.to_nat n)) by lia.
  rewrite seq_S, fmap_app. cbn. do 3 f_equal. lia.
Qed.

Lemma request_ids_snoc st ws w :
  omap request_id (written st ++ [(ws, w)])
  = request_ids st ++ match w with WRequest id _ _ => [id] | WPong => [] end.
Proof. unfold request_ids. rewrite omap_app. by destruct w. Qed.

(** What one event does to the identifiers written and to the counter. *)
Lemma ids_step st e :
  requestId (step st e) < max_exact →
  (request_ids (step st e) = request_ids st ∧ requestId (step st e) = requestId st) ∨
  (request_ids (step st e) = request_ids st ++ [requestId st + 1] ∧
   requestId (step st e) = requestId st + 1).
Proof.
  destruct e as [| |ws|now m|ws code|ws rs|now action data|k]; cbn [step].
  - intros _. left. unfold start. by destruct (started st).
  - by left.
  - intros _. left. unfold on_connection, notify. cbn. by repeat case_match.
  - intros _. left. unfold handleExtensionMessage, sendRawToExtension.
    destruct (strict_eq_str (m_action m) (js "ping")).
    { cbn. destruct (extensionSocket st); [|done].
      destruct (isConnected _); [|done].
      unfold request_ids. cbn. by rewrite request_ids_snoc, app_nil_r. }
    destruct (get_pending _ _) as [[id e]|]; [|done].
    by destruct (truthy (m_error m)).
  - intros _. left. unfold on_close, notify. cbn. by repeat case_match.
  - by left.
  - unfold sendToExtension. cbn.
    destruct (extensionSocket st) as [ws|]; [|by left].
    destruct (isConnected _); cbn; [|by left].
    intros [Heq _]%pre_incr_exact. right. rewrite Heq. split; [|done].
    unfold request_ids. cbn. by rewrite request_ids_snoc.
  - intros _. left. destruct (timers st !! k) as [t|]; [|done].
    unfold timeout. by case_bool_decide.
Qed.

(** The requests written to the extension carry the identifiers 1, 2, 3,
    ... in the order they were sent, as long as the counter is exact: no
    identifier is skipped or used twice. *)
Theorem request_ids_count_up (tr : list event) :
  requestId (run tr) < max_exact →
  request_ids (run tr) = count_up (requestId (run tr)).
Proof.
  induction tr as [|e tr IH] using rev_ind; [done|].
  rewrite run_snoc. intros Hexact.
  pose proof (requestId_mono (run tr) e) as Hmono.
  destruct (ids_step (run tr) e Hexact) as [[-> ->]|[-> ->]].
  - apply IH. lia.
  - rewrite count_up_succ. f_equal. apply IH. lia.
Qed.

Lemma request_ids_count_up_witness :
  request_ids (run answered_twice) = count_up (requestId (run answered_twice)).
Proof. apply request_ids_count_up. vm_compute. reflexivity. Defined.

(** A keep-alive ping of the extension bypasses correlation: whatever [id]
    it carries, the table, the continuations, the timers and the counter
    stay as they are.  It is answered with a pong on the current socket
    when that socket is open, and with nothing otherwise. *)
Theorem ping_bypasses_table (now : Z) (m : message) (st : state) :
  m_action m = JStr (js "ping") →
  let st' := handleExtensionMessage now m st in
  pendingRequests st' = pendingRequests st ∧
  calls st' = calls st ∧
  timers st' = timers st ∧
  requestId st' = requestId st ∧
  written st'
    = match extensionSocket st with
      | Some ws => if isConnected st then written st ++ [(ws, WPong)]
                   else written st
      | None => written st
      end.
Proof.
  intros Ha. unfold handleExtensionMessage, sendRawToExtension, strict_eq_str.
  rewrite Ha, bool_decide_eq_true_2 by done. cbn.
  destruct (extensionSocket st) as [ws|] eqn:E; [|done].
  change (isConnected (log LogPing st)) with (isConnected st).
  by destruct (isConnected st).
Qed.

Lemma ping_bypasses_table_witness :
  let st := run awaiting_reply in
  let st' := handleExtensionMessage 2000 (ping_with (JNum 1)) st in
  pendingRequests st' = pendingRequests st ∧
  calls st' = calls st ∧
  timers st' = timers st ∧
  requestId st' = requestId st ∧
  written st'
    = match extensionSocket st with
      | Some ws => if isConnected st then written st ++ [(ws, WPong)]
                   else written st
      | None => written st
      end.
Proof. apply (ping_bypasses_table 2000 (ping_with (JNum 1))). reflexivity. Defined.

(** At most one peer at a time: when an extension connects on a new
    socket, that socket becomes the current one and the server is
    connected; the socket that was current is not open any more (it is told
    to close if it was); and no pending request is touched. *)
Theorem connection_replaces_peer (ws : sock) (st : state) :
  extensionSocket st ≠ Some ws →
  let st' := on_connection ws st in
  extensionSocket st' = Some ws ∧
  isConnected st' = true ∧
  (∀ old, extensionSocket st = Some old → readyState st' !! old ≠ Some OPEN) ∧
  pendingRequests st' = pendingRequests st ∧
  calls st' = calls st ∧
  timers st' = timers st ∧
  notified st' = (if onConnectionChange st then notified st ++ [true]
                  else notified st).
Proof.
  intros Hnew. unfold on_connection, notify, isConnected. cbn.
  destruct (extensionSocket st) as [old|] eqn:E; cbn.
  - assert (old ≠ ws) as Hne by congruence.
    rewrite lookup_insert_ne by done.
    case_bool_decide as Hopen; cbn; destruct (onConnectionChange st); cbn;
      (split_and!; try done;
       [rewrite ?(lookup_insert_ne _ old ws) by done;
        rewrite lookup_insert_eq; by apply bool_decide_eq_true_2
       |intros ? [= <-];
        rewrite ?lookup_insert_eq, ?lookup_insert_ne by done; congruence]).
  - destruct (onConnectionChange st); cbn;
      (split_and!; try done;
       rewrite lookup_insert_eq; by apply bool_decide_eq_true_2).
Qed.

Lemma connection_replaces_peer_witness :
  let st := run awaiting_reply in
  let st' := on_connection 1 st in
  extensionSocket st' = Some 1%nat ∧
  isConnected st' = true ∧
  (∀ old, extensionSocket st = Some old → readyState st' !! old ≠ Some OPEN) ∧
  pendingRequests st' = pendingRequests st ∧
  calls st' = calls st ∧
  timers st' = timers st ∧
  notified st' = (if onConnectionChange st then notified st ++ [true]
                  else notified st).
Proof.
  apply (connection_replaces_peer 1 (run awaiting_reply)).
  vm_compute. discriminate.
Defined.

(** A send while connected registers the request under a fresh identifier:
    no entry of the table is replaced, the promise is left unsettled, and
    the envelope is written to the current socket. *)
Theorem send_registers_fresh (tr : list event) (now : Z) (action : jsstring)
    (data : payload) :
  let st := run tr in
  let st' := (sendToExtension now action data st).1 in
  let p := (sendToExtension now action data st).2 in
  requestId st' < max_exact →
  isConnected st = true →
  let id := requestId st + 1 in
  requestId st' = id ∧
  pendingRequests st !! id = None ∧
  pendingRequests st' = <[id := {| cont := p; timestamp := now |}]> (pendingRequests st) ∧
  size (pendingRequests st') = S (size (pendingRequests st)) ∧
  settled p st' = 0%nat ∧
  ∃ ws, extensionSocket st = Some ws ∧
        written st' = written st ++ [(ws, WRequest id action data)].
Proof.
  intros st st' p Hexact Hconn id.
  assert (requestId st ≤ requestId st') as Hmono
    by apply (requestId_mono st (Send now action data)).
  pose proof (inv_run tr ltac:(fold st; lia)) as I. fold st in I.
  subst st' p. revert Hexact Hmono. unfold sendToExtension, isConnected in *.
  cbn. destruct (extensionSocket st) as [ws|] eqn:E; [|done].
  change (readyState (new_promise st)) with (readyState st). rewrite Hconn. cbn.
  intros [Heq Hlt]%pre_incr_exact _. rewrite Heq. fold id.
  assert (pendingRequests st !! id = None) as Hfresh.
  { destruct (pendingRequests st !! id) as [e|] eqn:He; [|done].
    destruct (inv_entry st I _ _ He) as (Hle & _). subst id. lia. }
  split_and!; try done.
  - by rewrite map_size_insert_None.
  - apply (inv_fresh st I). lia.
  - by exists ws.
Qed.

Lemma send_registers_fresh_witness :
  let st := run awaiting_reply in
  requestId (sendToExtension 1500 (js "switchToURL") (switch_request "example.org") st).1
  = requestId st + 1.
Proof.
  intros st.
  apply (send_registers_fresh awaiting_reply 1500 (js "switchToURL")
           (switch_request "example.org")); vm_compute; reflexivity.
Defined.

Lemma reported_frame st st' :
  notified st' = notified st →
  extensionSocket st' = extensionSocket st →
  (onConnectionChange st = true → onConnectionChange st' = true) →
  reported st → reported st'.
Proof.
  intros Hn He Hc [R1 R2 R3]. constructor; rewrite ?Hn, ?He; auto.
Qed.

Lemma no_repeated_false_snoc l b :
  no_repeated_false l → (b = false → last l ≠ Some false) →
  no_repeated_false (l ++ [b]).
Proof.
  intros Hl Hb i Hi Hs.
  destruct (decide (S i < length l)%nat) as [Hlt|Hge].
  - rewrite lookup_app_l in Hi, Hs by lia. by apply (Hl i).
  - assert (S i = length l) as Hlen.
    { apply lookup_lt_Some in Hs. rewrite length_app in Hs. cbn in Hs. lia. }
    rewrite lookup_app_l in Hi by lia.
    rewrite lookup_app_r, Hlen, Nat.sub_diag in Hs by lia. cbn in Hs.
    injection Hs as ->. apply Hb; [done|].
    rewrite last_lookup. replace (pred (length l)) with i by lia. done.
Qed.

Ltac same_reports st :=
  apply (reported_frame st); [reflexivity|reflexivity|auto|assumption].

Lemma reported_step st e : reported st → reported (step st e).
Proof.
  intros R.
  destruct e as [| |ws|now m|ws code|ws rs|now action data|k]; cbn [step].
  - unfold start. destruct (started st); same_reports st.
  - same_reports st.
  - destruct R as [R1 R2 R3].
    assert (onConnectionChange st = false → notified st = []) as Hnil.
    { intros Hf. destruct (notified st); [done|]. rewrite R2 in Hf; done. }
    unfold on_connection, notify. cbn.
    repeat case_match; cbn in *; constructor; cbn;
      rewrite ?last_snoc; try done; try congruence;
      try (apply no_repeated_false_snoc; done);
      try (rewrite Hnil by done; done).
  - unfold handleExtensionMessage, sendRawToExtension.
    destruct (strict_eq_str (m_action m) (js "ping")).
    { cbn. repeat case_match; same_reports st. }
    destruct (get_pending _ _) as [[id e]|]; [|same_reports st].
    destruct (truthy (m_error m)); same_reports st.
  - destruct R as [R1 R2 R3].
    unfold on_close, notify. cbn. case_bool_decide as Hcur; [|by constructor].
    destruct (onConnectionChange st) eqn:Hcb; cbn.
    + constructor; cbn; [done|done|].
      apply no_repeated_false_snoc; [done|]. intros _ Hlast.
      apply R1 in Hlast. congruence.
    + constructor; cbn; [done| |done].
      intros H. apply R2 in H. congruence.
  - same_reports st.
  - unfold sendToExtension. cbn. repeat case_match; same_reports st.
  - destruct (timers st !! k) as [t|]; [|done].
    unfold timeout. case_bool_decide; same_reports st.
Qed.

Lemma reported_run tr : reported (run tr).
Proof.
  induction tr as [|e tr IH] using rev_ind.
  - constructor; cbn; done.
  - rewrite run_snoc. by apply reported_step.
Qed.

(** The listener of connection changes is never told twice in a row that
    the peer is gone: between two such reports it is told of a new
    connection.  In particular the close of a socket that has been replaced
    is not reported. *)
Theorem disconnect_reported_once (tr : list event) :
  no_repeated_false (notified (run tr)) ∧
  (last (notified (run tr)) = Some false → isConnected (run tr) = false).
Proof.
  destruct (reported_run tr) as [R1 _ R3]. split; [done|].
  intros H%R1. unfold isConnected. by rewrite H.
Qed.

Example replaced_peer_reports :
  notified (run replaced_peer) = [true; true; false].
Proof. vm_compute. reflexivity. Qed.

End BrokerSpec.

(* ===================================================================== *)
(** * The framing of native messages                                       *)
(* ===================================================================== *)

Module FramingSpec.
Import Framing FramingStatements.

Lemma low_byte_to_N n : Byte.to_N (low_byte n) = n mod 256.
Proof.
  unfold low_byte. destruct (Byte.of_N (n mod 256)) as [b|] eqn:E; cbn.
  - by apply Byte.to_of_N.
  - apply Byte.of_N_None_iff in E.
    pose proof (N.mod_upper_bound n 256 ltac:(done)). lia.
Qed.

Lemma uint32_round_trip n :
  n < 2 ^ 32 →
  ∃ header, writeUInt32LE n = Some header ∧ length header = 4%nat ∧
            ∀ rest, readUInt32LE (header ++ rest) = Some n.
Proof.
  intros Hn. unfold writeUInt32LE.
  destruct (N.ltb_spec n (2 ^ 32)) as [_|]; [|lia].
  eexists. split; [reflexivity|]. split; [reflexivity|]. intros rest.
  cbn [app readUInt32LE]. rewrite !low_byte_to_N. f_equal.
  change (2 ^ 8) with 256. change (2 ^ 16) with 65536.
  change (2 ^ 24) with 16777216. change (2 ^ 32) with 4294967296 in Hn.
  pose proof (N.div_mod n 256 ltac:(lia)).
  pose proof (N.div_mod (n / 256) 256 ltac:(lia)).
  pose proof (N.div_mod (n / 65536) 256 ltac:(lia)).
  pose proof (N.div_mod (n / 16777216) 256 ltac:(lia)).
  assert (n / 256 / 256 = n / 65536) by (rewrite N.Div0.div_div; reflexivity).
  assert (n / 65536 / 256 = n / 16777216) by (rewrite N.Div0.div_div; reflexivity).
  assert (n / 16777216 < 256) by (apply N.Div0.div_lt_upper_bound; lia).
  assert (n / 16777216 / 256 = 0) by (apply N.div_small; lia).
  lia.
Qed.

Lemma write_chars_length room chars : (length (write_chars room chars) ≤ room)%nat.
Proof.
  revert room. induction chars as [|ch rest IH]; intros room; cbn; [lia|].
  case_bool_decide; cbn; [|lia].
  rewrite length_app. pose proof (IH (room - length ch)%nat). lia.
Qed.

Lemma write_chars_fit room chars :
  (length (concat chars) ≤ room)%nat → write_chars room chars = concat chars.
Proof.
  revert room. induction chars as [|ch rest IH]; intros room; cbn; [done|].
  rewrite length_app. intros H. rewrite bool_decide_eq_true_2 by lia.
  f_equal. apply IH. lia.
Qed.

Lemma utf8_ascii s :
  Forall (λ c, c < 128) s → utf8_chars s = (λ c, [low_byte c]) <$> s.
Proof.
  induction 1 as [|c r Hc _ IH]; cbn [utf8_chars]; [done|].
  destruct (N.ltb_spec c 128); [|lia]. by rewrite IH.
Qed.

Lemma utf8_ascii_length s : Forall (λ c, c < 128) s → length (utf8 s) = length s.
Proof.
  intros H. unfold utf8. rewrite (utf8_ascii s H).
  clear H. induction s as [|c r IH]; cbn; [done|]. by rewrite IH.
Qed.

(** Every frame has four bytes more than the text has code units, and
    its header holds the number of code units. *)
Lemma frame_shape json :
  N.of_nat (length json) < 2 ^ 32 →
  ∃ header body,
    writeNativeMessage json = Some (header ++ body) ∧
    length header = 4%nat ∧ length body = length json ∧
    (∀ rest, readUInt32LE (header ++ rest) = Some (N.of_nat (length json))) ∧
    body = write_chars (length json) (utf8_chars json)
           ++ replicate (length json
                         - length (write_chars (length json) (utf8_chars json)))
                Byte.x00.
Proof.
  intros Hlen. unfold writeNativeMessage.
  destruct (uint32_round_trip _ Hlen) as (header & -> & Hh & Hread).
  exists header. eexists. split; [reflexivity|]. split_and!; [done| |done|done].
  rewrite length_app, length_replicate.
  pose proof (write_chars_length (length json) (utf8_chars json)). lia.
Qed.

Lemma utf8_length_aux n :
  ∀ s, (length s ≤ n)%nat →
       (length s ≤ length (utf8 s))%nat ∧
       (Exists (λ c, 128 ≤ c) s → (length s < length (utf8 s))%nat).
Proof.
  unfold utf8. induction n as [|n IH]; intros s Hs.
  { destruct s; [|cbn in Hs; lia]. split; [done|]. by intros ?%Exists_nil. }
  destruct s as [|c r]; [split; [done|by intros ?%Exists_nil]|].
  cbn in Hs. destruct (IH r ltac:(lia)) as [Hr Hr'].
  cbn [utf8_chars].
  destruct (N.ltb_spec c 128) as [Hc|Hc].
  { cbn. split; [lia|]. intros [?|?]%Exists_cons; [lia|]. specialize (Hr' H). lia. }
  destruct (c <? 2048); [cbn; split; [|intros _]; lia|].
  destruct (high_surrogate c).
  - destruct r as [|d r']; [cbn; split; [|intros _]; lia|].
    destruct (low_surrogate d).
    + cbn in Hs. destruct (IH r' ltac:(lia)) as [Hr2 _].
      cbn. split; [|intros _]; lia.
    + cbn [concat]. rewrite length_app. change (length replacement) with 3%nat.
      cbn [length] in *. split; [|intros _]; lia.
  - destruct (low_surrogate c); cbn [concat]; rewrite length_app;
      [change (length replacement) with 3%nat
      |change (length (utf8_3 c)) with 3%nat];
      cbn [length]; (split; [|intros _]; lia).
Qed.

(** A text with a character outside ASCII does not fit its frame: the
    frame still has [4 + json.length] bytes and announces [json.length],
    which is less than the UTF-8 text takes, so the body is not the text. *)
Theorem frame_cuts_non_ascii (json : jsstring) :
  Exists (λ c, 128 ≤ c) json →
  N.of_nat (length json) < 2 ^ 32 →
  ∃ header body,
    writeNativeMessage json = Some (header ++ body) ∧
    length header = 4%nat ∧
    (∀ rest, readUInt32LE (header ++ rest) = Some (N.of_nat (length json))) ∧
    (length body = length json)%nat ∧
    (length body < length (utf8 json))%nat ∧
    body ≠ utf8 json.
Proof.
  intros Hnon Hlen.
  destruct (frame_shape json Hlen) as (header & body & Hw & Hh & Hb & Hread & _).
  destruct (utf8_length_aux (length json) json ltac:(done)) as [_ Hlt].
  specialize (Hlt Hnon).
  exists header, body. split_and!; try done; [lia|].
  intros ->. lia.
Qed.

Lemma frame_cuts_non_ascii_witness :
  ∃ header body,
    writeNativeMessage accented_text = Some (header ++ body) ∧
    length header = 4%nat ∧
    (∀ rest, readUInt32LE (header ++ rest)
             = Some (N.of_nat (length accented_text))) ∧
    (length body = length accented_text)%nat ∧
    (length body < length (utf8 accented_text))%nat ∧
    body ≠ utf8 accented_text.
Proof.
  apply frame_cuts_non_ascii.
  - apply Exists_cons_tl, Exists_cons_hd. done.
  - vm_compute. reflexivity.
Defined.

Example accented_frame :
  writeNativeMessage accented_text
  = Some [Byte.x03; Byte.x00; Byte.x00; Byte.x00; Byte.x22; Byte.xc3; Byte.xa9].
Proof. vm_compute. reflexivity. Qed.

(** Section over the parser of the message text. *)
Section Reading.
Context {A : Type} (parse : buffer → option A).

(** A text of ASCII characters makes the round trip: what
    [writeNativeMessage] writes for it, followed by anything, is read back
    by [readNativeMessage] as one frame of [4 + json.length] bytes whose
    body is the text. *)
Theorem frame_round_trip (json : jsstring) (message : A) (rest : buffer) :
  Forall (λ c, c < 128) json →
  N.of_nat (length json) < 2 ^ 32 →
  parse (utf8 json) = Some message →
  ∃ frame, writeNativeMessage json = Some frame ∧
           length frame = (4 + length json)%nat ∧
           readNativeMessage parse (frame ++ rest)
           = Frame message (4 + length json).
Proof.
  intros Hascii Hlen Hparse.
  destruct (frame_shape json Hlen) as (header & body & Hw & Hh & Hb & Hread & Hbody).
  exists (header ++ body). split; [done|]. split; [rewrite length_app; lia|].
  assert (body = utf8 json) as ->.
  { rewrite Hbody, write_chars_fit.
    - fold (utf8 json). rewrite utf8_ascii_length by done.
      rewrite Nat.sub_diag. cbn. by rewrite app_nil_r.
    - fold (utf8 json). by rewrite utf8_ascii_length. }
  unfold readNativeMessage. rewrite <- app_assoc, Hread.
  rewrite bool_decide_eq_false_2
    by (rewrite !length_app, Hh, Hb; lia).
  rewrite Nat2N.id, drop_app_length' by done.
  rewrite take_app_length' by done. by rewrite Hparse.
Qed.

(** ** The loop of the [data] handler *)


Lemma readUInt32LE_app b c len :
  readUInt32LE b = Some len → readUInt32LE (b ++ c) = Some len.
Proof. by destruct b as [|? [|? [|? [|? ?]]]]. Qed.

(** A frame that is whole, or whose text does not parse, is read the same
    whatever follows it. *)
Lemma read_extend b c :
  readNativeMessage parse b ≠ Incomplete →
  readNativeMessage parse (b ++ c) = readNativeMessage parse b.
Proof.
  unfold readNativeMessage. destruct (readUInt32LE b) as [len|] eqn:E; [|done].
  rewrite (readUInt32LE_app _ _ _ E).
  case_bool_decide as Hlen; [done|]. intros _.
  rewrite bool_decide_eq_false_2 by (rewrite length_app; lia).
  rewrite drop_app_le by lia.
  by rewrite take_app_le by (rewrite length_drop; lia).
Qed.




End Reading.

Lemma frame_round_trip_witness :
  ∃ frame, writeNativeMessage (js "{}") = Some frame ∧
           length frame = 6%nat ∧
           readNativeMessage Some (frame ++ [Byte.x01])
           = Frame (utf8 (js "{}")) 6.
Proof.
  apply (frame_round_trip Some (js "{}") (utf8 (js "{}")) [Byte.x01]).
  - repeat constructor.
  - vm_compute. reflexivity.
  - reflexivity.
Defined.


(** ** The [data] handler *)

Section Stdin.
Import NativeHost NativeHostEvents.
Context (parse : buffer → option (option message)).




End Stdin.



(** A frame whose message is [null] is taken off the buffer, and the
    exception of [handleChromeMessage] leaves the loop: the whole frame
    behind it stays in [inputBuffer] until the next chunk arrives, while it
    is handled at once when it arrives in a chunk of its own. *)
Example null_frame_delays :
  NativeHostEvents.on_data sample_parse (null_frame ++ object_frame)
    ([], NativeHostEvents.init)
  = (object_frame, NativeHostEvents.init) ∧
  NativeHostEvents.on_data sample_parse object_frame
    (NativeHostEvents.on_data sample_parse null_frame ([], NativeHostEvents.init))
  = ([], NativeHost.handleChromeMessage empty_message NativeHostEvents.init).
Proof. vm_compute. done. Qed.

(** A frame whose text does not parse stays at the head of [inputBuffer]:
    the exception leaves the loop before the frame is taken off, so from
    then on every chunk is only appended, and no message of the browser is
    handled any more. *)
Theorem malformed_frame_blocks
    (parse : buffer → option (option NativeHost.message))
    (buf : buffer) (st : NativeHost.state) (chunks : list buffer) :
  readNativeMessage parse buf = Malformed →
  foldl (λ s chunk, NativeHostEvents.on_data parse chunk s) (buf, st) chunks
  = (buf ++ concat chunks, st).
Proof.
  intros Hbad. revert buf Hbad.
  induction chunks as [|chunk chunks IH]; intros buf Hbad; cbn [foldl concat].
  - by rewrite app_nil_r.
  - assert (readNativeMessage parse (buf ++ chunk) = Malformed) as Hbad'
      by (rewrite read_extend; [done|by rewrite Hbad]).
    unfold NativeHostEvents.on_data at 2. cbn [fst snd NativeHostEvents.data_loop].
    rewrite Hbad'. rewrite IH by done. by rewrite <- app_assoc.
Qed.

Lemma malformed_frame_blocks_witness :
  foldl (λ s chunk, NativeHostEvents.on_data (λ _, None) chunk s)
        (brace_frame, NativeHostEvents.init) [[Byte.x02]; [Byte.x00; Byte.x00]]
  = (brace_frame ++ concat [[Byte.x02]; [Byte.x00; Byte.x00]],
     NativeHostEvents.init).
Proof. apply malformed_frame_blocks. reflexivity. Defined.

End FramingSpec.

(* ===================================================================== *)
(** * More on the native host                                              *)
(* ===================================================================== *)

Module NativeSpec.
Import Framing NativeHost NativeHostEvents NativeStatements TimeoutStatements.
Import ExtensionServerSpec TimeoutSpec FramingSpec.

Lemma native_get_pending_Some key st id p :
  get_pending key st = Some (id, p) →
  key = JNum (Z.of_N id) ∧ pendingRequests st !! id = Some p.
Proof.
  unfold get_pending. destruct key as [| |?|z|?|?]; try done.
  destruct (Z.leb_spec 0 z); [|done].
  destruct (pendingRequests st !! Z.to_N z) eqn:E; cbn; [|done].
  intros [= <- <-]. split; [|done]. f_equal. lia.
Qed.

(** The host forwards the message of the browser as it came: the reply
    that reaches the Stream Deck client carries the number the host gave
    the request, not the [id] the client sent, because the [id] of the
    message overwrites [originalId] in the object literal.  The entry
    leaves the table whether or not the client's socket is still open. *)
Theorem reply_keeps_host_id (m : message) (st : state) (id : N) (p : pending) :
  get_pending (m_id m) st = Some (id, p) →
  let st' := handleChromeMessage m st in
  m_id m = JNum (Z.of_N id) ∧
  pendingRequests st' = delete id (pendingRequests st) ∧
  ws_sent st' = (if bool_decide (readyState st !! ws p = Some OPEN)
                 then ws_sent st ++ [(ws p, m)] else ws_sent st).
Proof.
  intros G. unfold handleChromeMessage. rewrite G.
  apply native_get_pending_Some in G as [Hid Hp]. split; [done|].
  assert (spread_response (originalId p) m = m) as ->.
  { unfold spread_response. rewrite Hid. rewrite <- Hid. by destruct m. }
  by case_bool_decide.
Qed.

Lemma reply_keeps_host_id_witness :
  let st := run plain_json one_client in
  let st' := handleChromeMessage (browser_reply 1) st in
  m_id (browser_reply 1) = JNum (Z.of_N 1) ∧
  pendingRequests st' = delete 1 (pendingRequests st) ∧
  ws_sent st'
    = (if bool_decide (readyState st !! 3%nat = Some OPEN)
       then ws_sent st ++ [(3%nat, browser_reply 1)] else ws_sent st).
Proof.
  apply (reply_keeps_host_id (browser_reply 1) (run plain_json one_client) 1
           {| ws := 3%nat; originalId := JNum 41; timestamp := 100 |}).
  vm_compute. reflexivity.
Defined.

Example reply_reaches_client_with_host_id :
  ws_sent (run plain_json (one_client ++ [FromChrome (browser_reply 1)]))
  = [(3%nat, browser_reply 1)].
Proof. vm_compute. reflexivity. Qed.

(** The counter of the loop is the number of entries it removed. *)
Lemma sweep_loop_count now (m0 m : gmap N pending) :
  (map_fold (sweep_entry now) (m0, 0) m).2
  = N.of_nat (size (filter (λ kv, expired now kv.2) m)).
Proof.
  apply (map_fold_weak_ind
    (λ r m, r.2 = N.of_nat (size (filter (λ kv, expired now kv.2) m)))).
  - by rewrite map_filter_empty.
  - intros i x m' r Hi IH. unfold sweep_entry.
    rewrite (bool_decide_ext _ (expired now x)) by done.
    case_bool_decide as Hx; cbn.
    + rewrite map_filter_insert_True by done.
      rewrite map_size_insert_None by (by rewrite map_lookup_filter, Hi).
      rewrite IH. lia.
    + rewrite map_filter_insert_False by done.
      by rewrite delete_id.
Qed.

(** A sweep that finds nothing older than 30 seconds changes nothing, not
    even the log; hence a second sweep at the same time does nothing more
    than the first. *)
Theorem sweep_settles (now : Z) (st : state) :
  ((∀ id p, pendingRequests st !! id = Some p → (now - timestamp p ≤ 30000)%Z) →
   sweep now st = st) ∧
  sweep now (sweep now st) = sweep now st.
Proof.
  assert (∀ st0, (∀ id p, pendingRequests st0 !! id = Some p →
                          (now - timestamp p ≤ 30000)%Z) →
                 sweep now st0 = st0) as Hyoung.
  { intros st0 Hall.
    pose proof (sweep_table now st0) as Ht.
    pose proof (sweep_loop_count now (pendingRequests st0) (pendingRequests st0)) as Hc.
    unfold sweep in *. destruct (map_fold _ _ _) as [table cleaned]. cbn in *.
    assert (filter (λ kv, expired now kv.2) (pendingRequests st0) = ∅) as He.
    { apply map_empty. intros id. apply map_lookup_filter_None. right.
      intros p Hp Hexp. cbn in Hexp.
      specialize (Hall id p Hp). unfold expired in Hexp. lia. }
    rewrite He, map_size_empty in Hc. subst cleaned. cbn.
    rewrite Ht. rewrite map_filter_id; [by destruct st0|].
    intros id p Hp Hexp. specialize (Hall id p Hp). cbn in Hexp.
    unfold expired in Hexp. lia. }
  split; [apply Hyoung|]. apply Hyoung.
  intros id p. rewrite sweep_table. intros [_ Hkeep]%map_lookup_filter_Some.
  cbn in Hkeep. unfold expired in Hkeep. lia.
Qed.

Lemma sweep_settles_witness :
  sweep 20000 (run plain_json one_client) = run plain_json one_client.
Proof.
  apply sweep_settles. intros id p Hp.
  assert (pendingRequests (run plain_json one_client)
          = <[1 := {| ws := 3%nat; originalId := JNum 41; timestamp := 100 |}]> ∅)
    as Heq by reflexivity.
  rewrite Heq in Hp. apply lookup_insert_Some in Hp as [[_ <-]|[_ Hp]].
  - cbn. lia.
  - by rewrite lookup_empty in Hp.
Defined.






(** The text of a message, and the frame written for a URL that ends in
    an [e] with an acute accent: the body is one byte short of the text,
    whose closing brace is missing. *)
Example forwarded_text :
  plain_json {| n_id := 2; n_action := JStr (js "ping"); n_url := JUndefined;
                n_tabId := JNum 7; n_windowId := JNull |}
  = [123; 34] ++ js "id" ++ [34; 58] ++ js "2" ++ [44; 34] ++ js "action"
    ++ [34; 58; 34] ++ js "ping" ++ [34; 44; 34] ++ js "tabId" ++ [34; 58]
    ++ js "7" ++ [44; 34] ++ js "windowId" ++ [34; 58] ++ js "null" ++ [125].
Proof. vm_compute. reflexivity. Qed.

Example accented_request_cut :
  ∃ frame,
    stdout (handleStreamDeckMessage plain_json 3 0 accented_request init) = [frame] ∧
    drop 4 frame ++ [Byte.x7d]
    = utf8 (plain_json {| n_id := 1; n_action := JStr (js "switchToURL");
                          n_url := JStr (js "caf" ++ [233]);
                          n_tabId := JUndefined; n_windowId := JUndefined |}).
Proof. eexists. split; vm_compute; reflexivity. Qed.

End NativeSpec.

(* ===================================================================== *)
(** * The connection of the extension to the plugin                        *)
(* ===================================================================== *)

Module DialerSpec.
Import Background Dialer DialerStatements.

Lemma filter_single (id : positive) : filter (λ t, t ≠ id) [id] = [].
Proof. rewrite filter_cons, filter_nil. by rewrite decide_False by (by intros ?). Qed.

Lemma alive_insert st st' s rs s' :
  readyState st' = <[s := rs]> (readyState st) →
  alive st' s' ↔ (s' = s ∧ rs ≠ CLOSED) ∨ (s' ≠ s ∧ alive st s').
Proof.
  unfold alive. intros ->. destruct (decide (s' = s)) as [->|Hne].
  - rewrite lookup_insert_eq. split.
    + intros (? & [= <-] & ?). by left.
    + intros [[_ ?]|[? _]]; [by eexists|done].
  - rewrite lookup_insert_ne by done. split; [by right|by intros [[? _]|[_ ?]]].
Qed.

Lemma alive_same st st' s :
  readyState st' = readyState st → alive st' s ↔ alive st s.
Proof. unfold alive. by intros ->. Qed.

Lemma dial_inv_init constructed : dial_inv (connectWebSocket constructed fresh).
Proof.
  destruct constructed; constructor; unfold alive; cbn; try done.
  - intros s (rs & Hs & _). apply lookup_insert_Some in Hs as [[<- _]|[_ Hs]];
      [done|by rewrite lookup_empty in Hs].
  - intros s [= <-]. split_and!; [|done|by intros [? ?]].
    exists CONNECTING. by rewrite lookup_insert_eq.
  - intros s (rs & Hs & _). by rewrite lookup_empty in Hs.
Qed.

Lemma dial_inv_frame st st' :
  websocket st' = websocket st →
  reconnectTimer st' = reconnectTimer st →
  keepAliveTimer st' = keepAliveTimer st →
  readyState st' = readyState st →
  timeouts st' = timeouts st →
  intervals st' = intervals st →
  dial_inv st → dial_inv st'.
Proof.
  intros Hw Hr Hk Hs Ht Hi [? ? ? ? ?].
  constructor; unfold alive in *; rewrite ?Hw, ?Hr, ?Hk, ?Hs, ?Ht, ?Hi; done.
Qed.

Lemma dial_inv_send m st : dial_inv st → dial_inv (sendToPlugin m st).
Proof.
  intros I. unfold sendToPlugin. destruct (websocket st) eqn:E; [|done].
  destruct (is_open st); [|done]. by apply (dial_inv_frame st).
Qed.

Lemma dial_inv_step st e : dial_inv st → dial_inv (step st e).
Proof.
  intros I.
  pose proof (di_timeouts st I) as Ht. pose proof (di_intervals st I) as Hi.
  destruct e as [s|s|s|s|r|id constructed|id]; cbn [step].
  - (* a socket that was connecting opens *)
    case_bool_decide as Hs; [|done].
    assert (websocket st = Some s) as Hw
      by (apply (di_only st I); by exists CONNECTING).
    destruct (di_socket st I s Hw) as (_ & Hrt & Hka).
    assert (keepAliveTimer st = None) as Hk.
    { destruct (keepAliveTimer st) eqn:E; [|done]. by destruct Hka. }
    rewrite Hrt in Ht. rewrite Hk in Hi. cbn in Ht, Hi.
    unfold onopen, startKeepAlive, stopKeepAlive, clearReconnectTimer.
    cbn. rewrite Hrt. cbn. rewrite Hk. cbn.
    constructor; cbn; rewrite ?Ht, ?Hi, ?Hrt, ?Hw; try done.
    + intros s' Ha. apply (alive_insert st _ s OPEN) in Ha; [|done].
      destruct Ha as [[-> _]|[_ Ha]]; [done|].
      rewrite <- Hw. by apply (di_only st I).
    + intros s' [= <-]. split_and!; [|done|].
      * apply (alive_insert st _ s OPEN); [done|]. by left.
      * intros _. by rewrite lookup_insert_eq.
  - (* an open socket starts closing *)
    case_bool_decide as Hs; [|done].
    assert (websocket st = Some s) as Hw by (apply (di_only st I); by exists OPEN).
    destruct (di_socket st I s Hw) as (_ & Hrt & Hka).
    constructor; cbn; rewrite ?Hw; try done.
    + intros s' Ha. apply (alive_insert st _ s CLOSING) in Ha; [|done].
      destruct Ha as [[-> _]|[_ Ha]]; [done|].
      rewrite <- Hw. by apply (di_only st I).
    + intros s' [= <-]. split_and!; [|done|].
      * apply (alive_insert st _ s CLOSING); [done|]. by left.
      * intros _. by rewrite lookup_insert_eq.
  - (* a socket closes *)
    destruct (readyState st !! s) as [rs|] eqn:Hs; [|done].
    assert (rs = CLOSED ∨ rs ≠ CLOSED) as [->|Hrs] by (destruct rs; auto); [done|].
    assert (websocket st = Some s) as Hw by (apply (di_only st I); by exists rs).
    destruct (di_socket st I s Hw) as (_ & Hrt & _).
    rewrite Hrt in Ht. cbn in Ht.
    assert (dial_inv (onclose (set_readyState s CLOSED st))) as Hgoal; [|by destruct rs].
    unfold onclose, scheduleReconnect, stopKeepAlive. cbn.
    destruct (keepAliveTimer st) as [k|] eqn:Hk; cbn in Hi |- *; rewrite Hrt; cbn;
      (constructor; cbn; rewrite ?Ht, ?Hi, ?filter_single; try done;
       intros s' Ha; apply (alive_insert st _ s CLOSED) in Ha; [|done];
       destruct Ha as [[_ ?]|[Hne Ha]]; [done|];
       apply (di_only st I) in Ha; congruence).
  - done.
  - by apply dial_inv_send.
  - (* the reconnect timer fires *)
    case_bool_decide as Hid; [|done].
    rewrite Ht in Hid. destruct (reconnectTimer st) as [id'|] eqn:Hrt;
      [|by apply elem_of_nil in Hid].
    apply list_elem_of_singleton in Hid as ->. cbn in Ht.
    assert (websocket st = None) as Hw.
    { destruct (websocket st) as [s|] eqn:E; [|done].
      destruct (di_socket st I s E) as (_ & ? & _). congruence. }
    destruct (di_none st I Hw) as [_ Hk]. rewrite Hk in Hi. cbn in Hi.
    unfold reconnect, connectWebSocket, is_open, scheduleReconnect. cbn.
    rewrite Hw, Ht. cbn. rewrite decide_False by (by intros ?).
    destruct constructed; constructor; cbn; rewrite ?Hk, ?Hi; try done.
    + intros s' Ha. apply (alive_insert st _ (next_socket st) CONNECTING) in Ha; [|done].
      destruct Ha as [[-> _]|[_ Ha]]; [done|].
      apply (di_only st I) in Ha. congruence.
    + intros s' [= <-]. split_and!; [|done|by intros [? ?]].
      apply (alive_insert st _ (next_socket st) CONNECTING); [done|]. by left.
    + intros s' Ha. apply (alive_same st) in Ha; [|done].
      apply (di_only st I) in Ha. congruence.
  - case_bool_decide; [|done]. unfold keepAlive.
    destruct (is_open st); [by apply dial_inv_send|done].
Qed.

Lemma dial_inv_run constructed tr : dial_inv (run constructed tr).
Proof.
  induction tr as [|e tr IH] using rev_ind; [apply dial_inv_init|].
  unfold run. rewrite foldl_snoc. by apply dial_inv_step.
Qed.

(** No overlapping reconnection and no gap: after every event the
    extension either holds a socket that has not closed, and then no
    reconnection is scheduled, or holds none, and then exactly one
    reconnection timer is armed.  No socket other than the one held is
    alive. *)
Theorem socket_or_reconnect (constructed : bool) (tr : list event) :
  let st := run constructed tr in
  timeouts st = held (reconnectTimer st) ∧
  (∀ s, alive st s → websocket st = Some s) ∧
  match websocket st with
  | Some s => alive st s ∧ timeouts st = []
  | None => ∃ id, timeouts st = [id]
  end.
Proof.
  intros st. pose proof (dial_inv_run constructed tr) as I. fold st in I.
  split_and!; [apply I|apply I|].
  destruct (websocket st) as [s|] eqn:Hw.
  - destruct (di_socket st I s Hw) as (Ha & Hrt & _). split; [done|].
    by rewrite (di_timeouts st I), Hrt.
  - destruct (di_none st I Hw) as [[id Hid] _]. exists id.
    by rewrite (di_timeouts st I), Hid.
Qed.

(** At most one keep-alive interval runs, the one [keepAliveTimer] holds,
    and only while the socket held is open or closing: it is stopped as
    soon as the socket has closed, and a ping is written to an open socket
    only. *)
Theorem one_keepalive (constructed : bool) (tr : list event) :
  let st := run constructed tr in
  intervals st = held (keepAliveTimer st) ∧
  (is_Some (keepAliveTimer st) →
   ∃ s, websocket st = Some s ∧
        (readyState st !! s = Some OPEN ∨ readyState st !! s = Some CLOSING)) ∧
  (∀ id, written (step st (IntervalFires id))
         = match websocket st with
           | Some s => if bool_decide (id ∈ intervals st) && is_open st
                       then written st ++ [(s, OutPing)] else written st
           | None => written st
           end).
Proof.
  intros st. pose proof (dial_inv_run constructed tr) as I. fold st in I.
  split_and!; [apply I| |].
  - intros Hk. destruct (websocket st) as [s|] eqn:Hw.
    + exists s. split; [done|].
      destruct (di_socket st I s Hw) as ((rs & Hrs & Hnc) & _ & Hconn).
      specialize (Hconn Hk). rewrite Hrs in *. destruct rs; auto; done.
    + destruct (di_none st I Hw) as [_ Hnone]. rewrite Hnone in Hk.
      by destruct Hk.
  - intros id. cbn [step]. unfold keepAlive, sendToPlugin, is_open.
    destruct (websocket st) as [s|]; [|by case_bool_decide].
    case_bool_decide; cbn [andb]; [|done].
    by destruct (bool_decide (readyState st !! s = Some OPEN)).
Qed.

Example late_plugin_timers :
  timeouts (run false late_plugin) = [3%positive] ∧
  intervals (run false late_plugin) = [] ∧
  written (run false late_plugin) = [(0%nat, OutPing)].
Proof. vm_compute. done. Qed.

End DialerSpec.

(* ===================================================================== *)
(** * Properties of the plugin's event handlers                            *)
(* ===================================================================== *)

Module PluginSpec.
Import URLSwitcherPlugin ButtonStatements URLSwitcherPluginSpec.
Import PluginEvents PluginStatements.

Lemma before_slash_length s : (length (before_slash s) ≤ length s)%nat.
Proof.
  induction s as [|c r IH]; cbn; [lia|]. destruct (c =? 47); cbn; lia.
Qed.

Lemma before_slash_no_slash s : 47 ∉ before_slash s.
Proof.
  induction s as [|c r IH]; cbn; [by intros ?%elem_of_nil|].
  destruct (N.eqb_spec c 47); [by intros ?%elem_of_nil|].
  intros [?|?]%elem_of_cons; [congruence|done].
Qed.

(** The snippet shown on a button is at most 12 code units long and holds
    no [/], whatever the URL is. *)
Theorem getURLSnippet_short (url : jsval) :
  (length (getURLSnippet url) ≤ 12)%nat ∧ 47 ∉ getURLSnippet url.
Proof.
  unfold getURLSnippet. destruct (truthy url); cbn [negb];
    [|split; [cbn; lia|by intros ?%elem_of_nil]].
  destruct url as [| |b|z|u|r]; try (split; [cbn; lia|by intros ?%elem_of_nil]).
  rewrite split_head.
  pose proof (before_slash_no_slash (replace_www (replace_protocol u))) as Hno.
  revert Hno. generalize (before_slash (replace_www (replace_protocol u))).
  intros d Hno. destruct (N.ltb_spec 12 (N.of_nat (length d))).
  - split.
    + rewrite length_app, length_take. unfold ellipsis. cbn [length]. lia.
    + intros [Hin|Hin]%elem_of_app.
      * apply elem_of_take in Hin as (i & Hi & _).
        apply Hno. by eapply list_elem_of_lookup_2.
      * unfold ellipsis in Hin. apply list_elem_of_singleton in Hin. done.
  - split; [lia|done].
Qed.

Lemma title_spec (s : settings) :
  (if truthy (title s) then title s else JStr (getURLSnippet (url s)))
  = spec_title s true.
Proof.
  unfold spec_title. destruct (truthy (title s)); [done|]. f_equal.
  destruct (url s) as [| |b|z|u|r]; try reflexivity.
  - unfold getURLSnippet. by destruct (truthy (JBool b)).
  - unfold getURLSnippet. by destruct (truthy (JNum z)).
  - apply getURLSnippet_spec.
Qed.

Lemma sends_only_refl st : sends_only st st [].
Proof. unfold sends_only. split_and!; try done. case_bool_decide; by rewrite app_nil_r. Qed.

Lemma sends_only_trans st1 st2 st3 l1 l2 :
  sends_only st1 st2 l1 → sends_only st2 st3 l2 → sends_only st1 st3 (l1 ++ l2).
Proof.
  intros (A1&A2&A3&A4&A5&A6&A7) (B1&B2&B3&B4&B5&B6&B7).
  unfold sends_only. split_and!; try congruence.
  rewrite B7, A7, A1. destruct (bool_decide (websocket st1 = Some OPEN)).
  - by rewrite app_assoc.
  - by rewrite !app_nil_r.
Qed.

Lemma send_sends_only p st : sends_only st (send p st) [p].
Proof.
  unfold send, sends_only.
  destruct (websocket st) as [[]|] eqn:E; cbn; rewrite ?E; split_and!; try done;
    by rewrite app_nil_r.
Qed.

Lemma updateButtonState_sends context connected st :
  sends_only st (updateButtonState context connected st) (shown st connected context).
Proof.
  unfold sends_only, updateButtonState, shown. cbn. split_and!; try done.
  f_equal. unfold URLSwitcherPlugin.updateButtonState, setState, setTitle,
    URLSwitcherPlugin.send. cbn.
  destruct connected; [rewrite title_spec|];
    destruct (websocket st) as [[]|]; reflexivity.
Qed.

Lemma shown_same st st' connected context :
  actionSettings st' = actionSettings st →
  shown st' connected context = shown st connected context.
Proof. intros H. unfold shown. by rewrite H. Qed.

Lemma update_each_sends connected l st :
  sends_only st
    (foldl (λ st context, updateButtonState context connected st) st l)
    (l ≫= shown st connected).
Proof.
  revert st. induction l as [|c l IH]; intros st; [apply sends_only_refl|].
  cbn [foldl]. change ((c :: l) ≫= shown st connected)
    with (shown st connected c ++ (l ≫= shown st connected)).
  eapply sends_only_trans; [apply updateButtonState_sends|].
  pose proof (updateButtonState_sends c connected st) as (_&_&Hs&_).
  replace (l ≫= shown st connected)
    with (l ≫= shown (updateButtonState c connected st) connected); [apply IH|].
  apply list_bind_ext; [|done]. intros x. by apply shown_same.
Qed.

Lemma onExtensionConnectionChange_sends connected st :
  sends_only st (onExtensionConnectionChange connected st) (refresh st connected).
Proof.
  unfold onExtensionConnectionChange, refresh.
  pose proof (update_each_sends connected (activeContexts st) st) as H. exact H.
Qed.

Lemma refresh_same st st' connected :
  actionSettings st' = actionSettings st →
  activeContexts st' = activeContexts st →
  refresh st' connected = refresh st connected.
Proof.
  intros Ha Hc. unfold refresh. rewrite Hc.
  apply list_bind_ext; [|done]. intros x. by apply shown_same.
Qed.

Lemma report_each_sends reports st :
  sends_only st
    (foldl (λ st connected, onExtensionConnectionChange connected st) st reports)
    (reports ≫= refresh st).
Proof.
  revert st. induction reports as [|b l IH]; intros st; [apply sends_only_refl|].
  cbn [foldl]. change ((b :: l) ≫= refresh st) with (refresh st b ++ (l ≫= refresh st)).
  eapply sends_only_trans; [apply onExtensionConnectionChange_sends|].
  pose proof (onExtensionConnectionChange_sends b st) as (_&_&Hs&Hc&_).
  replace (l ≫= refresh st)
    with (l ≫= refresh (onExtensionConnectionChange b st)); [apply IH|].
  apply list_bind_ext; [|done]. intros x. by apply refresh_same.
Qed.

(** An operation of the server changes the server, and sends the buttons
    their display once for each report it makes. *)
Lemma with_server_spec f st :
  let st' := with_server f st in
  let reports := drop (length (ExtensionServer.notified (server st)))
                      (ExtensionServer.notified (f (server st))) in
  websocket st' = websocket st ∧ globalSettings st' = globalSettings st ∧
  actionSettings st' = actionSettings st ∧
  activeContexts st' = activeContexts st ∧
  suspensions st' = suspensions st ∧ server st' = f (server st) ∧
  sent st' = sent st ++ (if bool_decide (websocket st = Some OPEN)
                          then reports ≫= refresh st else []).
Proof.
  cbn zeta. unfold with_server.
  set (reports := drop _ _).
  pose proof (report_each_sends reports (set_server (f (server st)) st))
    as (A1&A2&A3&A4&A5&A6&A7).
  split_and!; done.
Qed.

Lemma plugin_run_snoc tr e : run (tr ++ [e]) = step (run tr) e.
Proof. unfold run. by rewrite foldl_app. Qed.

(** ** The server as the plugin drives it *)

Lemma resume_sends s success st :
  ∃ l, sends_only st (resume s success st) l ∧ (length l ≤ 1)%nat.
Proof.
  unfold resume, showOk, showAlert.
  destruct (outcome (awaited s) st) as [[response|text]|].
  - destruct (_ && _); eexists; (split; [apply send_sends_only|cbn; lia]).
  - eexists; (split; [apply send_sends_only|cbn; lia]).
  - exists []. split; [apply sends_only_refl|cbn; lia].
Qed.

Lemma server_step st e :
  ∃ l, server (step st e) = foldl ExtensionServer.step (server st) l.
Proof.
  destruct e as [|rs|now m|e|k success]; cbn [step].
  - exists [ExtensionServer.SetCallback; ExtensionServer.Start].
    unfold on_open.
    match goal with |- server (with_server ?f ?s) = _ =>
      pose proof (with_server_spec f s) as (_&_&_&_&_&Hs&_) end.
    rewrite Hs. pose proof (send_sends_only Register
      {| websocket := Some OPEN; globalSettings := globalSettings st;
         actionSettings := actionSettings st; activeContexts := activeContexts st;
         sent := sent st; suspensions := suspensions st; server := server st |})
      as (_&_&_&_&_&Hsrv&_).
    rewrite Hsrv. reflexivity.
  - by exists [].
  - unfold handleStreamDeckMessage.
    destruct (strict_eq_str (event m) (js "keyDown")).
    { unfold onKeyDown, showAlert.
      destruct (truthy (url _)); cbn [negb].
      - exists [ExtensionServer.Send now (js "switchToURL")
          {| ExtensionServer.p_url :=
               url (default empty_settings (actionSettings st !! context m));
             ExtensionServer.p_tabId := JUndefined;
             ExtensionServer.p_windowId := JUndefined |}].
        unfold switchToURL. cbn [foldl ExtensionServer.step].
        by destruct (ExtensionServer.sendToExtension _ _ _ _).
      - exists []. apply (send_sends_only (ShowAlert (context m)) st). }
    exists []. cbn [foldl].
    repeat (match goal with |- context [if ?c then _ else _] => destruct c end);
      try reflexivity.
    + unfold onPropertyInspectorConnected. apply send_sends_only.
    + unfold onSendToPlugin. destruct (strict_eq_str _ _); [|done].
      apply send_sends_only.
  - exists [e].
    match goal with |- server (with_server ?f ?s) = _ =>
      pose proof (with_server_spec f s) as (_&_&_&_&_&Hs&_) end.
    by rewrite Hs.
  - exists []. cbn [foldl]. destruct (suspensions st !! k) as [s|]; [|done].
    case_bool_decide; [|done].
    match goal with |- server (resume s success ?x) = _ =>
      destruct (resume_sends s success x) as (l & (_&_&_&_&_&Hs&_) & _) end.
    by rewrite Hs.
Qed.

Lemma server_reachable tr : ∃ l, server (run tr) = ExtensionServer.run l.
Proof.
  induction tr as [|e tr [l IH]] using rev_ind; [by exists []|].
  rewrite plugin_run_snoc. destruct (server_step (run tr) e) as [l' Hl'].
  exists (l ++ l'). rewrite Hl', IH. unfold ExtensionServer.run.
  by rewrite foldl_app.
Qed.

Lemma promises_known_frame srv srv' :
  ExtensionServer.pendingRequests srv' ⊆ ExtensionServer.pendingRequests srv →
  ExtensionServer.timers srv' ⊆ ExtensionServer.timers srv →
  ExtensionServer.calls srv' = ExtensionServer.calls srv →
  ExtensionServer.nextPromise srv' = ExtensionServer.nextPromise srv →
  promises_known srv → promises_known srv'.
Proof.
  intros Hp Ht Hc Hn [K1 K2 K3]. constructor; rewrite ?Hc, Hn.
  - intros id e He. apply (K1 id). by eapply lookup_weaken.
  - intros t Hin. apply K2. by apply Ht.
  - done.
Qed.

Lemma promises_known_call srv srv' p s :
  ExtensionServer.pendingRequests srv' ⊆ ExtensionServer.pendingRequests srv →
  ExtensionServer.timers srv' ⊆ ExtensionServer.timers srv →
  ExtensionServer.calls srv' = ExtensionServer.calls srv ++ [(p, s)] →
  ExtensionServer.nextPromise srv' = ExtensionServer.nextPromise srv →
  (p < ExtensionServer.nextPromise srv)%nat →
  promises_known srv → promises_known srv'.
Proof.
  intros Hp Ht Hc Hn Hlt [K1 K2 K3]. constructor; rewrite ?Hc, Hn.
  - intros id e He. apply (K1 id). by eapply lookup_weaken.
  - intros t Hin. apply K2. by apply Ht.
  - intros c [Hin| ->%list_elem_of_singleton]%elem_of_app; [by apply K3|done].
Qed.

Lemma promises_known_step srv e :
  promises_known srv → promises_known (ExtensionServer.step srv e).
Proof.
  intros K.
  destruct e as [| |ws|now m|ws code|ws rs|now action data|k];
    cbn [ExtensionServer.step].
  - unfold ExtensionServer.start. destruct (ExtensionServer.started srv);
      by apply (promises_known_frame srv).
  - by apply (promises_known_frame srv).
  - unfold ExtensionServer.on_connection, ExtensionServer.notify. cbn.
    repeat case_match; by apply (promises_known_frame srv).
  - unfold ExtensionServer.handleExtensionMessage, ExtensionServer.sendRawToExtension.
    destruct (strict_eq_str _ _).
    { cbn. repeat case_match; by apply (promises_known_frame srv). }
    destruct (ExtensionServer.get_pending _ _) as [[id e]|] eqn:Hg;
      [|by apply (promises_known_frame srv)].
    apply ExtensionServerSpec.get_pending_Some in Hg. cbn in Hg.
    destruct (truthy _);
      (eapply (promises_known_call srv); cbn;
        [apply delete_subseteq|done|reflexivity|done| |done]);
      by apply (pk_entry srv K id).
  - unfold ExtensionServer.on_close, ExtensionServer.notify. cbn.
    repeat case_match; by apply (promises_known_frame srv).
  - by apply (promises_known_frame srv).
  - destruct K as [K1 K2 K3].
    unfold ExtensionServer.sendToExtension, ExtensionServer.isConnected. cbn.
    repeat case_match; constructor; cbn.
    all: try (intros id e [[<- <-]|[_ He]]%lookup_insert_Some; cbn;
              [lia|apply K1 in He; lia]).
    all: try (intros id e He; apply K1 in He; lia).
    all: try (intros t [Hin| ->%list_elem_of_singleton]%elem_of_app;
              [apply K2 in Hin; lia|cbn; lia]).
    all: try (intros t Hin; apply K2 in Hin; lia).
    all: try (intros c [Hin| ->%list_elem_of_singleton]%elem_of_app;
              [apply K3 in Hin; lia|cbn; lia]).
    all: try (intros c Hin; apply K3 in Hin; lia).
  - destruct (ExtensionServer.timers srv !! k) as [t|] eqn:Hk; [|done].
    assert (t ∈ ExtensionServer.timers srv) as Hin by by eapply list_elem_of_lookup_2.
    assert (delete k (ExtensionServer.timers srv) ⊆ ExtensionServer.timers srv) as Hsub.
    { intros x Hx. eapply elem_of_sublist; [exact Hx|]. apply sublist_delete. }
    unfold ExtensionServer.timeout. cbn. case_bool_decide.
    + eapply (promises_known_call srv); cbn;
        [apply delete_subseteq|done|reflexivity|done| |done].
      by apply (pk_timer srv K).
    + by apply (promises_known_frame srv).
Qed.

Lemma promises_known_run l : promises_known (ExtensionServer.run l).
Proof.
  induction l as [|e l IH] using rev_ind.
  - constructor; cbn; [intros ?? ?%lookup_empty_Some|intros ? ?%elem_of_nil..]; done.
  - rewrite ExtensionServerSpec.run_snoc. by apply promises_known_step.
Qed.

Lemma listener_kept srv e :
  ExtensionServer.onConnectionChange srv = true →
  ExtensionServer.onConnectionChange (ExtensionServer.step srv e) = true.
Proof.
  intros H.
  destruct e as [| |ws|now m|ws code|ws rs|now action data|k];
    cbn [ExtensionServer.step]; try done.
  - unfold ExtensionServer.start. by destruct (ExtensionServer.started srv).
  - unfold ExtensionServer.on_connection, ExtensionServer.notify. cbn.
    by repeat case_match.
  - unfold ExtensionServer.handleExtensionMessage, ExtensionServer.sendRawToExtension.
    cbn. by repeat case_match.
  - unfold ExtensionServer.on_close, ExtensionServer.notify. cbn.
    by repeat case_match.
  - unfold ExtensionServer.sendToExtension. cbn. by repeat case_match.
  - destruct (ExtensionServer.timers srv !! k) as [t|]; [|done].
    unfold ExtensionServer.timeout. cbn. by case_bool_decide.
Qed.

Lemma listener_set tr :
  SDOpen ∈ tr → ExtensionServer.onConnectionChange (server (run tr)) = true.
Proof.
  induction tr as [|e tr IH] using rev_ind; [by intros ?%elem_of_nil|].
  rewrite plugin_run_snoc.
  intros [Hin| <-%list_elem_of_singleton]%elem_of_app.
  - destruct (server_step (run tr) e) as [l ->].
    specialize (IH Hin). revert IH. generalize (server (run tr)).
    induction l as [|x l IHl]; intros srv Hsrv; [done|].
    cbn [foldl]. apply IHl. by apply listener_kept.
  - cbn [step]. unfold on_open.
    match goal with |- context [with_server ?f ?s] =>
      pose proof (with_server_spec f s) as (_&_&_&_&_&Hs&_) end.
    rewrite Hs. apply (listener_kept _ ExtensionServer.Start). reflexivity.
Qed.

Lemma on_connection_notified ws srv :
  ExtensionServer.onConnectionChange srv = true →
  ExtensionServer.notified (ExtensionServer.on_connection ws srv)
  = ExtensionServer.notified srv ++ [true].
Proof.
  intros H. unfold ExtensionServer.on_connection, ExtensionServer.notify. cbn.
  destruct (ExtensionServer.extensionSocket srv); [case_bool_decide|];
    cbn; by rewrite H.
Qed.

Lemma on_close_notified ws code srv :
  ExtensionServer.onConnectionChange srv = true →
  ExtensionServer.notified (ExtensionServer.on_close ws code srv)
  = ExtensionServer.notified srv
    ++ (if bool_decide (ExtensionServer.extensionSocket srv = Some ws)
        then [false] else []).
Proof.
  intros H. unfold ExtensionServer.on_close, ExtensionServer.notify. cbn.
  case_bool_decide; cbn; rewrite ?H; cbn; by rewrite ?app_nil_r.
Qed.

(** ** The visible buttons *)

Lemma visible_frame st st' :
  actionSettings st' = actionSettings st →
  activeContexts st' = activeContexts st →
  visible st → visible st'.
Proof. intros Ha Hc [V1 V2]. constructor; rewrite ?Ha, Hc; done. Qed.

Lemma visible_sends st st' l : sends_only st st' l → visible st → visible st'.
Proof. intros (_&_&Ha&Hc&_). by apply visible_frame. Qed.

Lemma visible_step st e : visible st → visible (step st e).
Proof.
  intros V.
  destruct e as [|rs|now m|e|k success]; cbn [step].
  - unfold on_open.
    match goal with |- visible (with_server ?f ?s) =>
      pose proof (with_server_spec f s) as (_&_&Ha&Hc&_) end.
    eapply visible_frame; [exact Ha|exact Hc|].
    eapply visible_sends; [apply send_sends_only|]. by apply (visible_frame st).
  - by apply (visible_frame st).
  - unfold handleStreamDeckMessage.
    destruct (strict_eq_str (event m) (js "keyDown")).
    { unfold onKeyDown, showAlert, switchToURL. destruct (truthy (url _)); cbn [negb].
      - destruct (ExtensionServer.sendToExtension _ _ _ _).
        by apply (visible_frame st).
      - eapply visible_sends; [apply send_sends_only|done]. }
    destruct (strict_eq_str (event m) (js "willAppear")).
    { unfold onWillAppear.
      eapply visible_sends; [apply updateButtonState_sends|].
      destruct V as [V1 V2]. constructor; cbn; unfold add_context.
      - case_bool_decide; [done|]. apply NoDup_app. split_and!; [done| |apply NoDup_singleton].
        by intros x Hx ->%list_elem_of_singleton.
      - intros c Hc. destruct (decide (c = context m)) as [->|Hne].
        + by rewrite lookup_insert_eq.
        + rewrite lookup_insert_ne by done. apply V2.
          case_bool_decide; [done|].
          apply elem_of_app in Hc as [?| ?%list_elem_of_singleton]; done. }
    destruct (strict_eq_str (event m) (js "willDisappear")).
    { destruct V as [V1 V2]. constructor; cbn.
      - by apply NoDup_filter.
      - intros c [Hne Hc]%list_elem_of_filter.
        rewrite lookup_delete_ne by done. by apply V2. }
    destruct (strict_eq_str (event m) (js "didReceiveSettings")).
    { unfold onDidReceiveSettings.
      eapply visible_sends; [apply updateButtonState_sends|].
      destruct V as [V1 V2]. constructor; cbn; [done|].
      intros c Hc. destruct (decide (c = context m)) as [->|Hne].
      - by rewrite lookup_insert_eq.
      - rewrite lookup_insert_ne by done. by apply V2. }
    destruct (strict_eq_str (event m) (js "didReceiveGlobalSettings")).
    { by apply (visible_frame st). }
    destruct (strict_eq_str (event m) (js "propertyInspectorDidConnect")).
    { eapply visible_sends; [apply send_sends_only|done]. }
    destruct (strict_eq_str (event m) (js "sendToPlugin")); [|done].
    unfold onSendToPlugin. destruct (strict_eq_str _ _); [|done].
    eapply visible_sends; [apply send_sends_only|done].
  - match goal with |- visible (with_server ?f ?s) =>
      pose proof (with_server_spec f s) as (_&_&Ha&Hc&_) end.
    by apply (visible_frame st).
  - destruct (suspensions st !! k) as [s|]; [|done].
    case_bool_decide; [|done].
    match goal with |- visible (resume s success ?x) =>
      destruct (resume_sends s success x) as (l & Hl & _) end.
    eapply visible_sends; [exact Hl|]. by apply (visible_frame st).
Qed.

Lemma visible_run tr : visible (run tr).
Proof.
  induction tr as [|e tr IH] using rev_ind.
  - constructor; cbn; [apply NoDup_nil_2|by intros ? ?%elem_of_nil].
  - rewrite plugin_run_snoc. by apply visible_step.
Qed.

(** Once the socket to the Stream Deck has opened, the buttons follow the
    extension: when it connects, each visible button is sent, once, its
    title for the connected state and state 0; when the socket of the
    extension closes, each is sent the disconnected indicator; the close of
    a socket that is not the current one sends nothing. *)
Theorem buttons_follow_extension (tr : list plugin_event)
    (ws : ExtensionServer.sock) (code : Z) :
  SDOpen ∈ tr →
  NoDup (activeContexts (run tr)) ∧ follows_extension (run tr) ws code.
Proof.
  intros Hopen. pose proof (listener_set tr Hopen) as Hcb.
  split; [apply visible_run|]. generalize dependent (run tr). intros st Hcb.
  unfold follows_extension. split; cbn [step].
  - match goal with |- sent (with_server ?f ?s) = _ =>
      pose proof (with_server_spec f s) as (_&_&_&_&_&_&Hs) end.
    rewrite Hs. f_equal. destruct (bool_decide (websocket st = Some OPEN)); [|done].
    cbn [ExtensionServer.step]. rewrite on_connection_notified by done.
    rewrite drop_app_length. cbn. by rewrite app_nil_r.
  - match goal with |- sent (with_server ?f ?s) = _ =>
      pose proof (with_server_spec f s) as (_&_&_&_&_&_&Hs) end.
    rewrite Hs. f_equal. destruct (bool_decide (websocket st = Some OPEN)); [|done].
    cbn [ExtensionServer.step andb]. rewrite on_close_notified by done.
    destruct (bool_decide (ExtensionServer.extensionSocket (server st) = Some ws)).
    + rewrite drop_app_length. cbn. by rewrite app_nil_r.
    + rewrite app_nil_r. by rewrite drop_all.
Qed.

Lemma buttons_follow_extension_witness :
  NoDup (activeContexts (run button_appears)) ∧
  follows_extension (run button_appears) 0%nat 1000%Z.
Proof.
  exact (buttons_follow_extension button_appears 0%nat 1000%Z
           (list_elem_of_here _ _)).
Defined.

Example button_follows_connection :
  sent (run (button_appears ++ [Server (ExtensionServer.Connection 0)]))
  = [ Register;
      Display (SetTitle (js "ctx") (JStr disconnected_indicator));
      Display (SetState (js "ctx") 0);
      Display (SetTitle (js "ctx") (JStr (js "github.com")));
      Display (SetState (js "ctx") 0) ].
Proof. vm_compute. reflexivity. Qed.

(** ** Key presses *)

Lemma answers_of_app l l' : answers_of (l ++ l') = (answers_of l + answers_of l')%nat.
Proof. unfold answers_of. by rewrite filter_app, length_app. Qed.

Lemma answers_of_le l : (answers_of l ≤ length l)%nat.
Proof. apply length_filter. Qed.

Lemma answers_of_refresh st l : answers_of (l ≫= refresh st) = 0%nat.
Proof.
  induction l as [|b l IH]; [done|].
  change ((b :: l) ≫= refresh st) with (refresh st b ++ (l ≫= refresh st)).
  rewrite answers_of_app, IH. unfold refresh.
  induction (activeContexts st) as [|c cs IHc]; [done|].
  change ((c :: cs) ≫= shown st b) with (shown st b c ++ (cs ≫= shown st b)).
  rewrite answers_of_app. rewrite Nat.add_0_r in *. by rewrite IHc.
Qed.

Lemma sends_only_answers st st' l :
  sends_only st st' l →
  suspensions st' = suspensions st ∧
  (answers st' ≤ answers st + answers_of l)%nat.
Proof.
  intros (_&_&_&_&Hsus&_&Hs). split; [done|]. unfold answers. rewrite Hs.
  fold (answers_of (sent st ++ (if bool_decide (websocket st = Some OPEN) then l else []))).
  rewrite answers_of_app. fold (answers_of (sent st)).
  destruct (bool_decide _); cbn; lia.
Qed.

Lemma with_server_answers f st :
  suspensions (with_server f st) = suspensions st ∧
  answers (with_server f st) = answers st.
Proof.
  pose proof (with_server_spec f st) as (_&_&_&_&Hsus&_&Hs). split; [done|].
  unfold answers. rewrite Hs.
  fold (answers_of (sent st ++ (if bool_decide (websocket st = Some OPEN)
    then drop (length (ExtensionServer.notified (server st)))
           (ExtensionServer.notified (f (server st))) ≫= refresh st else []))).
  rewrite answers_of_app. fold (answers_of (sent st)).
  destruct (bool_decide _); [rewrite answers_of_refresh|cbn]; lia.
Qed.

Ltac tally :=
  repeat match goal with
         | H : context [answers_of ?l] |- _ =>
             let n := eval vm_compute in (answers_of l) in
             change (answers_of l) with n in H
         end;
  unfold answers in *; cbn [sent suspensions set_settings] in *.

Lemma press_step st e :
  (answers (step st e) + length (suspensions (step st e))
   ≤ answers st + length (suspensions st) + (if is_press e then 1 else 0))%nat.
Proof.
  destruct e as [|rs|now m|e|k success]; cbn [step is_press].
  - unfold on_open.
    match goal with |- context [with_server ?f ?s] =>
      destruct (with_server_answers f s) as [-> ->] end.
    match goal with |- context [send ?p ?s] =>
      destruct (sends_only_answers _ _ _ (send_sends_only p s)) as [-> Hle] end.
    tally. lia.
  - tally. lia.
  - unfold handleStreamDeckMessage.
    destruct (strict_eq_str (event m) (js "keyDown")).
    { unfold onKeyDown, showAlert, switchToURL. destruct (truthy (url _)); cbn [negb].
      - destruct (ExtensionServer.sendToExtension _ _ _ _).
        tally. rewrite length_app. cbn [length]. lia.
      - destruct (sends_only_answers _ _ _
          (send_sends_only (ShowAlert (context m)) st)) as [-> Hle].
        tally. lia. }
    destruct (strict_eq_str (event m) (js "willAppear")).
    { unfold onWillAppear.
      match goal with |- context [updateButtonState ?c ?b ?s] =>
        destruct (sends_only_answers _ _ _ (updateButtonState_sends c b s)) as [-> Hle] end.
      tally. lia. }
    destruct (strict_eq_str (event m) (js "willDisappear")).
    { unfold onWillDisappear. tally. lia. }
    destruct (strict_eq_str (event m) (js "didReceiveSettings")).
    { unfold onDidReceiveSettings.
      match goal with |- context [updateButtonState ?c ?b ?s] =>
        destruct (sends_only_answers _ _ _ (updateButtonState_sends c b s)) as [-> Hle] end.
      tally. lia. }
    destruct (strict_eq_str (event m) (js "didReceiveGlobalSettings")).
    { tally. lia. }
    destruct (strict_eq_str (event m) (js "propertyInspectorDidConnect")).
    { unfold onPropertyInspectorConnected.
      match goal with |- context [send ?p ?s] =>
        destruct (sends_only_answers _ _ _ (send_sends_only p s)) as [-> Hle] end.
      tally. lia. }
    destruct (strict_eq_str (event m) (js "sendToPlugin")); [|lia].
    unfold onSendToPlugin. destruct (strict_eq_str _ _); [|lia].
    match goal with |- context [send ?p ?s] =>
      destruct (sends_only_answers _ _ _ (send_sends_only p s)) as [-> Hle] end.
    tally. lia.
  - destruct (with_server_answers (λ srv, ExtensionServer.step srv e) st) as [-> ->].
    lia.
  - destruct (suspensions st !! k) as [s|] eqn:Hk; [|lia].
    case_bool_decide; [|lia].
    match goal with |- context [resume s success ?x] =>
      destruct (resume_sends s success x) as (l & Hl & Hlen);
      destruct (sends_only_answers _ _ _ Hl) as [-> Hle] end.
    pose proof (answers_of_le l). apply lookup_lt_Some in Hk.
    unfold answers in *; cbn [sent suspensions set_settings] in *.
    rewrite length_delete by (by apply lookup_lt_is_Some_2). lia.
Qed.

(** A key press is answered at most once: the [showOk] and [showAlert]
    sent so far, together with the presses whose request is still awaited,
    never outnumber the [keyDown] events received. *)
Theorem press_answered_at_most_once (tr : list plugin_event) :
  (answers (run tr) + length (suspensions (run tr)) ≤ presses tr)%nat.
Proof.
  induction tr as [|e tr IH] using rev_ind; [cbn; lia|].
  rewrite plugin_run_snoc. pose proof (press_step (run tr) e) as Hstep.
  unfold presses in *. rewrite filter_app, length_app.
  assert (length (filter is_press [e]) = if is_press e then 1 else 0)%nat as ->.
  { rewrite filter_cons, filter_nil. by destruct (is_press e). }
  lia.
Qed.

(** A press of a button that has no URL, or no settings at all, is
    answered with an alert at once and never reaches the extension. *)
Theorem press_without_url (now : Z) (m : sd_message) (st : state) :
  event m = JStr (js "keyDown") →
  truthy (configured_url (context m) st) = false →
  only_alerted (context m) st (step st (SDMessage now m)).
Proof.
  intros He Hu. cbn [step]. unfold handleStreamDeckMessage. rewrite He.
  change (strict_eq_str (JStr (js "keyDown")) (js "keyDown")) with true.
  cbn match. unfold onKeyDown, showAlert. unfold configured_url in Hu.
  rewrite Hu. cbn [negb].
  pose proof (send_sends_only (ShowAlert (context m)) st) as (_&_&_&_&H5&H6&H7).
  unfold only_alerted. rewrite H6. split_and!; done.
Qed.

Lemma press_without_url_witness :
  only_alerted (js "ctx") (run blank_button_appears)
    (step (run blank_button_appears) (SDMessage 5 (deck_message "keyDown" None))).
Proof.
  apply (press_without_url 5 (deck_message "keyDown" None) (run blank_button_appears)).
  - reflexivity.
  - vm_compute. reflexivity.
Defined.

Lemma calls_of_fresh (p : ExtensionServer.promise)
    (l : list (ExtensionServer.promise * ExtensionServer.settlement)) :
  (∀ c, c ∈ l → c.1 ≠ p) → filter (λ c, c.1 = p) l = [].
Proof.
  induction l as [|c l IH]; intros H; [done|].
  rewrite filter_cons, decide_False by (apply H; left).
  apply IH. intros c' Hc'. apply H. by right.
Qed.

Lemma first_call (p : ExtensionServer.promise) (s : ExtensionServer.settlement)
    (l : list (ExtensionServer.promise * ExtensionServer.settlement)) :
  (∀ c, c ∈ l → c.1 ≠ p) →
  snd <$> head (filter (λ c, c.1 = p) (l ++ [(p, s)])) = Some s.
Proof.
  intros H. rewrite filter_app, (calls_of_fresh p l H).
  rewrite (filter_cons (λ c : ExtensionServer.promise * ExtensionServer.settlement, c.1 = p)).
  by rewrite decide_True.
Qed.

Lemma sendToExtension_refused now action data srv :
  ExtensionServer.isConnected srv = false →
  ExtensionServer.sendToExtension now action data srv
  = (ExtensionServer.call (ExtensionServer.nextPromise srv)
       (ExtensionServer.Reject (js "Chrome extension not connected"))
       (ExtensionServer.new_promise srv),
     ExtensionServer.nextPromise srv).
Proof.
  unfold ExtensionServer.sendToExtension. intros H.
  change (ExtensionServer.extensionSocket (ExtensionServer.new_promise srv))
    with (ExtensionServer.extensionSocket srv).
  change (ExtensionServer.isConnected (ExtensionServer.new_promise srv))
    with (ExtensionServer.isConnected srv).
  rewrite H. by destruct (ExtensionServer.extensionSocket srv).
Qed.

Lemma resume_rejected st k s success text :
  suspensions st !! k = Some s →
  outcome (awaited s) st = Some (ExtensionServer.Reject text) →
  step st (Resume k success)
  = showAlert (for_context s)
      {| websocket := websocket st; globalSettings := globalSettings st;
         actionSettings := actionSettings st;
         activeContexts := activeContexts st; sent := sent st;
         suspensions := delete k (suspensions st); server := server st |}.
Proof.
  intros Hk Ho. cbn [step]. rewrite Hk.
  rewrite bool_decide_eq_true_2 by (rewrite Ho; by eexists).
  unfold resume.
  match goal with |- context [outcome (awaited s) ?x] =>
    change (outcome (awaited s) x) with (outcome (awaited s) st) end.
  by rewrite Ho.
Qed.

(** While the extension is not connected, a press of a configured button
    ends in an alert: the request is refused without being written to any
    socket, no entry or timer is left behind, and when the suspended call
    runs on it sends [showAlert], whatever the reply would have said. *)
Theorem press_while_disconnected (tr : list plugin_event) (now : Z)
    (m : sd_message) (success : bool) :
  event m = JStr (js "keyDown") →
  truthy (configured_url (context m) (run tr)) = true →
  isConnected (run tr) = false →
  only_alerted (context m) (run tr)
    (step (step (run tr) (SDMessage now m))
          (Resume (length (suspensions (run tr))) success)).
Proof.
  intros He Hu Hc.
  destruct (server_reachable tr) as [l Hl].
  pose proof (promises_known_run l) as K. rewrite <- Hl in K. clear l Hl.
  generalize dependent (run tr). intros st Hu Hc K.
  unfold configured_url in Hu. unfold isConnected in Hc.
  set (p := ExtensionServer.nextPromise (server st)).
  set (s := {| awaited := p;
               for_url := url (default empty_settings (actionSettings st !! context m));
               for_context := context m |}).
  set (srv := ExtensionServer.call p
                (ExtensionServer.Reject (js "Chrome extension not connected"))
                (ExtensionServer.new_promise (server st))).
  assert (step st (SDMessage now m)
          = {| websocket := websocket st; globalSettings := globalSettings st;
               actionSettings := actionSettings st;
               activeContexts := activeContexts st; sent := sent st;
               suspensions := suspensions st ++ [s]; server := srv |}) as ->.
  { cbn [step]. unfold handleStreamDeckMessage. rewrite He.
    change (strict_eq_str (JStr (js "keyDown")) (js "keyDown")) with true.
    cbn match. unfold onKeyDown. rewrite Hu. cbn [negb].
    unfold switchToURL. by rewrite sendToExtension_refused. }
  assert (∀ c, c ∈ ExtensionServer.calls (server st) → c.1 ≠ p) as Hfresh.
  { intros c Hin. pose proof (pk_call _ K c Hin). unfold p. lia. }
  rewrite (resume_rejected _ _ s success (js "Chrome extension not connected")).
  - cbn [websocket globalSettings actionSettings activeContexts sent suspensions
         server for_context s].
    rewrite delete_middle, app_nil_r. unfold showAlert.
    match goal with |- only_alerted _ _ (send ?p ?s) =>
      pose proof (send_sends_only p s) as (_&_&_&_&H5&H6&H7) end.
    unfold only_alerted. rewrite H5, H6, H7. split_and!; done.
  - cbn [suspensions]. by apply list_lookup_middle.
  - unfold outcome. cbn [server awaited s]. unfold srv.
    cbn [ExtensionServer.calls ExtensionServer.call ExtensionServer.new_promise].
    by apply first_call.
Qed.

Lemma press_while_disconnected_witness :
  only_alerted (js "ctx") (run button_appears)
    (step (step (run button_appears) (SDMessage 5 (deck_message "keyDown" None)))
          (Resume (length (suspensions (run button_appears))) true)).
Proof.
  apply (press_while_disconnected button_appears 5 (deck_message "keyDown" None) true).
  - reflexivity.
  - vm_compute. reflexivity.
  - vm_compute. reflexivity.
Defined.

End PluginSpec.

(* ===================================================================== *)
(** * Properties of the entry point and of the popup                       *)
(* ===================================================================== *)

Module EntrySpec.
Import Background EntryPoint Popup EntryStatements.

Lemma flag_of_text f : flag_of (flag_text f) = Some f.
Proof. by destruct f. Qed.

Lemma get_assign f g v p : get f (assign g v p) = if decide (f = g) then v else get f p.
Proof. by destruct f, g. Qed.

Lemma parse_pairs kvs rest p :
  parse (pairs kvs ++ rest) p = parse rest (foldl (λ p kv, assign kv.1 (JStr kv.2) p) p kvs).
Proof.
  revert p. induction kvs as [|[g v] kvs IH]; intros p; [done|].
  change (pairs ((g, v) :: kvs) ++ rest)
    with (flag_text g :: v :: (pairs kvs ++ rest)).
  cbn [parse]. rewrite flag_of_text. apply IH.
Qed.

Lemma get_assigned kvs p f :
  get f (foldl (λ p kv, assign kv.1 (JStr kv.2) p) p kvs)
  = match last_value f kvs with Some v => JStr v | None => get f p end.
Proof.
  unfold last_value. induction kvs as [|[g v] kvs IH] using rev_ind; [done|].
  rewrite foldl_app, filter_app. cbn [foldl fst snd]. rewrite get_assign.
  rewrite filter_cons, filter_nil. cbn [fst].
  destruct (decide (f = g)) as [->|Hne].
  - rewrite decide_True by done. by rewrite last_snoc.
  - rewrite decide_False by done. by rewrite app_nil_r.
Qed.

(** On a command line of flags each followed by its value, every variable
    ends with the value of the last occurrence of its flag, and is
    [undefined] when the flag does not occur; [connectToStreamDeck] is
    called exactly when each of the four flags occurs and the last value of
    each is not the empty string. *)
Theorem flags_last_wins (a0 a1 : jsstring) (kvs : list (flag * jsstring)) :
  let r := main (a0 :: a1 :: pairs kvs) in
  (∀ f, get f r.1 = from_option JStr JUndefined (last_value f kvs)) ∧
  (r.2 = true ↔ ∀ f, ∃ v, last_value f kvs = Some v ∧ v ≠ []).
Proof.
  cbn zeta. unfold main. cbn [drop fst snd].
  assert (∀ f, get f (parse (pairs kvs) unset)
               = from_option JStr JUndefined (last_value f kvs)) as Hget.
  { intros f. rewrite <- (app_nil_r (pairs kvs)), parse_pairs. cbn [parse].
    rewrite get_assigned. by destruct (last_value f kvs), f. }
  split; [exact Hget|].
  assert (∀ f, truthy (get f (parse (pairs kvs) unset)) = true
               ↔ ∃ v, last_value f kvs = Some v ∧ v ≠ []) as Htruthy.
  { intros f. rewrite Hget. destruct (last_value f kvs) as [v|]; cbn.
    - rewrite negb_true_iff, bool_decide_eq_false. split.
      + intros Hv. by exists v.
      + by intros (v' & [= <-] & Hv).
    - split; [done|]. by intros (v & ? & _). }
  unfold connects. rewrite !andb_true_iff. split.
  - intros [[[H1 H2] H3] H4] f. apply Htruthy. by destruct f.
  - intros H. split_and!.
    + apply (Htruthy Port), H.
    + apply (Htruthy PluginUUID), H.
    + apply (Htruthy RegisterEvent), H.
    + apply (Htruthy Info), H.
Qed.

Example deck_command_line_connects :
  main (js "node" :: js "plugin.js" :: pairs deck_command_line)
  = ({| port := JStr (js "28196"); pluginUUID := JStr (js "ABCD1234");
        registerEvent := JStr (js "registerPlugin"); info := JStr (js "{}") |},
     true).
Proof. vm_compute. reflexivity. Qed.

(** A flag that ends the command line takes [undefined]: its variable
    loses the value an earlier occurrence gave it, and the plugin does not
    connect to the Stream Deck. *)
Theorem dangling_flag_unsets (a0 a1 : jsstring) (kvs : list (flag * jsstring))
    (f : flag) :
  let r := main (a0 :: a1 :: pairs kvs ++ [flag_text f]) in
  get f r.1 = JUndefined ∧ r.2 = false.
Proof.
  cbn zeta. unfold main. cbn [drop fst snd]. rewrite drop_0.
  rewrite parse_pairs. cbn [parse]. rewrite flag_of_text.
  generalize (foldl (λ p kv, assign kv.1 (JStr kv.2) p) unset kvs). intros p.
  split; [by destruct f|].
  unfold connects. destruct f; cbn; by rewrite ?andb_false_r.
Qed.

(** A flag right after a flag is taken as its value, not as a flag. *)
Example flag_taken_as_value :
  main [js "node"; js "plugin.js"; js "-port"; js "-info"; js "{}"]
  = ({| port := JStr (js "-info"); pluginUUID := JUndefined;
        registerEvent := JUndefined; info := JUndefined |}, false).
Proof. vm_compute. reflexivity. Qed.

(** ** The popup *)

(** The switch button sends nothing for a field that is empty after
    trimming; otherwise the URL it sends begins with [http://] or
    [https://], and the scheme it adds does not matter to [normalizeURL],
    provided the scheme the user wrote, if any, is in lower case. *)
Theorem popup_adds_scheme (value : jsstring) :
  match switch_click value with
  | None => trim value = []
  | Some u =>
      trim value ≠ [] ∧
      startsWith u (js "http://") || startsWith u (js "https://") = true ∧
      (scheme_in_lower_case (trim value) →
       normalizeURL u = normalizeURL (trim value))
  end.
Proof.
  unfold switch_click. generalize (trim value). intros t. cbn [truthy].
  case_bool_decide as Ht; cbn [negb]; [done|].
  destruct (startsWith t (js "http://")) eqn:H1; cbn [negb andb orb].
  { split_and!; try done. by rewrite H1. }
  destruct (startsWith t (js "https://")) eqn:H2; cbn [negb andb orb].
  { split_and!; try done. rewrite H1, H2. done. }
  split_and!; [done| |].
  - rewrite (ResolverSpec.startsWith_app (js "https://") t). apply orb_true_r.
  - intros [L1 L2]. rewrite H1 in L1. rewrite H2 in L2.
    rewrite !BackgroundSpec.normalizeURL_unfold, ResolverSpec.toLowerCase_app.
    change (toLowerCase (js "https://")) with (js "https://").
    rewrite ResolverSpec.replace_protocol_https.
    by rewrite (BackgroundSpec.replace_protocol_none (toLowerCase t)).
Qed.

Example popup_bare_host :
  switch_click (js "  github.com ") = Some (js "https://github.com").
Proof. vm_compute. reflexivity. Qed.

(** A scheme in capitals is not recognised by the popup, which puts a
    second one in front; [normalizeURL] then strips only the one added. *)
Example popup_capital_scheme :
  switch_click (js "HTTP://Example.com") = Some (js "https://HTTP://Example.com") ∧
  normalizeURL (js "https://HTTP://Example.com") = js "http://example.com" ∧
  normalizeURL (js "HTTP://Example.com") = js "example.com".
Proof. vm_compute. done. Qed.

End EntrySpec.
